(** * Block maintenance of the consensus set (modules/consensus/maintenance.go)

    A shallow embedding of the end-of-block maintenance pass: miner payouts
    become delayed outputs, delayed outputs whose maturity height is reached
    become spendable outputs, and file contracts whose window closed without
    a storage proof pay their missed-proof outputs and are removed.

    Go maps are [gmap]s, the two mutated objects (the consensus set and the
    block node) are threaded explicitly, and a [panic] is the [Panic]
    outcome of the [Result] monad.  The order in which Go's [range] visits
    a map is not specified by the language, so every loop over a map takes
    the visiting order as an argument, constrained only by [map_range]. *)

From stdpp Require Import gmap list fin_maps strings.
From Stdlib Require Import NArith Permutation.

Local Open Scope N_scope.

(** ** Package [types] *)

(** Modelled from the spec: the declarations of package [types] are not in
    the maintenance file.  A height is an unsigned 64-bit block count, an
    identifier is a hash read as a number, an output is a value and a
    spending condition; of a contract and of a block only the fields that
    the maintenance pass reads are kept. *)

Abbreviation BlockHeight := N (only parsing).
Abbreviation SiacoinOutputID := N (only parsing).
Abbreviation FileContractID := N (only parsing).

(** Addition on [BlockHeight], an unsigned 64-bit integer. *)
Definition height_add (a b : BlockHeight) : BlockHeight := (a + b) mod 2 ^ 64.

Record SiacoinOutput := mkSiacoinOutput {
  Value : N;
  UnlockHash : N
}.

Record FileContract := mkFileContract {
  WindowEnd : BlockHeight;
  MissedProofOutputs : list SiacoinOutput
}.

(** The value of [fc] in [fc, exists := m[k]] when [k] is not a key. *)
Definition zeroFileContract : FileContract :=
  {| WindowEnd := 0; MissedProofOutputs := [] |}.

Record Block := mkBlock {
  MinerPayouts : list SiacoinOutput
}.

Inductive ProofStatus := ProofValid | ProofMissed.

(** ** Package [modules]: the diff records

    The fields are those of the composite literals in the maintenance
    file. *)

Inductive DiffDirection := DiffApply | DiffRevert.

Definition DiffDirection_is_apply (d : DiffDirection) : Prop :=
  match d with DiffApply => True | DiffRevert => False end.

Global Instance DiffDirection_eq_dec : EqDecision DiffDirection := λ a b,
  match a, b with
  | DiffApply, DiffApply => left eq_refl
  | DiffRevert, DiffRevert => left eq_refl
  | DiffApply, DiffRevert =>
      right (λ H : DiffApply = DiffRevert,
               eq_ind DiffApply DiffDirection_is_apply I DiffRevert H)
  | DiffRevert, DiffApply =>
      right (λ H : DiffRevert = DiffApply,
               eq_ind DiffApply DiffDirection_is_apply I DiffRevert (eq_sym H))
  end.

Record SiacoinOutputDiff := mkSiacoinOutputDiff {
  scod_Direction : DiffDirection;
  scod_ID : SiacoinOutputID;
  scod_SiacoinOutput : SiacoinOutput
}.

Record DelayedSiacoinOutputDiff := mkDelayedSiacoinOutputDiff {
  dscod_Direction : DiffDirection;
  dscod_ID : SiacoinOutputID;
  dscod_SiacoinOutput : SiacoinOutput;
  dscod_MaturityHeight : BlockHeight
}.

Record FileContractDiff := mkFileContractDiff {
  fcd_Direction : DiffDirection;
  fcd_ID : FileContractID;
  fcd_FileContract : FileContract
}.

(** ** Package [consensus]: the state

    Of the consensus set and of the block node, the fields that the
    maintenance file reads or writes. *)

Record ConsensusSet := mkConsensusSet {
  siacoinOutputs : gmap N SiacoinOutput;
  delayedSiacoinOutputs : gmap N (gmap N SiacoinOutput);
  fileContracts : gmap N FileContract
}.

Record blockNode := mkBlockNode {
  block : Block;
  height : BlockHeight;
  siacoinOutputDiffs : list SiacoinOutputDiff;
  fileContractDiffs : list FileContractDiff;
  delayedSiacoinOutputDiffs : list DelayedSiacoinOutputDiff
}.

(** The receiver [cs] and the argument [bn] are both mutated in place. *)
Abbreviation State := (ConsensusSet * blockNode)%type (only parsing).

(** [cs.delayedSiacoinOutputs[h]]: a missing key reads as the nil map, which
    behaves as an empty map under lookup, [range] and [len]. *)
Definition bucket (cs : ConsensusSet) (h : BlockHeight) : gmap N SiacoinOutput :=
  default ∅ (delayedSiacoinOutputs cs !! h).

Definition set_siacoinOutputs (f : gmap N SiacoinOutput → gmap N SiacoinOutput)
    (cs : ConsensusSet) : ConsensusSet :=
  {| siacoinOutputs := f (siacoinOutputs cs);
     delayedSiacoinOutputs := delayedSiacoinOutputs cs;
     fileContracts := fileContracts cs |}.

Definition set_delayedSiacoinOutputs
    (f : gmap N (gmap N SiacoinOutput) → gmap N (gmap N SiacoinOutput))
    (cs : ConsensusSet) : ConsensusSet :=
  {| siacoinOutputs := siacoinOutputs cs;
     delayedSiacoinOutputs := f (delayedSiacoinOutputs cs);
     fileContracts := fileContracts cs |}.

Definition set_fileContracts (f : gmap N FileContract → gmap N FileContract)
    (cs : ConsensusSet) : ConsensusSet :=
  {| siacoinOutputs := siacoinOutputs cs;
     delayedSiacoinOutputs := delayedSiacoinOutputs cs;
     fileContracts := f (fileContracts cs) |}.

(** [bn.siacoinOutputDiffs = append(bn.siacoinOutputDiffs, d)] *)
Definition append_siacoinOutputDiff (d : SiacoinOutputDiff) (bn : blockNode) : blockNode :=
  {| block := block bn; height := height bn;
     siacoinOutputDiffs := siacoinOutputDiffs bn ++ [d];
     fileContractDiffs := fileContractDiffs bn;
     delayedSiacoinOutputDiffs := delayedSiacoinOutputDiffs bn |}.

(** [bn.delayedSiacoinOutputDiffs = append(bn.delayedSiacoinOutputDiffs, d)] *)
Definition append_delayedSiacoinOutputDiff (d : DelayedSiacoinOutputDiff)
    (bn : blockNode) : blockNode :=
  {| block := block bn; height := height bn;
     siacoinOutputDiffs := siacoinOutputDiffs bn;
     fileContractDiffs := fileContractDiffs bn;
     delayedSiacoinOutputDiffs := delayedSiacoinOutputDiffs bn ++ [d] |}.

(** [bn.fileContractDiffs = append(bn.fileContractDiffs, d)] *)
Definition append_fileContractDiff (d : FileContractDiff) (bn : blockNode) : blockNode :=
  {| block := block bn; height := height bn;
     siacoinOutputDiffs := siacoinOutputDiffs bn;
     fileContractDiffs := fileContractDiffs bn ++ [d];
     delayedSiacoinOutputDiffs := delayedSiacoinOutputDiffs bn |}.

(** ** Panics *)

Inductive PanicValue :=
  | errMissingFileContract
  | errOutputAlreadyMature
  | errPayoutsAlreadyPaid
  | errStorageProofTiming
  | panicString (msg : string).

Inductive Result (A : Type) :=
  | Ok (a : A)
  | Panic (e : PanicValue).
Arguments Ok {A} a.
Arguments Panic {A} e.

Global Instance Result_ret : MRet Result := @Ok.
Global Instance Result_bind : MBind Result := λ A B f m,
  match m with
  | Ok a => f a
  | Panic e => Panic e
  end.

(** [if c { panic(e) }] *)
Definition panic_if (c : bool) (e : PanicValue) : Result unit :=
  if c then Panic e else Ok tt.

(** [for i, x := range l { body }] over a slice, the counter starting at [i]. *)
Fixpoint for_range {A S : Type} (body : N → A → S → Result S)
    (i : N) (l : list A) (s : S) : Result S :=
  match l with
  | [] => Ok s
  | x :: l' => s' ← body i x s; for_range body (N.succ i) l' s'
  end.

(** [l] is an order in which [for k, v := range m] may visit [m]: every
    entry once, in any order. *)
Definition map_range {V : Type} (m : gmap N V) (l : list (N * V)) : Prop :=
  l ≡ₚ map_to_list m.

(** ** Committing diffs *)

(** Modelled from the spec: [commitSiacoinOutputDiff] is not in the
    maintenance file.  A diff committed in its own direction inserts the
    output into the mature-output set, committed in the opposite direction
    it removes it. *)
Definition commitSiacoinOutputDiff (scod : SiacoinOutputDiff) (dir : DiffDirection)
    (cs : ConsensusSet) : ConsensusSet :=
  if decide (scod_Direction scod = dir)
  then set_siacoinOutputs <[scod_ID scod := scod_SiacoinOutput scod]> cs
  else set_siacoinOutputs (delete (scod_ID scod)) cs.

(** Modelled from the spec: [commitDelayedSiacoinOutputDiff] is not in the
    maintenance file.  A diff committed in its own direction inserts the
    output into the delayed bucket at its maturity height (the index is
    sparse: a bucket comes into being with its first entry), committed in
    the opposite direction it removes it from that bucket. *)
Definition commitDelayedSiacoinOutputDiff (dscod : DelayedSiacoinOutputDiff)
    (dir : DiffDirection) (cs : ConsensusSet) : ConsensusSet :=
  let h := dscod_MaturityHeight dscod in
  if decide (dscod_Direction dscod = dir)
  then set_delayedSiacoinOutputs
         <[h := <[dscod_ID dscod := dscod_SiacoinOutput dscod]> (bucket cs h)]> cs
  else set_delayedSiacoinOutputs (alter (delete (dscod_ID dscod)) h) cs.

(** Modelled from the spec: [commitFileContractDiff] is not in the
    maintenance file.  A diff committed in its own direction inserts the
    contract into the contract set, committed in the opposite direction it
    removes it. *)
Definition commitFileContractDiff (fcd : FileContractDiff) (dir : DiffDirection)
    (cs : ConsensusSet) : ConsensusSet :=
  if decide (fcd_Direction fcd = dir)
  then set_fileContracts <[fcd_ID fcd := fcd_FileContract fcd]> cs
  else set_fileContracts (delete (fcd_ID fcd)) cs.

(** Modelled from the spec: the rewind path is not in the maintenance file.
    It replays a diff log in exact reverse order, each diff committed in
    direction [DiffRevert]. *)
Definition revertSiacoinOutputDiffs (ds : list SiacoinOutputDiff)
    (cs : ConsensusSet) : ConsensusSet :=
  foldl (λ cs d, commitSiacoinOutputDiff d DiffRevert cs) cs (reverse ds).

(** Modelled from the spec: the rewind of the delayed-output log. *)
Definition revertDelayedSiacoinOutputDiffs (ds : list DelayedSiacoinOutputDiff)
    (cs : ConsensusSet) : ConsensusSet :=
  foldl (λ cs d, commitDelayedSiacoinOutputDiff d DiffRevert cs) cs (reverse ds).

(** Modelled from the spec: the rewind of the contract log. *)
Definition revertFileContractDiffs (ds : list FileContractDiff)
    (cs : ConsensusSet) : ConsensusSet :=
  foldl (λ cs d, commitFileContractDiff d DiffRevert cs) cs (reverse ds).

(** ** Sample ledgers

    The scenarios of the specification, with a maturity delay of 10 and
    stand-ins for the two identifier derivations. *)

Definition sampleMaturityDelay : BlockHeight := 10.

Definition sampleMinerPayoutID (b : Block) (i : N) : SiacoinOutputID := 100 + i.

Definition sampleStorageProofOutputID (fcid : FileContractID) (p : ProofStatus)
    (i : N) : SiacoinOutputID :=
  1000 * (fcid + 1) + (match p with ProofValid => 500 | ProofMissed => 0 end) + i.

Definition outA : SiacoinOutput := {| Value := 100; UnlockHash := 1 |}.
Definition outB : SiacoinOutput := {| Value := 50; UnlockHash := 2 |}.
Definition outC : SiacoinOutput := {| Value := 30; UnlockHash := 3 |}.

Definition rewardBlock : Block := {| MinerPayouts := [outA] |}.
Definition emptyBlock : Block := {| MinerPayouts := [] |}.

(** A block node on which nothing has been recorded yet. *)
Definition freshNode (b : Block) (h : BlockHeight) : blockNode :=
  {| block := b; height := h; siacoinOutputDiffs := [];
     fileContractDiffs := []; delayedSiacoinOutputDiffs := [] |}.

Definition emptyLedger : ConsensusSet :=
  {| siacoinOutputs := ∅; delayedSiacoinOutputs := ∅; fileContracts := ∅ |}.

(** Scenario A: the reward of the block at height 5 waits in the bucket at 15. *)
Definition ledgerA : ConsensusSet :=
  {| siacoinOutputs := ∅;
     delayedSiacoinOutputs := {[ 15 := {[ 100 := outA ]} ]};
     fileContracts := ∅ |}.

(** Scenario B: contract 7 ends at height 20 and pays 50 when the proof is missed. *)
Definition contractC : FileContract :=
  {| WindowEnd := 20; MissedProofOutputs := [outB] |}.

Definition ledgerB : ConsensusSet :=
  {| siacoinOutputs := ∅; delayedSiacoinOutputs := ∅;
     fileContracts := {[ 7 := contractC ]} |}.

(** A ledger at height 20 with one mature output, two outputs maturing at
    20 and the contract of scenario B. *)
Definition ledger20 : ConsensusSet :=
  {| siacoinOutputs := {[ 1 := outC ]};
     delayedSiacoinOutputs := {[ 20 := {[ 5 := outA; 6 := outB ]} ]};
     fileContracts := {[ 7 := contractC ]} |}.

(** A ledger in which the identifier 100 waits in two buckets. *)
Definition ledgerTwice : ConsensusSet :=
  {| siacoinOutputs := ∅;
     delayedSiacoinOutputs := {[ 15 := {[ 100 := outA ]}; 25 := {[ 100 := outA ]} ]};
     fileContracts := ∅ |}.

(** The ledger at height 20 with an output already waiting in the bucket
    at 30. *)
Definition ledger20Queued : ConsensusSet :=
  {| siacoinOutputs := {[ 1 := outC ]};
     delayedSiacoinOutputs := {[ 20 := {[ 5 := outA; 6 := outB ]}; 30 := {[ 9 := outC ]} ]};
     fileContracts := {[ 7 := contractC ]} |}.

(** A ledger whose bucket at height 15 is there and empty. *)
Definition ledgerHollow : ConsensusSet :=
  {| siacoinOutputs := ∅;
     delayedSiacoinOutputs := {[ 15 := ∅ ]};
     fileContracts := ∅ |}.

(** A ledger with three contracts: 7 and 8 end at height 20, 9 ends at 30. *)
Definition contractD : FileContract :=
  {| WindowEnd := 20; MissedProofOutputs := [outA; outC] |}.

Definition contractE : FileContract :=
  {| WindowEnd := 30; MissedProofOutputs := [outC] |}.

Definition ledgerContracts : ConsensusSet :=
  {| siacoinOutputs := ∅; delayedSiacoinOutputs := ∅;
     fileContracts := {[ 7 := contractC; 8 := contractD; 9 := contractE ]} |}.

(** ** The maintenance pass *)

Section Maintenance.

(** [types.MaturityDelay], [Block.MinerPayoutID] and
    [FileContractID.StorageProofOutputID] are declared in package [types].
    The build constant [build.DEBUG] is the first argument of every
    function that reads it. *)
Variable MaturityDelay : BlockHeight.
Variable MinerPayoutID : Block → N → SiacoinOutputID.
Variable StorageProofOutputID : FileContractID → ProofStatus → N → SiacoinOutputID.

(** One iteration of the loop of [applyMinerPayouts]. *)
Definition applyMinerPayout (DEBUG : bool) (i : N) (payout : SiacoinOutput)
    (s : State) : Result State :=
  let '(cs, bn) := s in
  let mpid := MinerPayoutID (block bn) i in
  _ ← (if DEBUG then
         _ ← panic_if (bool_decide (is_Some
                (bucket cs (height_add (height bn) MaturityDelay) !! mpid)))
              errPayoutsAlreadyPaid;
         panic_if (bool_decide (is_Some (siacoinOutputs cs !! mpid)))
              errPayoutsAlreadyPaid
       else Ok tt);
  let dscod := {| dscod_Direction := DiffApply;
                  dscod_ID := mpid;
                  dscod_SiacoinOutput := payout;
                  dscod_MaturityHeight := height_add (height bn) MaturityDelay |} in
  let bn := append_delayedSiacoinOutputDiff dscod bn in
  let cs := commitDelayedSiacoinOutputDiff dscod DiffApply cs in
  Ok (cs, bn).

Definition applyMinerPayouts (DEBUG : bool) (s : State) : Result State :=
  for_range (applyMinerPayout DEBUG) 0 (MinerPayouts (block s.2)) s.

(** One iteration of the loop of [applyMaturedSiacoinOutputs]. *)
Definition applyMaturedSiacoinOutput (DEBUG : bool) (_ : N)
    (e : SiacoinOutputID * SiacoinOutput) (s : State) : Result State :=
  let '(dscoid, dsco) := e in
  let '(cs, bn) := s in
  _ ← (if DEBUG then
         panic_if (bool_decide (is_Some (siacoinOutputs cs !! dscoid)))
              errOutputAlreadyMature
       else Ok tt);
  let scod := {| scod_Direction := DiffApply;
                 scod_ID := dscoid;
                 scod_SiacoinOutput := dsco |} in
  let bn := append_siacoinOutputDiff scod bn in
  let cs := commitSiacoinOutputDiff scod DiffApply cs in
  let dscod := {| dscod_Direction := DiffRevert;
                  dscod_ID := dscoid;
                  dscod_SiacoinOutput := dsco;
                  dscod_MaturityHeight := height bn |} in
  let bn := append_delayedSiacoinOutputDiff dscod bn in
  let cs := commitDelayedSiacoinOutputDiff dscod DiffApply cs in
  Ok (cs, bn).

(** The end of [applyMaturedSiacoinOutputs]: the emptiness check and the
    deletion of the bucket. *)
Definition deleteMaturedBucket (DEBUG : bool) (s : State) : Result State :=
  let '(cs, bn) := s in
  _ ← (if DEBUG then
         panic_if (negb (size (bucket cs (height bn)) =? 0)%nat)
              (panicString "deleting non-empty map")
       else Ok tt);
  Ok (set_delayedSiacoinOutputs (delete (height bn)) cs, bn).

(** [order] is the order in which [range] visits
    [cs.delayedSiacoinOutputs[bn.height]].  The loop body deletes from that
    map only the entry it is visiting, so every entry present when the
    loop starts is visited. *)
Definition applyMaturedSiacoinOutputs (DEBUG : bool)
    (order : list (SiacoinOutputID * SiacoinOutput)) (s : State) : Result State :=
  if negb (MaturityDelay <? height s.2) then Ok s
  else
    s ← for_range (applyMaturedSiacoinOutput DEBUG) 0 order s;
    deleteMaturedBucket DEBUG s.

(** One iteration of the loop of [applyMissedStorageProof]; [fcid] is the
    argument of the enclosing function. *)
Definition applyMissedProofOutput (DEBUG : bool) (fcid : FileContractID) (i : N)
    (mpo : SiacoinOutput) (s : State) : Result State :=
  let '(cs, bn) := s in
  let spoid := StorageProofOutputID fcid ProofMissed i in
  _ ← (if DEBUG then
         _ ← panic_if (bool_decide (is_Some
                (bucket cs (height_add (height bn) MaturityDelay) !! spoid)))
              errPayoutsAlreadyPaid;
         panic_if (bool_decide (is_Some (siacoinOutputs cs !! spoid)))
              errPayoutsAlreadyPaid
       else Ok tt);
  let dscod := {| dscod_Direction := DiffApply;
                  dscod_ID := spoid;
                  dscod_SiacoinOutput := mpo;
                  dscod_MaturityHeight := height_add (height bn) MaturityDelay |} in
  let bn := append_delayedSiacoinOutputDiff dscod bn in
  let cs := commitDelayedSiacoinOutputDiff dscod DiffApply cs in
  Ok (cs, bn).

Definition applyMissedStorageProof (DEBUG : bool) (fcid : FileContractID)
    (s : State) : Result State :=
  let '(cs, bn) := s in
  let fc := default zeroFileContract (fileContracts cs !! fcid) in
  let exists_ := bool_decide (is_Some (fileContracts cs !! fcid)) in
  _ ← (if DEBUG then
         _ ← panic_if (negb exists_) errMissingFileContract;
         panic_if (negb (WindowEnd fc =? height bn)) errStorageProofTiming
       else Ok tt);
  '(cs, bn) ← for_range (applyMissedProofOutput DEBUG fcid) 0 (MissedProofOutputs fc) (cs, bn);
  let cs := set_fileContracts (delete fcid) cs in
  let bn := append_fileContractDiff
              {| fcd_Direction := DiffRevert; fcd_ID := fcid; fcd_FileContract := fc |} bn in
  Ok (cs, bn).

(** One iteration of the first loop of [applyFileContractMaintenance]; the
    loop state is the machine state together with the local slice
    [expiredFileContracts]. *)
Definition scanFileContract (DEBUG : bool) (_ : N) (e : FileContractID * FileContract)
    (st : State * list FileContractID) : Result (State * list FileContractID) :=
  let '(id, fc) := e in
  let '((cs, bn), expiredFileContracts) := st in
  let expiredFileContracts :=
    if WindowEnd fc =? height bn then expiredFileContracts ++ [id]
    else expiredFileContracts in
  _ ← (if DEBUG then
         panic_if (WindowEnd fc <? height bn)
              (panicString "an expiring file contract was missed somehow")
       else Ok tt);
  Ok ((cs, bn), expiredFileContracts).

(** [order] is the order in which [range] visits [cs.fileContracts]. *)
Definition applyFileContractMaintenance (DEBUG : bool)
    (order : list (FileContractID * FileContract)) (s : State) : Result State :=
  '(s, expiredFileContracts) ← for_range (scanFileContract DEBUG) 0 order (s, []);
  for_range (λ _ id s, applyMissedStorageProof DEBUG id s) 0 expiredFileContracts s.

Definition applyMaintenance (DEBUG : bool)
    (dorder : list (SiacoinOutputID * SiacoinOutput))
    (forder : list (FileContractID * FileContract)) (s : State) : Result State :=
  s ← applyMinerPayouts DEBUG s;
  s ← applyMaturedSiacoinOutputs DEBUG dorder s;
  applyFileContractMaintenance DEBUG forder s.


(** ** Vocabulary of the statements *)

(** The entries that a loop over a slice hands to its body: every element
    with its position, the first position being [i]. *)
Fixpoint indexed {A : Type} (i : N) (l : list A) : list (N * A) :=
  match l with
  | [] => []
  | x :: l' => (i, x) :: indexed (N.succ i) l'
  end.

(** The identifiers and outputs of the miner payouts of a block. *)
Definition minerPayoutEntries (b : Block) : list (SiacoinOutputID * SiacoinOutput) :=
  (λ e, (MinerPayoutID b e.1, e.2)) <$> indexed 0 (MinerPayouts b).

(** The identifiers and outputs of the missed-proof outputs of a contract. *)
Definition missedProofEntries (e : FileContractID * FileContract)
    : list (SiacoinOutputID * SiacoinOutput) :=
  (λ o, (StorageProofOutputID e.1 ProofMissed o.1, o.2))
    <$> indexed 0 (MissedProofOutputs e.2).

(** The diff that queues the entry [e] at maturity height [T]. *)
Definition payoutDiff (T : BlockHeight) (e : SiacoinOutputID * SiacoinOutput)
    : DelayedSiacoinOutputDiff :=
  {| dscod_Direction := DiffApply; dscod_ID := e.1;
     dscod_SiacoinOutput := e.2; dscod_MaturityHeight := T |}.

(** The two diffs recorded for a matured bucket entry [e]. *)
Definition maturedOutputDiff (e : SiacoinOutputID * SiacoinOutput) : SiacoinOutputDiff :=
  {| scod_Direction := DiffApply; scod_ID := e.1; scod_SiacoinOutput := e.2 |}.

Definition maturedDelayedDiff (H : BlockHeight) (e : SiacoinOutputID * SiacoinOutput)
    : DelayedSiacoinOutputDiff :=
  {| dscod_Direction := DiffRevert; dscod_ID := e.1;
     dscod_SiacoinOutput := e.2; dscod_MaturityHeight := H |}.

(** The diff recorded for a contract [e] that missed its storage proof. *)
Definition missedContractDiff (e : FileContractID * FileContract) : FileContractDiff :=
  {| fcd_Direction := DiffRevert; fcd_ID := e.1; fcd_FileContract := e.2 |}.

(** The visited contracts whose window ends at height [H]. *)
Definition expiredFileContracts (H : BlockHeight)
    (order : list (FileContractID * FileContract)) : list (FileContractID * FileContract) :=
  filter (λ e, WindowEnd e.2 = H) order.

(** Inserting a list of entries into a map, first to last. *)
Definition insert_all {V : Type} (items : list (N * V)) (m : gmap N V) : gmap N V :=
  foldl (λ m e, <[e.1 := e.2]> m) m items.

(** Deleting a list of keys from a map, first to last. *)
Definition delete_all {V : Type} (ks : list N) (m : gmap N V) : gmap N V :=
  foldl (λ m k, delete k m) m ks.

(** Committing a list of diffs in direction [DiffApply], first to last. *)
Definition applyDelayedSiacoinOutputDiffs (ds : list DelayedSiacoinOutputDiff)
    (cs : ConsensusSet) : ConsensusSet :=
  foldl (λ cs d, commitDelayedSiacoinOutputDiff d DiffApply cs) cs ds.

(** The block node with [ds] appended to its delayed-output log. *)
Definition extend_delayedSiacoinOutputDiffs (ds : list DelayedSiacoinOutputDiff)
    (bn : blockNode) : blockNode :=
  {| block := block bn; height := height bn;
     siacoinOutputDiffs := siacoinOutputDiffs bn;
     fileContractDiffs := fileContractDiffs bn;
     delayedSiacoinOutputDiffs := delayedSiacoinOutputDiffs bn ++ ds |}.

(** The common shape of the bodies of the two loops that queue delayed
    outputs: the checks, the diff, the commit. *)
Definition delayedPayout (DEBUG : bool) (T : BlockHeight) (idf : N → SiacoinOutputID)
    (i : N) (x : SiacoinOutput) (s : State) : Result State :=
  let '(cs, bn) := s in
  _ ← (if DEBUG then
         _ ← panic_if (bool_decide (is_Some (bucket cs T !! idf i))) errPayoutsAlreadyPaid;
         panic_if (bool_decide (is_Some (siacoinOutputs cs !! idf i))) errPayoutsAlreadyPaid
       else Ok tt);
  Ok (commitDelayedSiacoinOutputDiff (payoutDiff T (idf i, x)) DiffApply cs,
      append_delayedSiacoinOutputDiff (payoutDiff T (idf i, x)) bn).

(** [bn'] is [bn] with the three lists appended to its three logs. *)
Definition logs_extended (bn bn' : blockNode) (sds : list SiacoinOutputDiff)
    (dds : list DelayedSiacoinOutputDiff) (fds : list FileContractDiff) : Prop :=
  block bn' = block bn ∧ height bn' = height bn ∧
  siacoinOutputDiffs bn' = siacoinOutputDiffs bn ++ sds ∧
  delayedSiacoinOutputDiffs bn' = delayedSiacoinOutputDiffs bn ++ dds ∧
  fileContractDiffs bn' = fileContractDiffs bn ++ fds.

(** No identifier is both a mature output and a delayed output. *)
Definition mature_delayed_disjoint (cs : ConsensusSet) : Prop :=
  ∀ id h, is_Some (siacoinOutputs cs !! id) → bucket cs h !! id = None.

(** No identifier of the bucket at [H] is in another bucket. *)
Definition bucket_exclusive (cs : ConsensusSet) (H : BlockHeight) : Prop :=
  ∀ id h, h ≠ H → is_Some (bucket cs H !! id) → bucket cs h !! id = None.

(** No miner payout identifier of the block is in a bucket other than
    the one it is queued in. *)
Definition payouts_exclusive (cs : ConsensusSet) (bn : blockNode) : Prop :=
  ∀ e h, e ∈ minerPayoutEntries (block bn) →
    h ≠ height_add (height bn) MaturityDelay → bucket cs h !! e.1 = None.

(** Two consensus sets with the same mature outputs, the same contents of
    every delayed bucket and the same contracts. *)
Definition same_contents (cs1 cs2 : ConsensusSet) : Prop :=
  siacoinOutputs cs1 = siacoinOutputs cs2 ∧
  (∀ h, bucket cs1 h = bucket cs2 h) ∧
  fileContracts cs1 = fileContracts cs2.

(** [dorder] and [forder] are orders in which the two map loops of a
    maintenance pass started in [s] may visit their maps. *)
Definition maintenance_orders (DEBUG : bool)
    (dorder : list (SiacoinOutputID * SiacoinOutput))
    (forder : list (FileContractID * FileContract)) (s : State) : Prop :=
  ∀ s1, applyMinerPayouts DEBUG s = Ok s1 →
    map_range (bucket s1.1 (height s1.2)) dorder ∧
    ∀ s2, applyMaturedSiacoinOutputs DEBUG dorder s1 = Ok s2 →
      map_range (fileContracts s2.1) forder.

(** ** The contract set under observation

    The order in which [applyFileContractMaintenance] reads and writes
    [cs.fileContracts] is not visible in the state it returns.  The
    functions below are the same code with one more component threaded
    through it: the list of the accesses to [cs.fileContracts] made so far.
    The [range] over the map records every entry it hands out and its end,
    the [delete] records its key. *)

Inductive ContractSetEvent :=
  | RangeNext (id : FileContractID)
  | RangeEnd
  | MapDelete (id : FileContractID).

(** [delete(cs.fileContracts, fcid)], recorded. *)
Definition delete_fileContract (fcid : FileContractID)
    (cs : ConsensusSet) (tr : list ContractSetEvent)
    : ConsensusSet * list ContractSetEvent :=
  (set_fileContracts (delete fcid) cs, tr ++ [MapDelete fcid]).

(** [applyMissedStorageProof] with the accesses recorded. *)
Definition applyMissedStorageProof_observed (DEBUG : bool) (fcid : FileContractID)
    (st : State * list ContractSetEvent) : Result (State * list ContractSetEvent) :=
  let '((cs, bn), tr) := st in
  let fc := default zeroFileContract (fileContracts cs !! fcid) in
  let exists_ := bool_decide (is_Some (fileContracts cs !! fcid)) in
  _ ← (if DEBUG then
         _ ← panic_if (negb exists_) errMissingFileContract;
         panic_if (negb (WindowEnd fc =? height bn)) errStorageProofTiming
       else Ok tt);
  '(cs, bn) ← for_range (applyMissedProofOutput DEBUG fcid) 0 (MissedProofOutputs fc) (cs, bn);
  let '(cs, tr) := delete_fileContract fcid cs tr in
  let bn := append_fileContractDiff
              {| fcd_Direction := DiffRevert; fcd_ID := fcid; fcd_FileContract := fc |} bn in
  Ok ((cs, bn), tr).

(** One iteration of the first loop of [applyFileContractMaintenance] with
    the accesses recorded: the [range] hands out the entry [e]. *)
Definition scanFileContract_observed (DEBUG : bool) (_ : N)
    (e : FileContractID * FileContract)
    (st : State * list ContractSetEvent * list FileContractID)
    : Result (State * list ContractSetEvent * list FileContractID) :=
  let '(id, fc) := e in
  let '(((cs, bn), tr), expiredFileContracts) := st in
  let tr := tr ++ [RangeNext id] in
  let expiredFileContracts :=
    if WindowEnd fc =? height bn then expiredFileContracts ++ [id]
    else expiredFileContracts in
  _ ← (if DEBUG then
         panic_if (WindowEnd fc <? height bn)
              (panicString "an expiring file contract was missed somehow")
       else Ok tt);
  Ok (((cs, bn), tr), expiredFileContracts).

(** [applyFileContractMaintenance] with the accesses recorded. *)
Definition applyFileContractMaintenance_observed (DEBUG : bool)
    (order : list (FileContractID * FileContract))
    (st : State * list ContractSetEvent) : Result (State * list ContractSetEvent) :=
  '((s, tr), expiredFileContracts) ←
    for_range (scanFileContract_observed DEBUG) 0 order (st, []);
  let tr := tr ++ [RangeEnd] in
  for_range (λ _ id st, applyMissedStorageProof_observed DEBUG id st) 0
    expiredFileContracts (s, tr).

(** ** The [Result] monad and the loops *)

Local Arguments applyMissedStorageProof_observed : simpl never.
Local Arguments scanFileContract_observed : simpl never.

Local Arguments delayedPayout : simpl never.
Local Arguments applyMinerPayout : simpl never.
Local Arguments applyMaturedSiacoinOutput : simpl never.
Local Arguments deleteMaturedBucket : simpl never.
Local Arguments applyMissedProofOutput : simpl never.
Local Arguments applyMissedStorageProof : simpl never.
Local Arguments scanFileContract : simpl never.

Lemma bind_Ok {A B : Type} (m : Result A) (f : A → Result B) (b : B) :
  m ≫= f = Ok b ↔ ∃ a, m = Ok a ∧ f a = Ok b.
Proof.
  destruct m as [a|e]; simpl; split.
  - intros Hf. by exists a.
  - by intros (a' & [= <-] & Hf).
  - done.
  - by intros (a' & Hm & _).
Qed.

Lemma panic_if_Ok (c : bool) (e : PanicValue) (u : unit) :
  panic_if c e = Ok u ↔ c = false.
Proof. destruct c, u; simpl; split; congruence. Qed.

Lemma for_range_cons {A S : Type} (body : N → A → S → Result S) x l i s :
  for_range body i (x :: l) s = s' ← body i x s; for_range body (N.succ i) l s'.
Proof. done. Qed.

Lemma for_range_app {A S : Type} (body : N → A → S → Result S) l1 l2 i s :
  for_range body i (l1 ++ l2) s =
  s' ← for_range body i l1 s; for_range body (i + N.of_nat (length l1)) l2 s'.
Proof.
  revert i s. induction l1 as [|x l1 IH]; intros i s; simpl.
  - by rewrite N.add_0_r.
  - destruct (body i x s) as [s1|e]; simpl; [|done].
    rewrite IH. do 2 f_equal. lia.
Qed.

Lemma for_range_ext {A S : Type} (P : S → Prop) (b1 b2 : N → A → S → Result S) l i s :
  P s →
  (∀ i x s, P s → b1 i x s = b2 i x s) →
  (∀ i x s s', P s → b2 i x s = Ok s' → P s') →
  for_range b1 i l s = for_range b2 i l s.
Proof.
  intros Hs Heq Hpres. revert i s Hs.
  induction l as [|x l IH]; intros i s Hs; simpl; [done|].
  rewrite Heq by done.
  destruct (b2 i x s) as [s1|e] eqn:Hb; simpl; [|done].
  apply IH. by eapply Hpres.
Qed.

Lemma for_range_mono {A S : Type} (b1 b2 : N → A → S → Result S) l i s s' :
  (∀ i x s s', b1 i x s = Ok s' → b2 i x s = Ok s') →
  for_range b1 i l s = Ok s' → for_range b2 i l s = Ok s'.
Proof.
  intros Hb. revert i s.
  induction l as [|x l IH]; intros i s; simpl; [done|].
  intros (s1 & H1 & H2)%bind_Ok.
  rewrite (Hb _ _ _ _ H1). simpl. by apply IH.
Qed.

Lemma indexed_app {A : Type} (l1 l2 : list A) i :
  indexed i (l1 ++ l2) = indexed i l1 ++ indexed (i + N.of_nat (length l1)) l2.
Proof.
  revert i. induction l1 as [|x l1 IH]; intros i; simpl.
  - by rewrite N.add_0_r.
  - rewrite IH. do 3 f_equal. lia.
Qed.

Lemma indexed_lookup {A : Type} (l : list A) i (n : nat) :
  indexed i l !! n = (λ x, (i + N.of_nat n, x)) <$> l !! n.
Proof.
  revert i n. induction l as [|x l IH]; intros i [|n]; simpl; try done.
  - by rewrite N.add_0_r.
  - rewrite IH. destruct (l !! n); simpl; [|done]. do 2 f_equal. lia.
Qed.

Lemma length_indexed {A : Type} (l : list A) i : length (indexed i l) = length l.
Proof. revert i. induction l as [|x l IH]; intros i; simpl; [done|]. by rewrite IH. Qed.

(** ** Commits seen through the three maps *)

Lemma bucket_commitDelayed d dir cs h :
  bucket (commitDelayedSiacoinOutputDiff d dir cs) h =
  if decide (h = dscod_MaturityHeight d) then
    if decide (dscod_Direction d = dir)
    then <[dscod_ID d := dscod_SiacoinOutput d]> (bucket cs h)
    else delete (dscod_ID d) (bucket cs h)
  else bucket cs h.
Proof.
  unfold commitDelayedSiacoinOutputDiff, bucket.
  destruct (decide (dscod_Direction d = dir)); simpl;
    destruct (decide (h = dscod_MaturityHeight d)) as [->|Hne].
  - by rewrite lookup_insert_eq.
  - by rewrite lookup_insert_ne.
  - rewrite lookup_alter_eq.
    destruct (delayedSiacoinOutputs cs !! dscod_MaturityHeight d); simpl; [done|].
    by rewrite delete_empty.
  - by rewrite lookup_alter_ne.
Qed.

Lemma siacoinOutputs_commitDelayed d dir cs :
  siacoinOutputs (commitDelayedSiacoinOutputDiff d dir cs) = siacoinOutputs cs.
Proof. unfold commitDelayedSiacoinOutputDiff. by case_decide. Qed.

Lemma fileContracts_commitDelayed d dir cs :
  fileContracts (commitDelayedSiacoinOutputDiff d dir cs) = fileContracts cs.
Proof. unfold commitDelayedSiacoinOutputDiff. by case_decide. Qed.

Lemma siacoinOutputs_commitSiacoinOutput d dir cs :
  siacoinOutputs (commitSiacoinOutputDiff d dir cs) =
  if decide (scod_Direction d = dir)
  then <[scod_ID d := scod_SiacoinOutput d]> (siacoinOutputs cs)
  else delete (scod_ID d) (siacoinOutputs cs).
Proof. unfold commitSiacoinOutputDiff. by case_decide. Qed.

Lemma delayed_commitSiacoinOutput d dir cs :
  delayedSiacoinOutputs (commitSiacoinOutputDiff d dir cs) = delayedSiacoinOutputs cs.
Proof. unfold commitSiacoinOutputDiff. by case_decide. Qed.

Lemma bucket_commitSiacoinOutput d dir cs h :
  bucket (commitSiacoinOutputDiff d dir cs) h = bucket cs h.
Proof. unfold bucket. by rewrite delayed_commitSiacoinOutput. Qed.

Lemma fileContracts_commitSiacoinOutput d dir cs :
  fileContracts (commitSiacoinOutputDiff d dir cs) = fileContracts cs.
Proof. unfold commitSiacoinOutputDiff. by case_decide. Qed.

Lemma fileContracts_commitFileContract d dir cs :
  fileContracts (commitFileContractDiff d dir cs) =
  if decide (fcd_Direction d = dir)
  then <[fcd_ID d := fcd_FileContract d]> (fileContracts cs)
  else delete (fcd_ID d) (fileContracts cs).
Proof. unfold commitFileContractDiff. by case_decide. Qed.

Lemma applyDelayed_cons d ds cs :
  applyDelayedSiacoinOutputDiffs (d :: ds) cs =
  applyDelayedSiacoinOutputDiffs ds (commitDelayedSiacoinOutputDiff d DiffApply cs).
Proof. done. Qed.

Lemma applyDelayed_app ds1 ds2 cs :
  applyDelayedSiacoinOutputDiffs (ds1 ++ ds2) cs =
  applyDelayedSiacoinOutputDiffs ds2 (applyDelayedSiacoinOutputDiffs ds1 cs).
Proof. unfold applyDelayedSiacoinOutputDiffs. by rewrite foldl_app. Qed.

Lemma siacoinOutputs_applyDelayed ds cs :
  siacoinOutputs (applyDelayedSiacoinOutputDiffs ds cs) = siacoinOutputs cs.
Proof.
  revert cs. induction ds as [|d ds IH]; intros cs; [done|].
  by rewrite applyDelayed_cons, IH, siacoinOutputs_commitDelayed.
Qed.

Lemma fileContracts_applyDelayed ds cs :
  fileContracts (applyDelayedSiacoinOutputDiffs ds cs) = fileContracts cs.
Proof.
  revert cs. induction ds as [|d ds IH]; intros cs; [done|].
  by rewrite applyDelayed_cons, IH, fileContracts_commitDelayed.
Qed.

(** ** Inserting a list of entries *)

Lemma insert_all_cons {V : Type} (e : N * V) items b :
  insert_all (e :: items) b = insert_all items (<[e.1 := e.2]> b).
Proof. done. Qed.

Lemma insert_all_app {V : Type} (l1 l2 : list (N * V)) b :
  insert_all (l1 ++ l2) b = insert_all l2 (insert_all l1 b).
Proof. unfold insert_all. by rewrite foldl_app. Qed.

Lemma lookup_insert_all_notin {V : Type} (items : list (N * V)) b id :
  id ∉ items.*1 → insert_all items b !! id = b !! id.
Proof.
  revert b. induction items as [|e items IH]; intros b Hid; [done|].
  rewrite fmap_cons, not_elem_of_cons in Hid. destruct Hid as [Hne Hid].
  rewrite insert_all_cons, IH by done. by rewrite lookup_insert_ne.
Qed.

Lemma lookup_insert_all_in {V : Type} (items : list (N * V)) b id :
  id ∈ items.*1 → is_Some (insert_all items b !! id).
Proof.
  revert b. induction items as [|e items IH]; intros b Hid.
  - by apply elem_of_nil in Hid.
  - rewrite insert_all_cons.
    destruct (decide (id ∈ items.*1)) as [Hin|Hnin]; [by apply IH|].
    rewrite lookup_insert_all_notin by done.
    rewrite fmap_cons, elem_of_cons in Hid. destruct Hid as [->|Hin]; [|done].
    rewrite lookup_insert_eq. by eexists.
Qed.

Lemma lookup_insert_all_last {V : Type} (l1 l2 : list (N * V)) b id v :
  id ∉ l2.*1 → insert_all (l1 ++ (id, v) :: l2) b !! id = Some v.
Proof.
  intros Hid. rewrite insert_all_app, insert_all_cons; simpl.
  rewrite lookup_insert_all_notin by done. by rewrite lookup_insert_eq.
Qed.

Lemma lookup_insert_all_NoDup {V : Type} (items : list (N * V)) b id v :
  NoDup items.*1 → (id, v) ∈ items → insert_all items b !! id = Some v.
Proof.
  intros Hnd (l1 & l2 & ->)%list_elem_of_split.
  apply lookup_insert_all_last.
  rewrite fmap_app, fmap_cons in Hnd. simpl in Hnd.
  apply NoDup_app in Hnd as (_ & _ & Hnd). by apply NoDup_cons in Hnd as [? _].
Qed.

Lemma bucket_applyDelayed_payouts T items cs h :
  bucket (applyDelayedSiacoinOutputDiffs (payoutDiff T <$> items) cs) h =
  if decide (h = T) then insert_all items (bucket cs T) else bucket cs h.
Proof.
  revert cs. induction items as [|e items IH]; intros cs.
  - simpl. by case_decide; subst.
  - rewrite fmap_cons, applyDelayed_cons, IH, insert_all_cons.
    rewrite !bucket_commitDelayed. simpl.
    destruct (decide (h = T)) as [->|Hne]; [|done].
    by rewrite decide_True.
Qed.

(** ** The loops that queue delayed outputs *)

Lemma extend_delayed_nil bn : extend_delayedSiacoinOutputDiffs [] bn = bn.
Proof. destruct bn. unfold extend_delayedSiacoinOutputDiffs. simpl. by rewrite app_nil_r. Qed.

Lemma extend_delayed_cons d ds bn :
  extend_delayedSiacoinOutputDiffs (d :: ds) bn =
  extend_delayedSiacoinOutputDiffs ds (append_delayedSiacoinOutputDiff d bn).
Proof.
  unfold extend_delayedSiacoinOutputDiffs, append_delayedSiacoinOutputDiff. simpl.
  by rewrite <- app_assoc.
Qed.

Lemma extend_delayed_app ds1 ds2 bn :
  extend_delayedSiacoinOutputDiffs (ds1 ++ ds2) bn =
  extend_delayedSiacoinOutputDiffs ds2 (extend_delayedSiacoinOutputDiffs ds1 bn).
Proof.
  unfold extend_delayedSiacoinOutputDiffs. simpl. by rewrite app_assoc.
Qed.

Lemma delayedPayout_Ok dbg T idf i x cs bn s' :
  delayedPayout dbg T idf i x (cs, bn) = Ok s' →
  s' = (commitDelayedSiacoinOutputDiff (payoutDiff T (idf i, x)) DiffApply cs,
        append_delayedSiacoinOutputDiff (payoutDiff T (idf i, x)) bn) ∧
  (dbg = true → bucket cs T !! idf i = None ∧ siacoinOutputs cs !! idf i = None).
Proof.
  unfold delayedPayout. intros (u & Hchk & [= <-])%bind_Ok. split; [done|].
  intros ->. apply bind_Ok in Hchk as (u' & H1 & H2).
  apply panic_if_Ok, bool_decide_eq_false in H1.
  apply panic_if_Ok, bool_decide_eq_false in H2.
  by rewrite !eq_None_not_Some.
Qed.

Lemma delayedPayout_nodebug T idf i x cs bn :
  delayedPayout false T idf i x (cs, bn) =
  Ok (commitDelayedSiacoinOutputDiff (payoutDiff T (idf i, x)) DiffApply cs,
      append_delayedSiacoinOutputDiff (payoutDiff T (idf i, x)) bn).
Proof. done. Qed.

Lemma delayedPayout_loop dbg T idf l i cs bn cs' bn' :
  for_range (delayedPayout dbg T idf) i l (cs, bn) = Ok (cs', bn') →
  cs' = applyDelayedSiacoinOutputDiffs
          (payoutDiff T <$> ((λ e, (idf e.1, e.2)) <$> indexed i l)) cs ∧
  bn' = extend_delayedSiacoinOutputDiffs
          (payoutDiff T <$> ((λ e, (idf e.1, e.2)) <$> indexed i l)) bn.
Proof.
  revert i cs bn. induction l as [|x l IH]; intros i cs bn; simpl.
  - intros [= <- <-]. by rewrite extend_delayed_nil.
  - intros (s1 & H1 & H2)%bind_Ok.
    apply delayedPayout_Ok in H1 as [-> _].
    apply IH in H2 as [-> ->]. by rewrite extend_delayed_cons.
Qed.

Lemma delayedPayout_loop_nodebug T idf l i cs bn :
  for_range (delayedPayout false T idf) i l (cs, bn) =
  Ok (applyDelayedSiacoinOutputDiffs
        (payoutDiff T <$> ((λ e, (idf e.1, e.2)) <$> indexed i l)) cs,
      extend_delayedSiacoinOutputDiffs
        (payoutDiff T <$> ((λ e, (idf e.1, e.2)) <$> indexed i l)) bn).
Proof.
  revert i cs bn. induction l as [|x l IH]; intros i cs bn; simpl.
  - by rewrite extend_delayed_nil.
  - rewrite IH. by rewrite extend_delayed_cons.
Qed.

Lemma delayedPayout_loop_fresh T idf l i cs bn s' :
  for_range (delayedPayout true T idf) i l (cs, bn) = Ok s' →
  NoDup ((λ e, (idf e.1, e.2)) <$> indexed i l).*1 ∧
  ∀ id, id ∈ ((λ e, (idf e.1, e.2)) <$> indexed i l).*1 →
    bucket cs T !! id = None ∧ siacoinOutputs cs !! id = None.
Proof.
  revert i cs bn. induction l as [|x l IH]; intros i cs bn; simpl.
  - intros _. split; [constructor|]. intros id Hid. by apply elem_of_nil in Hid.
  - intros (s1 & H1 & H2)%bind_Ok.
    apply delayedPayout_Ok in H1 as [-> Hfresh].
    destruct (Hfresh eq_refl) as [Hb Hs].
    apply IH in H2 as [Hnd Hrest].
    assert (Hrest' : ∀ id, id ∈ ((λ e, (idf e.1, e.2)) <$> indexed (N.succ i) l).*1 →
              id ≠ idf i ∧ bucket cs T !! id = None ∧ siacoinOutputs cs !! id = None).
    { intros id Hid. destruct (Hrest id Hid) as [Hb' Hs'].
      rewrite bucket_commitDelayed in Hb'. simpl in Hb'.
      rewrite decide_True in Hb' by done.
      rewrite siacoinOutputs_commitDelayed in Hs'.
      apply lookup_insert_None in Hb' as [Hb' Hne]. done. }
    split.
    + apply NoDup_cons. split; [|done].
      intros Hin. by destruct (Hrest' _ Hin) as [? _].
    + intros id [->|Hin]%elem_of_cons; [done|].
      by destruct (Hrest' _ Hin) as (_ & ? & ?).
Qed.

Lemma delayedPayout_loop_Panic dbg T idf l i s e :
  for_range (delayedPayout dbg T idf) i l s = Panic e → e = errPayoutsAlreadyPaid.
Proof.
  revert i s. induction l as [|x l IH]; intros i [cs bn]; simpl; [done|].
  destruct (delayedPayout dbg T idf i x (cs, bn)) as [s1|e1] eqn:Hb; simpl.
  - apply IH.
  - intros [= <-]. unfold delayedPayout in Hb.
    destruct dbg; simpl in Hb; [|done].
    unfold panic_if in Hb. repeat case_bool_decide; simpl in Hb; congruence.
Qed.

Lemma delayedPayout_mono T idf i x s s' :
  delayedPayout true T idf i x s = Ok s' → delayedPayout false T idf i x s = Ok s'.
Proof.
  destruct s as [cs bn]. intros [-> _]%delayedPayout_Ok. done.
Qed.

Lemma applyMinerPayouts_delayedPayout dbg cs bn :
  applyMinerPayouts dbg (cs, bn) =
  for_range (delayedPayout dbg (height_add (height bn) MaturityDelay)
               (MinerPayoutID (block bn))) 0 (MinerPayouts (block bn)) (cs, bn).
Proof.
  unfold applyMinerPayouts. simpl.
  apply (for_range_ext (λ s, height s.2 = height bn ∧ block s.2 = block bn)).
  - done.
  - intros i x [cs1 bn1] [Hh Hb]. simpl in *.
    unfold applyMinerPayout, delayedPayout. by rewrite Hh, Hb.
  - intros i x [cs1 bn1] s' [Hh Hb] [-> _]%delayedPayout_Ok. done.
Qed.

(** ** Deleting a list of keys *)

Lemma delete_all_cons {V : Type} k ks (m : gmap N V) :
  delete_all (k :: ks) m = delete_all ks (delete k m).
Proof. done. Qed.

Lemma lookup_delete_all {V : Type} ks (m : gmap N V) id :
  delete_all ks m !! id = if decide (id ∈ ks) then None else m !! id.
Proof.
  revert m. induction ks as [|k ks IH]; intros m.
  - rewrite decide_False; [done|]. apply not_elem_of_nil.
  - rewrite delete_all_cons, IH.
    destruct (decide (id ∈ ks)) as [Hin|Hnin].
    + rewrite decide_True; [done|]. by right.
    + destruct (decide (id = k)) as [->|Hne].
      * rewrite decide_True by left. apply lookup_delete_eq.
      * rewrite decide_False by (by intros [?|?]%elem_of_cons).
        by apply lookup_delete_ne.
Qed.

Lemma delete_all_insert_all {V : Type} (items : list (N * V)) ks (m : gmap N V) :
  (∀ id, id ∈ ks ↔ id ∈ items.*1) →
  (∀ id, id ∈ items.*1 → m !! id = None) →
  delete_all ks (insert_all items m) = m.
Proof.
  intros Hks Hfresh. apply map_eq. intros id. rewrite lookup_delete_all.
  destruct (decide (id ∈ ks)) as [Hin|Hnin].
  - symmetry. by apply Hfresh, Hks.
  - apply lookup_insert_all_notin. by rewrite <- Hks.
Qed.

Lemma insert_all_map_to_list {V : Type} (l : list (N * V)) (m : gmap N V) :
  l ≡ₚ map_to_list m → insert_all l ∅ = m.
Proof.
  intros Hl. apply map_eq. intros id.
  assert (Hnd : NoDup l.*1).
  { rewrite Hl. apply NoDup_fst_map_to_list. }
  destruct (m !! id) as [v|] eqn:Hm.
  - apply lookup_insert_all_NoDup; [done|].
    rewrite Hl. by apply elem_of_map_to_list.
  - rewrite lookup_insert_all_notin; [done|].
    intros ([id' v] & -> & Hin)%list_elem_of_fmap. simpl in Hm.
    rewrite Hl in Hin. apply elem_of_map_to_list in Hin. congruence.
Qed.

Lemma delete_all_map_to_list {V : Type} (l : list (N * V)) (m : gmap N V) :
  l ≡ₚ map_to_list m → delete_all l.*1 m = ∅.
Proof.
  intros Hl. apply map_eq. intros id. rewrite lookup_delete_all, lookup_empty.
  case_decide as Hin; [done|].
  destruct (m !! id) as [v|] eqn:Hm; [|done].
  exfalso. apply Hin. apply list_elem_of_fmap. exists (id, v). split; [done|].
  rewrite Hl. by apply elem_of_map_to_list.
Qed.

(** ** Extending the logs *)

Lemma logs_extended_refl bn : logs_extended bn bn [] [] [].
Proof. unfold logs_extended. by rewrite !app_nil_r. Qed.

Lemma logs_extended_trans bn1 bn2 bn3 a b c a' b' c' :
  logs_extended bn1 bn2 a b c → logs_extended bn2 bn3 a' b' c' →
  logs_extended bn1 bn3 (a ++ a') (b ++ b') (c ++ c').
Proof.
  intros (? & ? & ? & ? & ?) (Hb & Hh & Hs & Hd & Hf). unfold logs_extended.
  rewrite Hb, Hh, Hs, Hd, Hf, !app_assoc. by repeat split; congruence.
Qed.

Lemma logs_extended_delayed bn ds :
  logs_extended bn (extend_delayedSiacoinOutputDiffs ds bn) [] ds [].
Proof. unfold logs_extended. simpl. by rewrite !app_nil_r. Qed.

(** ** The loop that moves matured outputs *)

Lemma applyMaturedSiacoinOutput_Ok dbg i e cs bn s' :
  applyMaturedSiacoinOutput dbg i e (cs, bn) = Ok s' →
  s' = (commitDelayedSiacoinOutputDiff (maturedDelayedDiff (height bn) e) DiffApply
          (commitSiacoinOutputDiff (maturedOutputDiff e) DiffApply cs),
        append_delayedSiacoinOutputDiff (maturedDelayedDiff (height bn) e)
          (append_siacoinOutputDiff (maturedOutputDiff e) bn)) ∧
  (dbg = true → siacoinOutputs cs !! e.1 = None).
Proof.
  unfold applyMaturedSiacoinOutput. destruct e as [id v].
  intros (u & Hchk & [= <-])%bind_Ok. split; [done|].
  intros ->. apply panic_if_Ok, bool_decide_eq_false in Hchk.
  by rewrite eq_None_not_Some.
Qed.

Lemma applyMaturedSiacoinOutput_nodebug i e cs bn :
  applyMaturedSiacoinOutput false i e (cs, bn) =
  Ok (commitDelayedSiacoinOutputDiff (maturedDelayedDiff (height bn) e) DiffApply
        (commitSiacoinOutputDiff (maturedOutputDiff e) DiffApply cs),
      append_delayedSiacoinOutputDiff (maturedDelayedDiff (height bn) e)
        (append_siacoinOutputDiff (maturedOutputDiff e) bn)).
Proof. by destruct e. Qed.

Lemma matured_loop dbg l i cs bn cs' bn' :
  for_range (applyMaturedSiacoinOutput dbg) i l (cs, bn) = Ok (cs', bn') →
  siacoinOutputs cs' = insert_all l (siacoinOutputs cs) ∧
  (∀ h, bucket cs' h =
        if decide (h = height bn) then delete_all l.*1 (bucket cs h) else bucket cs h) ∧
  fileContracts cs' = fileContracts cs ∧
  logs_extended bn bn' (maturedOutputDiff <$> l)
    (maturedDelayedDiff (height bn) <$> l) [] ∧
  (dbg = true → ∀ id, id ∈ l.*1 → siacoinOutputs cs !! id = None).
Proof.
  revert i cs bn. induction l as [|e l IH]; intros i cs bn.
  - intros [= <- <-]. split_and!; try done.
    + intros h. by case_decide.
    + apply logs_extended_refl.
    + intros _ id Hid. by apply elem_of_nil in Hid.
  - rewrite for_range_cons. intros (s1 & H1 & H2)%bind_Ok.
    apply applyMaturedSiacoinOutput_Ok in H1 as [-> Hfresh].
    apply IH in H2 as (Hs & Hb & Hf & Hl & Hfr).
    rewrite siacoinOutputs_commitDelayed, siacoinOutputs_commitSiacoinOutput in Hs.
    rewrite fileContracts_commitDelayed, fileContracts_commitSiacoinOutput in Hf.
    simpl in Hs. split_and!; try done.
    + intros h. rewrite Hb, fmap_cons, delete_all_cons.
      rewrite bucket_commitDelayed, bucket_commitSiacoinOutput.
      simpl. by case_decide.
    + destruct Hl as (Hlb & Hlh & Hls & Hld & Hlf). unfold logs_extended.
      simpl in *. rewrite Hls, Hld, Hlf, <- !app_assoc. done.
    + intros -> id [->|Hin]%elem_of_cons; [by apply Hfresh|].
      specialize (Hfr eq_refl id Hin).
      rewrite siacoinOutputs_commitDelayed, siacoinOutputs_commitSiacoinOutput in Hfr.
      simpl in Hfr. by apply lookup_insert_None in Hfr as [? _].
Qed.

Lemma matured_loop_nodebug l i s :
  ∃ s', for_range (applyMaturedSiacoinOutput false) i l s = Ok s'.
Proof.
  revert i s. induction l as [|e l IH]; intros i [cs bn]; simpl; [by eexists|].
  rewrite applyMaturedSiacoinOutput_nodebug. simpl. apply IH.
Qed.

Lemma matured_loop_Panic dbg l i s e :
  for_range (applyMaturedSiacoinOutput dbg) i l s = Panic e → e = errOutputAlreadyMature.
Proof.
  revert i s. induction l as [|x l IH]; intros i [cs bn]; simpl; [done|].
  destruct (applyMaturedSiacoinOutput dbg i x (cs, bn)) as [s1|e1] eqn:Hb; simpl.
  - apply IH.
  - intros [= <-]. unfold applyMaturedSiacoinOutput in Hb. destruct x as [id v].
    destruct dbg; simpl in Hb; [|done].
    unfold panic_if in Hb. case_bool_decide; simpl in Hb; congruence.
Qed.

Lemma deleteMaturedBucket_Ok dbg cs bn s' :
  deleteMaturedBucket dbg (cs, bn) = Ok s' →
  s' = (set_delayedSiacoinOutputs (delete (height bn)) cs, bn).
Proof. unfold deleteMaturedBucket. by intros (u & _ & [= <-])%bind_Ok. Qed.

Lemma bucket_delete_bucket cs H h :
  bucket (set_delayedSiacoinOutputs (delete H) cs) h =
  if decide (h = H) then ∅ else bucket cs h.
Proof.
  unfold bucket. simpl. case_decide as Hh.
  - subst. by rewrite lookup_delete_eq.
  - by rewrite lookup_delete_ne.
Qed.

(** What a returning run of [applyMaturedSiacoinOutputs] did, above the
    maturity delay. *)
Lemma applyMaturedSiacoinOutputs_Ok dbg l cs bn cs' bn' :
  MaturityDelay < height bn →
  applyMaturedSiacoinOutputs dbg l (cs, bn) = Ok (cs', bn') →
  siacoinOutputs cs' = insert_all l (siacoinOutputs cs) ∧
  delayedSiacoinOutputs cs' !! height bn = None ∧
  (∀ h, bucket cs' h = if decide (h = height bn) then ∅ else bucket cs h) ∧
  fileContracts cs' = fileContracts cs ∧
  logs_extended bn bn' (maturedOutputDiff <$> l)
    (maturedDelayedDiff (height bn) <$> l) [] ∧
  (dbg = true → ∀ id, id ∈ l.*1 → siacoinOutputs cs !! id = None).
Proof.
  intros HH. unfold applyMaturedSiacoinOutputs. simpl.
  apply N.ltb_lt in HH. rewrite HH. simpl.
  intros ([cs1 bn1] & H1 & H2)%bind_Ok.
  apply matured_loop in H1 as (Hs & Hb & Hf & Hl & Hfr).
  apply deleteMaturedBucket_Ok in H2 as [= -> ->].
  assert (Hh : height bn1 = height bn) by (by destruct Hl as (_ & ? & _)).
  split_and!; try done.
  - simpl. rewrite Hh. apply lookup_delete_eq.
  - intros h. rewrite bucket_delete_bucket, Hh, Hb. by case_decide.
Qed.

Lemma applyMaturedSiacoinOutputs_early dbg l s :
  height s.2 ≤ MaturityDelay → applyMaturedSiacoinOutputs dbg l s = Ok s.
Proof.
  intros HH. unfold applyMaturedSiacoinOutputs.
  apply N.ltb_ge in HH. by rewrite HH.
Qed.

Lemma applyMaturedSiacoinOutputs_nodebug l s :
  ∃ s', applyMaturedSiacoinOutputs false l s = Ok s'.
Proof.
  unfold applyMaturedSiacoinOutputs. destruct (negb _); [by eexists|].
  destruct (matured_loop_nodebug l 0 s) as [[cs1 bn1] ->]. simpl. by eexists.
Qed.

(** ** The scan of the contract set *)

Lemma scanFileContract_Ok dbg i e s acc st :
  scanFileContract dbg i e (s, acc) = Ok st →
  st = (s, acc ++ (expiredFileContracts (height s.2) [e]).*1) ∧
  (dbg = true → height s.2 ≤ WindowEnd e.2).
Proof.
  unfold scanFileContract. destruct e as [id fc], s as [cs bn]. simpl.
  intros (u & Hchk & [= <-])%bind_Ok. split.
  - unfold expiredFileContracts. rewrite filter_cons, filter_nil. simpl.
    destruct (N.eqb_spec (WindowEnd fc) (height bn)) as [Heq|Hne].
    + by rewrite decide_True.
    + rewrite decide_False by done. by rewrite app_nil_r.
  - intros ->. apply panic_if_Ok in Hchk. by apply N.ltb_ge in Hchk.
Qed.

Lemma expiredFileContracts_cons H e l :
  expiredFileContracts H (e :: l) =
  expiredFileContracts H [e] ++ expiredFileContracts H l.
Proof.
  unfold expiredFileContracts. rewrite !filter_cons, filter_nil.
  by case_decide.
Qed.

Lemma scan_loop dbg l i s acc st :
  for_range (scanFileContract dbg) i l (s, acc) = Ok st →
  st = (s, acc ++ (expiredFileContracts (height s.2) l).*1) ∧
  (dbg = true → ∀ e, e ∈ l → height s.2 ≤ WindowEnd e.2).
Proof.
  revert i acc. induction l as [|e l IH]; intros i acc.
  - intros [= <-]. split; [by rewrite app_nil_r|].
    intros _ e He. by apply elem_of_nil in He.
  - rewrite for_range_cons. intros (st1 & H1 & H2)%bind_Ok.
    apply scanFileContract_Ok in H1 as [-> Hchk].
    apply IH in H2 as [-> Hrest]. split.
    + by rewrite (expiredFileContracts_cons _ e l), fmap_app, app_assoc.
    + intros Hd e' [->|Hin]%elem_of_cons; [by apply Hchk|by apply Hrest].
Qed.

Lemma scan_loop_nodebug l i s acc :
  for_range (scanFileContract false) i l (s, acc) =
  Ok (s, acc ++ (expiredFileContracts (height s.2) l).*1).
Proof.
  revert i acc. induction l as [|e l IH]; intros i acc.
  - simpl. by rewrite app_nil_r.
  - rewrite for_range_cons.
    destruct (scanFileContract false i e (s, acc)) as [st1|err] eqn:Hb.
    + apply scanFileContract_Ok in Hb as [-> _]. simpl. rewrite IH.
      by rewrite (expiredFileContracts_cons _ e l), fmap_app, app_assoc.
    + by destruct e, s.
Qed.

Lemma scan_loop_Panic dbg l i st e :
  for_range (scanFileContract dbg) i l st = Panic e →
  e = panicString "an expiring file contract was missed somehow".
Proof.
  revert i st. induction l as [|x l IH]; intros i [[cs bn] acc]; [done|].
  rewrite for_range_cons.
  destruct (scanFileContract dbg i x (cs, bn, acc)) as [s1|e1] eqn:Hb; simpl.
  - apply IH.
  - intros [= <-]. unfold scanFileContract in Hb. destruct x as [id fc].
    destruct dbg; simpl in Hb; [|done].
    unfold panic_if in Hb. destruct (_ <? _); simpl in Hb; congruence.
Qed.

(** ** The missed storage proofs *)

Lemma applyMissedProofOutput_delayedPayout dbg fcid l i cs bn :
  for_range (applyMissedProofOutput dbg fcid) i l (cs, bn) =
  for_range (delayedPayout dbg (height_add (height bn) MaturityDelay)
               (StorageProofOutputID fcid ProofMissed)) i l (cs, bn).
Proof.
  apply (for_range_ext (λ s, height s.2 = height bn)).
  - done.
  - intros j x [cs1 bn1] Hh. simpl in *.
    unfold applyMissedProofOutput, delayedPayout. by rewrite Hh.
  - intros j x [cs1 bn1] s' Hh [-> _]%delayedPayout_Ok. done.
Qed.

Lemma applyMissedStorageProof_Ok dbg fcid cs bn cs' bn' :
  applyMissedStorageProof dbg fcid (cs, bn) = Ok (cs', bn') →
  let fc := default zeroFileContract (fileContracts cs !! fcid) in
  let T := height_add (height bn) MaturityDelay in
  let E := missedProofEntries (fcid, fc) in
  cs' = set_fileContracts (delete fcid)
          (applyDelayedSiacoinOutputDiffs (payoutDiff T <$> E) cs) ∧
  logs_extended bn bn' [] (payoutDiff T <$> E) [missedContractDiff (fcid, fc)] ∧
  (dbg = true →
     is_Some (fileContracts cs !! fcid) ∧ WindowEnd fc = height bn ∧
     NoDup E.*1 ∧
     ∀ id, id ∈ E.*1 → bucket cs T !! id = None ∧ siacoinOutputs cs !! id = None).
Proof.
  unfold applyMissedStorageProof. intros (u & Hchk & Hrest)%bind_Ok.
  apply bind_Ok in Hrest as ([cs1 bn1] & Hloop & [= <- <-]).
  rewrite applyMissedProofOutput_delayedPayout in Hloop.
  pose proof Hloop as Hloop'.
  apply delayedPayout_loop in Hloop as [-> ->]. simpl. split_and!; [done|..].
  - unfold logs_extended. simpl. by rewrite !app_nil_r.
  - intros ->. apply bind_Ok in Hchk as (u' & H1 & H2).
    apply panic_if_Ok, negb_false_iff, bool_decide_eq_true in H1.
    apply panic_if_Ok, negb_false_iff, N.eqb_eq in H2.
    apply delayedPayout_loop_fresh in Hloop' as [Hnd Hfr]. done.
Qed.

Lemma applyMissedStorageProof_nodebug fcid s :
  ∃ s', applyMissedStorageProof false fcid s = Ok s'.
Proof.
  destruct s as [cs bn]. unfold applyMissedStorageProof. simpl.
  rewrite applyMissedProofOutput_delayedPayout, delayedPayout_loop_nodebug.
  simpl. by eexists.
Qed.

Lemma bucket_set_fileContracts f cs h : bucket (set_fileContracts f cs) h = bucket cs h.
Proof. done. Qed.

Lemma missed_loop dbg es i cs bn cs' bn' :
  NoDup es.*1 →
  (∀ e, e ∈ es → fileContracts cs !! e.1 = Some e.2) →
  for_range (λ _ id s, applyMissedStorageProof dbg id s) i es.*1 (cs, bn)
    = Ok (cs', bn') →
  let T := height_add (height bn) MaturityDelay in
  let M := es ≫= missedProofEntries in
  siacoinOutputs cs' = siacoinOutputs cs ∧
  (∀ h, bucket cs' h =
        if decide (h = T) then insert_all M (bucket cs T) else bucket cs h) ∧
  fileContracts cs' = delete_all es.*1 (fileContracts cs) ∧
  logs_extended bn bn' [] (payoutDiff T <$> M) (missedContractDiff <$> es) ∧
  (dbg = true →
     NoDup M.*1 ∧
     (∀ id, id ∈ M.*1 → bucket cs T !! id = None ∧ siacoinOutputs cs !! id = None) ∧
     ∀ e, e ∈ es → WindowEnd e.2 = height bn).
Proof.
  revert i cs bn. induction es as [|e es IH]; intros i cs bn Hnd Hes.
  - intros [= <- <-]. simpl. split_and!; try done.
    + intros h. by case_decide; subst.
    + apply logs_extended_refl.
    + intros _. split_and!; [constructor|..].
      * intros id Hid. by apply elem_of_nil in Hid.
      * intros e He. by apply elem_of_nil in He.
  - rewrite fmap_cons, for_range_cons. intros ([cs1 bn1] & H1 & H2)%bind_Ok.
    apply applyMissedStorageProof_Ok in H1 as (-> & Hl1 & Hd1).
    rewrite (Hes e) in Hl1, Hd1, H2 by left. simpl in Hl1, Hd1, H2.
    replace (e.1, e.2) with e in * by by destruct e.
    rewrite fmap_cons in Hnd. apply NoDup_cons in Hnd as [Hne Hnd].
    assert (Hh1 : height bn1 = height bn) by (by destruct Hl1 as (_ & ? & _)).
    apply IH in H2 as (Hs & Hb & Hf & Hl & Hd); [|done|].
    2:{ intros e' He'. simpl. rewrite fileContracts_applyDelayed.
        rewrite lookup_delete_ne; [apply Hes; by right|].
        intros Heq. apply Hne. rewrite Heq. by apply list_elem_of_fmap_2. }
    rewrite Hh1 in Hb, Hl, Hd. simpl in Hs, Hf.
    rewrite siacoinOutputs_applyDelayed in Hs.
    rewrite fileContracts_applyDelayed in Hf.
    assert (Hb1 : ∀ h, bucket (set_fileContracts (delete e.1)
               (applyDelayedSiacoinOutputDiffs
                  (payoutDiff (height_add (height bn) MaturityDelay)
                     <$> missedProofEntries e) cs)) h =
             if decide (h = height_add (height bn) MaturityDelay)
             then insert_all (missedProofEntries e)
                    (bucket cs (height_add (height bn) MaturityDelay))
             else bucket cs h).
    { intros h. by rewrite bucket_set_fileContracts, bucket_applyDelayed_payouts. }
    cbv zeta. rewrite bind_cons. split_and!.
    + done.
    + intros h. rewrite Hb, !Hb1, insert_all_app.
      destruct (decide (h = _)) as [->|]; [|done]. by rewrite decide_True.
    + by rewrite delete_all_cons.
    + rewrite fmap_app, fmap_cons.
      exact (logs_extended_trans _ _ _ [] _ _ [] _ _ Hl1 Hl).
    + intros ->. destruct (Hd1 eq_refl) as (_ & Hw & Hnd1 & Hfr1).
      destruct (Hd eq_refl) as (Hnd2 & Hfr2 & Hws).
      assert (Hfr2' : ∀ id, id ∈ (es ≫= missedProofEntries).*1 →
                (id ∉ (missedProofEntries e).*1) ∧
                bucket cs (height_add (height bn) MaturityDelay) !! id = None ∧
                siacoinOutputs cs !! id = None).
      { intros id Hid. destruct (Hfr2 id Hid) as [Hb2 Hs2].
        rewrite Hb1, decide_True in Hb2 by done.
        simpl in Hs2. rewrite siacoinOutputs_applyDelayed in Hs2.
        assert (id ∉ (missedProofEntries e).*1) as Hnin.
        { intros Hin. apply (lookup_insert_all_in _
            (bucket cs (height_add (height bn) MaturityDelay))) in Hin.
          rewrite Hb2 in Hin. by destruct Hin. }
        by rewrite lookup_insert_all_notin in Hb2. }
      split_and!.
      * rewrite fmap_app. apply NoDup_app. split_and!; [done| |done].
        intros id Hin1 Hin2. by destruct (Hfr2' id Hin2) as [? _].
      * intros id. rewrite fmap_app. intros [Hin|Hin]%elem_of_app.
        -- by apply Hfr1.
        -- by destruct (Hfr2' id Hin) as (_ & ? & ?).
      * intros e' [->|Hin]%elem_of_cons; [done|by apply Hws].
Qed.

Lemma missed_loop_nodebug ids i s :
  ∃ s', for_range (λ _ id s, applyMissedStorageProof false id s) i ids s = Ok s'.
Proof.
  revert i s. induction ids as [|id ids IH]; intros i s; [by eexists|].
  rewrite for_range_cons.
  destruct (applyMissedStorageProof_nodebug id s) as [s1 ->]. simpl. apply IH.
Qed.

(** ** The contract maintenance as a whole *)

Lemma map_range_NoDup {V : Type} (m : gmap N V) l : map_range m l → NoDup l.*1.
Proof. unfold map_range. intros ->. apply NoDup_fst_map_to_list. Qed.

Lemma map_range_elem_of {V : Type} (m : gmap N V) l k v :
  map_range m l → (k, v) ∈ l ↔ m !! k = Some v.
Proof. unfold map_range. intros ->. apply elem_of_map_to_list. Qed.

Lemma expiredFileContracts_NoDup H (m : gmap N FileContract) order :
  map_range m order → NoDup (expiredFileContracts H order).*1.
Proof.
  intros Hr. eapply sublist_NoDup; [by eapply map_range_NoDup|].
  apply fmap_sublist, sublist_filter.
Qed.

Lemma elem_of_expiredFileContracts H (m : gmap N FileContract) order e :
  map_range m order →
  e ∈ expiredFileContracts H order ↔ m !! e.1 = Some e.2 ∧ WindowEnd e.2 = H.
Proof.
  intros Hr. unfold expiredFileContracts. rewrite list_elem_of_filter.
  destruct e as [k v]. rewrite (map_range_elem_of m order k v Hr). simpl. tauto.
Qed.

Lemma applyFileContractMaintenance_scan dbg order s :
  applyFileContractMaintenance dbg order s =
  _ ← for_range (scanFileContract dbg) 0 order (s, []);
  for_range (λ _ id s, applyMissedStorageProof dbg id s) 0
    (expiredFileContracts (height s.2) order).*1 s.
Proof.
  unfold applyFileContractMaintenance.
  destruct (for_range (scanFileContract dbg) 0 order (s, [])) as [st|e] eqn:Hscan;
    [|done].
  apply scan_loop in Hscan as [-> _]. done.
Qed.

Lemma applyFileContractMaintenance_Ok dbg order cs bn cs' bn' :
  map_range (fileContracts cs) order →
  applyFileContractMaintenance dbg order (cs, bn) = Ok (cs', bn') →
  let T := height_add (height bn) MaturityDelay in
  let es := expiredFileContracts (height bn) order in
  let M := es ≫= missedProofEntries in
  siacoinOutputs cs' = siacoinOutputs cs ∧
  (∀ h, bucket cs' h =
        if decide (h = T) then insert_all M (bucket cs T) else bucket cs h) ∧
  fileContracts cs' = delete_all es.*1 (fileContracts cs) ∧
  logs_extended bn bn' [] (payoutDiff T <$> M) (missedContractDiff <$> es) ∧
  (dbg = true →
     NoDup M.*1 ∧
     (∀ id, id ∈ M.*1 → bucket cs T !! id = None ∧ siacoinOutputs cs !! id = None) ∧
     ∀ e, e ∈ order → height bn ≤ WindowEnd e.2).
Proof.
  intros Hr. rewrite applyFileContractMaintenance_scan.
  intros (st & Hscan & Hloop)%bind_Ok. simpl in Hloop.
  apply scan_loop in Hscan as [_ Hw].
  apply missed_loop in Hloop as (Hs & Hb & Hf & Hl & Hd).
  - split_and!; try done. intros ->. destruct (Hd eq_refl) as (? & ? & _).
    split_and!; try done. by apply Hw.
  - by eapply expiredFileContracts_NoDup.
  - intros e He. by eapply elem_of_expiredFileContracts in He as [? _].
Qed.

Lemma applyFileContractMaintenance_nodebug order s :
  ∃ s', applyFileContractMaintenance false order s = Ok s'.
Proof.
  rewrite applyFileContractMaintenance_scan, scan_loop_nodebug. simpl.
  apply missed_loop_nodebug.
Qed.

(** ** The miner payouts as a whole *)

Lemma applyMinerPayouts_Ok dbg cs bn cs' bn' :
  applyMinerPayouts dbg (cs, bn) = Ok (cs', bn') →
  let T := height_add (height bn) MaturityDelay in
  let P := minerPayoutEntries (block bn) in
  siacoinOutputs cs' = siacoinOutputs cs ∧
  (∀ h, bucket cs' h =
        if decide (h = T) then insert_all P (bucket cs T) else bucket cs h) ∧
  fileContracts cs' = fileContracts cs ∧
  logs_extended bn bn' [] (payoutDiff T <$> P) [] ∧
  (dbg = true →
     NoDup P.*1 ∧
     ∀ id, id ∈ P.*1 → bucket cs T !! id = None ∧ siacoinOutputs cs !! id = None).
Proof.
  rewrite applyMinerPayouts_delayedPayout. intros Hloop. pose proof Hloop as Hloop'.
  apply delayedPayout_loop in Hloop as [-> ->]. cbv zeta. split_and!.
  - apply siacoinOutputs_applyDelayed.
  - intros h. apply bucket_applyDelayed_payouts.
  - apply fileContracts_applyDelayed.
  - apply logs_extended_delayed.
  - intros ->. by apply delayedPayout_loop_fresh in Hloop'.
Qed.

(** ** When the checked loops return *)

Lemma delayedPayout_intro dbg T idf i x cs bn :
  (dbg = true → bucket cs T !! idf i = None ∧ siacoinOutputs cs !! idf i = None) →
  delayedPayout dbg T idf i x (cs, bn) =
  Ok (commitDelayedSiacoinOutputDiff (payoutDiff T (idf i, x)) DiffApply cs,
      append_delayedSiacoinOutputDiff (payoutDiff T (idf i, x)) bn).
Proof.
  intros Hfr. destruct dbg; [|done]. destruct (Hfr eq_refl) as [Hb Hs].
  unfold delayedPayout. by rewrite Hb, Hs.
Qed.

Lemma delayedPayout_loop_intro dbg T idf l i cs bn :
  (dbg = true →
     NoDup ((λ e, (idf e.1, e.2)) <$> indexed i l).*1 ∧
     ∀ id, id ∈ ((λ e, (idf e.1, e.2)) <$> indexed i l).*1 →
       bucket cs T !! id = None ∧ siacoinOutputs cs !! id = None) →
  ∃ s', for_range (delayedPayout dbg T idf) i l (cs, bn) = Ok s'.
Proof.
  revert i cs bn. induction l as [|x l IH]; intros i cs bn Hfr; [by eexists|].
  rewrite for_range_cons, delayedPayout_intro.
  - simpl. apply IH. intros Hd. destruct (Hfr Hd) as [Hnd Hfresh].
    simpl in Hnd. apply NoDup_cons in Hnd as [Hnin Hnd]. split; [done|].
    intros id Hid. rewrite bucket_commitDelayed, siacoinOutputs_commitDelayed. simpl.
    rewrite decide_True by done.
    destruct (Hfresh id) as [Hb Hs]; [by right|]. split; [|done].
    rewrite lookup_insert_ne; [done|]. by intros <-.
  - intros Hd. destruct (Hfr Hd) as [_ Hfresh]. apply Hfresh. by left.
Qed.

Lemma applyMaturedSiacoinOutput_intro dbg i e cs bn :
  (dbg = true → siacoinOutputs cs !! e.1 = None) →
  applyMaturedSiacoinOutput dbg i e (cs, bn) =
  Ok (commitDelayedSiacoinOutputDiff (maturedDelayedDiff (height bn) e) DiffApply
        (commitSiacoinOutputDiff (maturedOutputDiff e) DiffApply cs),
      append_delayedSiacoinOutputDiff (maturedDelayedDiff (height bn) e)
        (append_siacoinOutputDiff (maturedOutputDiff e) bn)).
Proof.
  intros Hfr. destruct dbg; [|by apply applyMaturedSiacoinOutput_nodebug].
  destruct e as [id v]. unfold applyMaturedSiacoinOutput. simpl in *.
  by rewrite (Hfr eq_refl).
Qed.

Lemma matured_loop_intro dbg l i cs bn :
  NoDup l.*1 →
  (dbg = true → ∀ id, id ∈ l.*1 → siacoinOutputs cs !! id = None) →
  ∃ s', for_range (applyMaturedSiacoinOutput dbg) i l (cs, bn) = Ok s'.
Proof.
  revert i cs bn. induction l as [|e l IH]; intros i cs bn Hnd Hfr; [by eexists|].
  rewrite fmap_cons in Hnd. apply NoDup_cons in Hnd as [Hnin Hnd].
  rewrite for_range_cons, applyMaturedSiacoinOutput_intro.
  - simpl. apply IH; [done|]. intros Hd id Hid.
    rewrite siacoinOutputs_commitDelayed, siacoinOutputs_commitSiacoinOutput. simpl.
    rewrite lookup_insert_ne by (by intros <-). apply Hfr; [done|]. by right.
  - intros Hd. apply Hfr; [done|]. by left.
Qed.

Lemma applyMaturedSiacoinOutputs_intro dbg l cs bn :
  map_range (bucket cs (height bn)) l →
  (dbg = true → MaturityDelay < height bn →
     ∀ id, is_Some (bucket cs (height bn) !! id) → siacoinOutputs cs !! id = None) →
  ∃ s', applyMaturedSiacoinOutputs dbg l (cs, bn) = Ok s'.
Proof.
  intros Hr Hfr. unfold applyMaturedSiacoinOutputs. simpl.
  destruct (N.ltb_spec MaturityDelay (height bn)) as [HH|HH]; simpl; [|by eexists].
  destruct (matured_loop_intro dbg l 0 cs bn) as [[cs1 bn1] Hloop].
  { by eapply map_range_NoDup. }
  { intros Hd id ([id' v] & -> & Hin)%list_elem_of_fmap. apply Hfr; [done..|].
    apply (map_range_elem_of _ _ _ _ Hr) in Hin. by eexists. }
  rewrite Hloop. simpl. destruct dbg; [|by eexists].
  apply matured_loop in Hloop as (_ & Hb & _ & Hl & _).
  unfold deleteMaturedBucket.
  assert (Hh : height bn1 = height bn) by (by destruct Hl as (_ & ? & _)).
  rewrite Hh, Hb, decide_True by done.
  rewrite (delete_all_map_to_list _ _ Hr), map_size_empty. simpl. by eexists.
Qed.

Lemma scan_loop_intro dbg l i s acc :
  (dbg = true → ∀ e, e ∈ l → height s.2 ≤ WindowEnd e.2) →
  for_range (scanFileContract dbg) i l (s, acc) =
  Ok (s, acc ++ (expiredFileContracts (height s.2) l).*1).
Proof.
  intros Hw. destruct dbg; [|apply scan_loop_nodebug].
  specialize (Hw eq_refl). revert i acc.
  induction l as [|e l IH]; intros i acc.
  - simpl. by rewrite app_nil_r.
  - rewrite for_range_cons.
    destruct (scanFileContract true i e (s, acc)) as [st1|err] eqn:Hb.
    + apply scanFileContract_Ok in Hb as [-> _]. simpl.
      rewrite IH by (intros e' He'; apply Hw; by right).
      by rewrite (expiredFileContracts_cons _ e l), fmap_app, app_assoc.
    + exfalso. unfold scanFileContract in Hb. destruct e as [id fc], s as [cs bn].
      simpl in Hb. assert (height bn ≤ WindowEnd fc) as Hle by (apply (Hw (id, fc)); by left).
      apply N.ltb_ge in Hle. by rewrite Hle in Hb.
Qed.

Lemma applyMissedStorageProof_intro dbg fcid fc cs bn :
  fileContracts cs !! fcid = Some fc →
  (dbg = true →
     WindowEnd fc = height bn ∧
     NoDup (missedProofEntries (fcid, fc)).*1 ∧
     ∀ id, id ∈ (missedProofEntries (fcid, fc)).*1 →
       bucket cs (height_add (height bn) MaturityDelay) !! id = None ∧
       siacoinOutputs cs !! id = None) →
  ∃ s', applyMissedStorageProof dbg fcid (cs, bn) = Ok s'.
Proof.
  intros Hfc Hpre. destruct dbg; [|apply applyMissedStorageProof_nodebug].
  destruct (Hpre eq_refl) as (Hw & Hnd & Hfr).
  unfold applyMissedStorageProof. rewrite Hfc. simpl.
  apply N.eqb_eq in Hw. rewrite Hw. simpl.
  rewrite applyMissedProofOutput_delayedPayout.
  destruct (delayedPayout_loop_intro true (height_add (height bn) MaturityDelay)
              (StorageProofOutputID fcid ProofMissed) (MissedProofOutputs fc) 0 cs bn)
    as [[cs1 bn1] ->]; [done|].
  simpl. by eexists.
Qed.

Lemma missed_loop_intro dbg es i cs bn :
  NoDup es.*1 →
  (∀ e, e ∈ es → fileContracts cs !! e.1 = Some e.2) →
  (dbg = true →
     (∀ e, e ∈ es → WindowEnd e.2 = height bn) ∧
     NoDup (es ≫= missedProofEntries).*1 ∧
     ∀ id, id ∈ (es ≫= missedProofEntries).*1 →
       bucket cs (height_add (height bn) MaturityDelay) !! id = None ∧
       siacoinOutputs cs !! id = None) →
  ∃ s', for_range (λ _ id s, applyMissedStorageProof dbg id s) i es.*1 (cs, bn) = Ok s'.
Proof.
  revert i cs bn. induction es as [|e es IH]; intros i cs bn Hnd Hes Hpre;
    [by eexists|].
  rewrite fmap_cons, for_range_cons.
  rewrite fmap_cons in Hnd. apply NoDup_cons in Hnd as [Hne Hnd].
  assert (Hpre' : dbg = true →
     (∀ e', e' ∈ e :: es → WindowEnd e'.2 = height bn) ∧
     NoDup (missedProofEntries e).*1 ∧ NoDup (es ≫= missedProofEntries).*1 ∧
     (∀ id, id ∈ (missedProofEntries e).*1 → id ∉ (es ≫= missedProofEntries).*1) ∧
     ∀ id, id ∈ (missedProofEntries e).*1 ∨ id ∈ (es ≫= missedProofEntries).*1 →
       bucket cs (height_add (height bn) MaturityDelay) !! id = None ∧
       siacoinOutputs cs !! id = None).
  { intros Hd. destruct (Hpre Hd) as (Hw & HndM & Hfr).
    rewrite bind_cons, fmap_app in HndM, Hfr.
    apply NoDup_app in HndM as (? & ? & ?). split_and!; try done.
    intros id Hid. apply Hfr, elem_of_app. done. }
  destruct (applyMissedStorageProof_intro dbg e.1 e.2 cs bn) as [[cs1 bn1] H1].
  { apply Hes. by left. }
  { intros Hd. destruct (Hpre' Hd) as (Hw & Hnd1 & _ & _ & Hfr).
    replace (e.1, e.2) with e by (by destruct e). split_and!; [|done|].
    - apply Hw. by left.
    - intros id Hid. apply Hfr. by left. }
  rewrite H1. simpl.
  apply applyMissedStorageProof_Ok in H1 as (-> & Hl1 & _).
  rewrite (Hes e) in Hl1 |- * by left. simpl in Hl1 |- *.
  replace (e.1, e.2) with e in * by (by destruct e).
  assert (Hh1 : height bn1 = height bn) by (by destruct Hl1 as (_ & ? & _)).
  apply IH; [done|..].
  - intros e' He'. simpl. rewrite fileContracts_applyDelayed.
    rewrite lookup_delete_ne; [apply Hes; by right|].
    intros Heq. apply Hne. rewrite Heq. by apply list_elem_of_fmap_2.
  - intros Hd. destruct (Hpre' Hd) as (Hw & _ & Hnd2 & Hdisj & Hfr). rewrite Hh1.
    split_and!; [|done|].
    + intros e' He'. apply Hw. by right.
    + intros id Hid. rewrite bucket_set_fileContracts, bucket_applyDelayed_payouts.
      rewrite decide_True by done. simpl. rewrite siacoinOutputs_applyDelayed.
      destruct (Hfr id) as [Hb Hs]; [by right|]. split; [|done].
      rewrite lookup_insert_all_notin; [done|].
      intros Hin. by apply (Hdisj id Hin).
Qed.

Lemma applyFileContractMaintenance_intro dbg order cs bn :
  map_range (fileContracts cs) order →
  (dbg = true →
     (∀ e, e ∈ order → height bn ≤ WindowEnd e.2) ∧
     NoDup (expiredFileContracts (height bn) order ≫= missedProofEntries).*1 ∧
     ∀ id, id ∈ (expiredFileContracts (height bn) order ≫= missedProofEntries).*1 →
       bucket cs (height_add (height bn) MaturityDelay) !! id = None ∧
       siacoinOutputs cs !! id = None) →
  ∃ s', applyFileContractMaintenance dbg order (cs, bn) = Ok s'.
Proof.
  intros Hr Hpre. rewrite applyFileContractMaintenance_scan.
  rewrite scan_loop_intro by (intros Hd; by destruct (Hpre Hd) as [? _]).
  simpl. apply missed_loop_intro.
  - by eapply expiredFileContracts_NoDup.
  - intros e He. by eapply elem_of_expiredFileContracts in He as [? _].
  - intros Hd. destruct (Hpre Hd) as (_ & ? & ?). split_and!; [|done..].
    intros e He. by eapply elem_of_expiredFileContracts in He as [_ ?].
Qed.

Lemma applyMinerPayouts_intro dbg cs bn :
  (dbg = true →
     NoDup (minerPayoutEntries (block bn)).*1 ∧
     ∀ id, id ∈ (minerPayoutEntries (block bn)).*1 →
       bucket cs (height_add (height bn) MaturityDelay) !! id = None ∧
       siacoinOutputs cs !! id = None) →
  ∃ s', applyMinerPayouts dbg (cs, bn) = Ok s'.
Proof.
  intros Hpre. rewrite applyMinerPayouts_delayedPayout.
  by apply delayedPayout_loop_intro.
Qed.

(** ** The checks only restrict: a checked run that returns is an
    unchecked run *)

Lemma applyMinerPayouts_mono dbg s s' :
  applyMinerPayouts true s = Ok s' → applyMinerPayouts dbg s = Ok s'.
Proof.
  destruct dbg; [done|]. destruct s as [cs bn].
  rewrite !applyMinerPayouts_delayedPayout.
  apply for_range_mono. intros i x s1 s2. apply delayedPayout_mono.
Qed.

Lemma applyMaturedSiacoinOutputs_mono dbg l s s' :
  applyMaturedSiacoinOutputs true l s = Ok s' →
  applyMaturedSiacoinOutputs dbg l s = Ok s'.
Proof.
  destruct dbg; [done|]. unfold applyMaturedSiacoinOutputs.
  destruct (negb _); [done|].
  intros (s1 & Hloop & Hdel)%bind_Ok.
  assert (Hbody : ∀ i e s1 s2, applyMaturedSiacoinOutput true i e s1 = Ok s2 →
            applyMaturedSiacoinOutput false i e s1 = Ok s2).
  { intros i e [cs bn] s2 [-> _]%applyMaturedSiacoinOutput_Ok.
    apply applyMaturedSiacoinOutput_nodebug. }
  rewrite (for_range_mono _ _ _ _ _ _ Hbody Hloop).
  simpl. destruct s1 as [cs1 bn1]. by apply deleteMaturedBucket_Ok in Hdel as ->.
Qed.

Lemma applyMissedStorageProof_mono dbg fcid s s' :
  applyMissedStorageProof true fcid s = Ok s' →
  applyMissedStorageProof dbg fcid s = Ok s'.
Proof.
  destruct dbg; [done|]. destruct s as [cs bn]. unfold applyMissedStorageProof.
  intros (u & _ & Hrest)%bind_Ok. simpl.
  apply bind_Ok in Hrest as (s1 & Hloop & Hret).
  assert (Hbody : ∀ i x s1 s2, applyMissedProofOutput true fcid i x s1 = Ok s2 →
            applyMissedProofOutput false fcid i x s1 = Ok s2).
  { intros i x [cs2 bn2] s2. unfold applyMissedProofOutput.
    by intros (u' & _ & ?)%bind_Ok. }
  rewrite (for_range_mono _ _ _ _ _ _ Hbody Hloop).
  done.
Qed.

Lemma applyFileContractMaintenance_mono dbg order s s' :
  applyFileContractMaintenance true order s = Ok s' →
  applyFileContractMaintenance dbg order s = Ok s'.
Proof.
  destruct dbg; [done|]. rewrite !applyFileContractMaintenance_scan.
  intros (st & _ & Hloop)%bind_Ok. rewrite scan_loop_nodebug. simpl.
  revert Hloop. apply for_range_mono. intros i id s1 s2.
  apply applyMissedStorageProof_mono.
Qed.

Lemma applyMaintenance_mono dbg dorder forder s s' :
  applyMaintenance true dorder forder s = Ok s' →
  applyMaintenance dbg dorder forder s = Ok s'.
Proof.
  unfold applyMaintenance.
  intros (s1 & H1 & (s2 & H2 & H3)%bind_Ok)%bind_Ok.
  rewrite (applyMinerPayouts_mono dbg _ _ H1). simpl.
  rewrite (applyMaturedSiacoinOutputs_mono dbg _ _ _ H2). simpl.
  by apply applyFileContractMaintenance_mono.
Qed.

(** ** The maturation at every height *)

Lemma applyMaturedSiacoinOutputs_summary dbg l cs bn cs' bn' :
  applyMaturedSiacoinOutputs dbg l (cs, bn) = Ok (cs', bn') →
  let l2 := if MaturityDelay <? height bn then l else [] in
  siacoinOutputs cs' = insert_all l2 (siacoinOutputs cs) ∧
  (∀ h, bucket cs' h =
        if decide (h = height bn ∧ MaturityDelay < height bn) then ∅
        else bucket cs h) ∧
  fileContracts cs' = fileContracts cs ∧
  logs_extended bn bn' (maturedOutputDiff <$> l2)
    (maturedDelayedDiff (height bn) <$> l2) [] ∧
  (dbg = true → ∀ id, id ∈ l2.*1 → siacoinOutputs cs !! id = None).
Proof.
  destruct (N.ltb_spec MaturityDelay (height bn)) as [HH|HH]; cbv zeta.
  - intros (Hs & _ & Hb & Hf & Hl & Hfr)%applyMaturedSiacoinOutputs_Ok; [|done].
    split_and!; try done. intros h. rewrite Hb.
    destruct (decide (h = height bn)) as [->|Hne].
    + by rewrite decide_True.
    + rewrite decide_False; [done|]. by intros [? _].
  - rewrite applyMaturedSiacoinOutputs_early by done. intros [= <- <-].
    split_and!; try done.
    + intros h. rewrite decide_False; [done|]. intros [_ ?]. lia.
    + apply logs_extended_refl.
    + intros _ id Hid. by apply elem_of_nil in Hid.
Qed.

(** A pass that returns is three phases that return, each loop over a
    map having visited that map. *)
Lemma applyMaintenance_phases dbg dorder forder cs bn cs' bn' :
  maintenance_orders dbg dorder forder (cs, bn) →
  applyMaintenance dbg dorder forder (cs, bn) = Ok (cs', bn') →
  ∃ cs1 bn1 cs2 bn2,
    applyMinerPayouts dbg (cs, bn) = Ok (cs1, bn1) ∧
    applyMaturedSiacoinOutputs dbg dorder (cs1, bn1) = Ok (cs2, bn2) ∧
    applyFileContractMaintenance dbg forder (cs2, bn2) = Ok (cs', bn') ∧
    map_range (bucket cs1 (height bn1)) dorder ∧
    map_range (fileContracts cs2) forder.
Proof.
  intros Hord. unfold applyMaintenance.
  intros ([cs1 bn1] & H1 & ([cs2 bn2] & H2 & H3)%bind_Ok)%bind_Ok.
  destruct (Hord _ H1) as [Hd Hf]. specialize (Hf _ H2).
  by exists cs1, bn1, cs2, bn2.
Qed.

(** ** Replaying a log backwards *)

Lemma revertSiacoinOutputDiffs_cons d ds cs :
  revertSiacoinOutputDiffs (d :: ds) cs =
  commitSiacoinOutputDiff d DiffRevert (revertSiacoinOutputDiffs ds cs).
Proof. unfold revertSiacoinOutputDiffs. by rewrite reverse_cons, foldl_app. Qed.

Lemma revertDelayedSiacoinOutputDiffs_cons d ds cs :
  revertDelayedSiacoinOutputDiffs (d :: ds) cs =
  commitDelayedSiacoinOutputDiff d DiffRevert (revertDelayedSiacoinOutputDiffs ds cs).
Proof. unfold revertDelayedSiacoinOutputDiffs. by rewrite reverse_cons, foldl_app. Qed.

Lemma revertFileContractDiffs_cons d ds cs :
  revertFileContractDiffs (d :: ds) cs =
  commitFileContractDiff d DiffRevert (revertFileContractDiffs ds cs).
Proof. unfold revertFileContractDiffs. by rewrite reverse_cons, foldl_app. Qed.

Lemma revertDelayedSiacoinOutputDiffs_app ds1 ds2 cs :
  revertDelayedSiacoinOutputDiffs (ds1 ++ ds2) cs =
  revertDelayedSiacoinOutputDiffs ds1 (revertDelayedSiacoinOutputDiffs ds2 cs).
Proof. unfold revertDelayedSiacoinOutputDiffs. by rewrite reverse_app, foldl_app. Qed.

Lemma delete_all_snoc {V : Type} ks k (m : gmap N V) :
  delete_all (ks ++ [k]) m = delete k (delete_all ks m).
Proof. unfold delete_all. by rewrite foldl_app. Qed.

Lemma insert_all_snoc {V : Type} (items : list (N * V)) e m :
  insert_all (items ++ [e]) m = <[e.1 := e.2]> (insert_all items m).
Proof. unfold insert_all. by rewrite foldl_app. Qed.

Lemma siacoinOutputs_revert_matured l cs :
  siacoinOutputs (revertSiacoinOutputDiffs (maturedOutputDiff <$> l) cs) =
  delete_all (reverse l.*1) (siacoinOutputs cs).
Proof.
  induction l as [|e l IH]; [done|].
  rewrite !fmap_cons, revertSiacoinOutputDiffs_cons, siacoinOutputs_commitSiacoinOutput.
  simpl. by rewrite IH, reverse_cons, delete_all_snoc.
Qed.

Lemma bucket_revertSiacoinOutputDiffs ds cs h :
  bucket (revertSiacoinOutputDiffs ds cs) h = bucket cs h.
Proof.
  induction ds as [|d ds IH]; [done|].
  by rewrite revertSiacoinOutputDiffs_cons, bucket_commitSiacoinOutput.
Qed.

Lemma fileContracts_revertSiacoinOutputDiffs ds cs :
  fileContracts (revertSiacoinOutputDiffs ds cs) = fileContracts cs.
Proof.
  induction ds as [|d ds IH]; [done|].
  by rewrite revertSiacoinOutputDiffs_cons, fileContracts_commitSiacoinOutput.
Qed.

Lemma siacoinOutputs_revertDelayed ds cs :
  siacoinOutputs (revertDelayedSiacoinOutputDiffs ds cs) = siacoinOutputs cs.
Proof.
  induction ds as [|d ds IH]; [done|].
  by rewrite revertDelayedSiacoinOutputDiffs_cons, siacoinOutputs_commitDelayed.
Qed.

Lemma fileContracts_revertDelayed ds cs :
  fileContracts (revertDelayedSiacoinOutputDiffs ds cs) = fileContracts cs.
Proof.
  induction ds as [|d ds IH]; [done|].
  by rewrite revertDelayedSiacoinOutputDiffs_cons, fileContracts_commitDelayed.
Qed.

Lemma bucket_revert_payouts T items cs h :
  bucket (revertDelayedSiacoinOutputDiffs (payoutDiff T <$> items) cs) h =
  if decide (h = T) then delete_all (reverse items.*1) (bucket cs T) else bucket cs h.
Proof.
  induction items as [|e items IH].
  - simpl. by case_decide; subst.
  - rewrite !fmap_cons, revertDelayedSiacoinOutputDiffs_cons, bucket_commitDelayed.
    simpl. rewrite IH, reverse_cons, delete_all_snoc.
    destruct (decide (h = T)) as [->|]; [|done]. done.
Qed.

Lemma bucket_revert_matured H l cs h :
  bucket (revertDelayedSiacoinOutputDiffs (maturedDelayedDiff H <$> l) cs) h =
  if decide (h = H) then insert_all (reverse l) (bucket cs H) else bucket cs h.
Proof.
  induction l as [|e l IH].
  - simpl. by case_decide; subst.
  - rewrite !fmap_cons, revertDelayedSiacoinOutputDiffs_cons, bucket_commitDelayed.
    simpl. rewrite IH, reverse_cons, insert_all_snoc.
    destruct (decide (h = H)) as [->|]; [|done]. done.
Qed.

Lemma fileContracts_revert_missed es cs :
  fileContracts (revertFileContractDiffs (missedContractDiff <$> es) cs) =
  insert_all (reverse es) (fileContracts cs).
Proof.
  induction es as [|e es IH]; [done|].
  rewrite !fmap_cons, revertFileContractDiffs_cons, fileContracts_commitFileContract.
  simpl. by rewrite IH, reverse_cons, insert_all_snoc.
Qed.

Lemma siacoinOutputs_revertFileContractDiffs ds cs :
  siacoinOutputs (revertFileContractDiffs ds cs) = siacoinOutputs cs.
Proof.
  induction ds as [|d ds IH]; [done|].
  rewrite revertFileContractDiffs_cons. unfold commitFileContractDiff.
  by case_decide.
Qed.

Lemma bucket_revertFileContractDiffs ds cs h :
  bucket (revertFileContractDiffs ds cs) h = bucket cs h.
Proof.
  induction ds as [|d ds IH]; [done|].
  rewrite revertFileContractDiffs_cons. unfold commitFileContractDiff.
  by case_decide.
Qed.

Lemma insert_all_delete_all es (m : gmap N FileContract) :
  NoDup es.*1 → (∀ e, e ∈ es → m !! e.1 = Some e.2) →
  insert_all (reverse es) (delete_all es.*1 m) = m.
Proof.
  intros Hnd Hes. apply map_eq. intros id.
  destruct (decide (id ∈ es.*1)) as [Hin|Hnin].
  - apply list_elem_of_fmap in Hin as ([id' fc] & -> & Hin).
    rewrite (Hes _ Hin). simpl. apply lookup_insert_all_NoDup.
    + by rewrite fmap_reverse, reverse_Permutation.
    + by apply elem_of_reverse.
  - rewrite lookup_insert_all_notin, lookup_delete_all.
    + by rewrite decide_False.
    + by rewrite fmap_reverse, elem_of_reverse.
Qed.

(** ** Entries and positions *)

Lemma height_add_small a b : a + b < 2 ^ 64 → height_add a b = a + b.
Proof. intros Hlt. unfold height_add. by apply N.mod_small. Qed.

Lemma minerPayoutEntries_lookup b (i : nat) :
  minerPayoutEntries b !! i =
  (λ p, (MinerPayoutID b (N.of_nat i), p)) <$> MinerPayouts b !! i.
Proof.
  unfold minerPayoutEntries. rewrite list_lookup_fmap, indexed_lookup.
  by destruct (MinerPayouts b !! i).
Qed.

Lemma missedProofEntries_lookup fcid fc (i : nat) :
  missedProofEntries (fcid, fc) !! i =
  (λ o, (StorageProofOutputID fcid ProofMissed (N.of_nat i), o))
    <$> MissedProofOutputs fc !! i.
Proof.
  unfold missedProofEntries. simpl. rewrite list_lookup_fmap, indexed_lookup.
  by destruct (MissedProofOutputs fc !! i).
Qed.

Lemma filter_fcd_ID_notin es fcid :
  fcid ∉ es.*1 → filter (λ d, fcd_ID d = fcid) (missedContractDiff <$> es) = [].
Proof.
  induction es as [|e es IH]; intros Hnin; [done|].
  rewrite fmap_cons, not_elem_of_cons in Hnin. destruct Hnin as [Hne Hnin].
  rewrite fmap_cons, filter_cons. simpl.
  rewrite decide_False by done. by apply IH.
Qed.

Lemma filter_fcd_ID es fcid fc :
  NoDup es.*1 → (fcid, fc) ∈ es →
  filter (λ d, fcd_ID d = fcid) (missedContractDiff <$> es) =
  [missedContractDiff (fcid, fc)].
Proof.
  induction es as [|e es IH]; intros Hnd Hin.
  - by apply elem_of_nil in Hin.
  - rewrite fmap_cons in Hnd. apply NoDup_cons in Hnd as [Hnin Hnd].
    rewrite fmap_cons, filter_cons. simpl.
    apply elem_of_cons in Hin as [<-|Hin].
    + simpl. rewrite decide_True by done. by rewrite filter_fcd_ID_notin.
    + rewrite decide_False; [by apply IH|].
      intros Heq. apply Hnin. rewrite Heq.
      by apply (list_elem_of_fmap_2 fst es (fcid, fc)).
Qed.

(** ** Functional correctness of the three phases *)

(** C4. For a block node at height [H], [applyMinerPayouts] queues one
    delayed output per miner payout: the delayed-output log grows by exactly
    one [DiffApply] diff per payout, in payout order, the diff at position
    [i] carrying the identifier derived from the block and [i], the payout,
    and the maturity height [H + MaturityDelay] (the sum as [BlockHeight]
    computes it, the plain sum below [2 ^ 64]); the identifier is a key of the bucket at that height,
    bound to the payout unless a later payout of the block has the same
    identifier; nothing else in that bucket, no other bucket, neither the
    mature outputs nor the contracts nor the other two logs change.  Without
    the debug checks the function always returns; with them it returns when
    the identifiers are pairwise distinct and in neither the target bucket
    nor the mature outputs. *)
Theorem applyMinerPayouts_spec dbg cs bn :
  let T := height_add (height bn) MaturityDelay in
  let P := minerPayoutEntries (block bn) in
  ((dbg = true →
      NoDup P.*1 ∧
      ∀ id, id ∈ P.*1 → bucket cs T !! id = None ∧ siacoinOutputs cs !! id = None) →
   ∃ s', applyMinerPayouts dbg (cs, bn) = Ok s') ∧
  ∀ cs' bn', applyMinerPayouts dbg (cs, bn) = Ok (cs', bn') →
    logs_extended bn bn' [] (payoutDiff T <$> P) [] ∧
    length (payoutDiff T <$> P) = length (MinerPayouts (block bn)) ∧
    (∀ (i : nat) payout, MinerPayouts (block bn) !! i = Some payout →
       (payoutDiff T <$> P) !! i =
         Some {| dscod_Direction := DiffApply;
                 dscod_ID := MinerPayoutID (block bn) (N.of_nat i);
                 dscod_SiacoinOutput := payout;
                 dscod_MaturityHeight := T |} ∧
       is_Some (bucket cs' T !! MinerPayoutID (block bn) (N.of_nat i)) ∧
       ((∀ j : nat, (i < j < length (MinerPayouts (block bn)))%nat →
           MinerPayoutID (block bn) (N.of_nat j) ≠ MinerPayoutID (block bn) (N.of_nat i)) →
        bucket cs' T !! MinerPayoutID (block bn) (N.of_nat i) = Some payout)) ∧
    (∀ id, id ∉ P.*1 → bucket cs' T !! id = bucket cs T !! id) ∧
    (∀ h, h ≠ T → bucket cs' h = bucket cs h) ∧
    siacoinOutputs cs' = siacoinOutputs cs ∧
    fileContracts cs' = fileContracts cs ∧
    (height bn + MaturityDelay < 2 ^ 64 → T = height bn + MaturityDelay).
Proof.
  intros T P. split; [apply applyMinerPayouts_intro|].
  intros cs' bn' (Hs & Hb & Hf & Hl & _)%applyMinerPayouts_Ok.
  fold T P in Hb, Hl.
  assert (HbT : bucket cs' T = insert_all P (bucket cs T)).
  { by rewrite Hb, decide_True. }
  split_and!; try done.
  - unfold P, minerPayoutEntries. by rewrite !length_fmap, length_indexed.
  - intros i payout Hi.
    assert (HP : P !! i = Some (MinerPayoutID (block bn) (N.of_nat i), payout)).
    { unfold P. by rewrite minerPayoutEntries_lookup, Hi. }
    split_and!.
    + by rewrite list_lookup_fmap, HP.
    + rewrite HbT. apply lookup_insert_all_in.
      apply (list_elem_of_fmap_2 fst P (_, payout)). by eapply list_elem_of_lookup_2.
    + intros Hlater. rewrite HbT, <- (take_drop_middle _ _ _ HP).
      apply lookup_insert_all_last.
      intros ([id' p'] & Heq & Hin)%list_elem_of_fmap. simpl in Heq.
      apply list_elem_of_lookup_1 in Hin as [k Hk].
      rewrite lookup_drop in Hk. unfold P in Hk.
      rewrite minerPayoutEntries_lookup in Hk.
      destruct (MinerPayouts (block bn) !! (S i + k)%nat) as [q|] eqn:Hq; [|done].
      simpl in Hk. injection Hk as <- <-.
      apply (Hlater (S i + k)%nat); [|done].
      apply lookup_lt_Some in Hq. lia.
  - intros id Hid. rewrite HbT. by apply lookup_insert_all_notin.
  - intros h Hh. by rewrite Hb, decide_False.
  - apply height_add_small.
Qed.

(** C5. At a height not above the maturity delay
    [applyMaturedSiacoinOutputs] returns at once: whatever the build,
    whatever order is offered for the loop over the bucket and whatever the
    ledger holds (a bucket at that height or none), it returns the state
    it was given, the three logs included, and does not panic. *)
Theorem applyMaturedSiacoinOutputs_noop dbg order cs bn :
  height bn ≤ MaturityDelay →
  applyMaturedSiacoinOutputs dbg order (cs, bn) = Ok (cs, bn).
Proof. intros HH. by apply applyMaturedSiacoinOutputs_early. Qed.

(** C6. Above the maturity delay, after [applyMaturedSiacoinOutputs] has
    returned: the height index has no bucket at [H]; every entry the bucket
    held is a mature output with the same identifier and value; the output
    log grew by one [DiffApply] diff and the delayed-output log by one
    [DiffRevert] diff at height [H] per entry, in the order of the visit,
    and by nothing else.  Without the debug checks the function always
    returns; with them it returns when no identifier of the bucket is a
    mature output. *)
Theorem applyMaturedSiacoinOutputs_spec dbg order cs bn :
  MaturityDelay < height bn →
  map_range (bucket cs (height bn)) order →
  ((dbg = true →
      ∀ id, is_Some (bucket cs (height bn) !! id) → siacoinOutputs cs !! id = None) →
   ∃ s', applyMaturedSiacoinOutputs dbg order (cs, bn) = Ok s') ∧
  ∀ cs' bn', applyMaturedSiacoinOutputs dbg order (cs, bn) = Ok (cs', bn') →
    delayedSiacoinOutputs cs' !! height bn = None ∧
    (∀ id v, bucket cs (height bn) !! id = Some v →
       siacoinOutputs cs' !! id = Some v) ∧
    logs_extended bn bn' (maturedOutputDiff <$> order)
      (maturedDelayedDiff (height bn) <$> order) [] ∧
    maturedOutputDiff <$> order
      ≡ₚ maturedOutputDiff <$> map_to_list (bucket cs (height bn)) ∧
    maturedDelayedDiff (height bn) <$> order
      ≡ₚ maturedDelayedDiff (height bn) <$> map_to_list (bucket cs (height bn)) ∧
    (∀ id, bucket cs (height bn) !! id = None →
       siacoinOutputs cs' !! id = siacoinOutputs cs !! id) ∧
    (∀ h, h ≠ height bn → bucket cs' h = bucket cs h) ∧
    fileContracts cs' = fileContracts cs.
Proof.
  intros HH Hr. split.
  { intros Hpre. apply applyMaturedSiacoinOutputs_intro; [done|].
    intros Hd _. by apply Hpre. }
  intros cs' bn' (Hs & Hd & Hb & Hf & Hl & _)%applyMaturedSiacoinOutputs_Ok; [|done].
  split_and!; try done.
  - intros id v Hv. rewrite Hs. apply lookup_insert_all_NoDup.
    + by eapply map_range_NoDup.
    + by apply (map_range_elem_of _ _ _ _ Hr).
  - by rewrite Hr.
  - by rewrite Hr.
  - intros id Hid. rewrite Hs. apply lookup_insert_all_notin.
    intros ([id' v] & -> & Hin)%list_elem_of_fmap.
    apply (map_range_elem_of _ _ _ _ Hr) in Hin. simpl in Hid. congruence.
  - intros h Hh. by rewrite Hb, decide_False.
Qed.

(** C7. After [applyFileContractMaintenance] has returned at height [H]:
    every contract whose [WindowEnd] is [H] is gone from the contract set,
    the contract log holds exactly one new diff with its identifier, a
    [DiffRevert] diff carrying the contract, and for every position [i] of
    its missed-proof outputs the identifier derived from the contract
    identifier, [ProofMissed] and [i] is a key of the bucket at
    [H + MaturityDelay] (bound to that output when the derived identifiers
    are pairwise distinct) and a [DiffApply] diff for that output is among
    the new diffs of the delayed-output log; every contract whose [WindowEnd] is
    not [H], in particular above [H], is still in the contract set,
    unchanged.  Without the debug checks the function always returns; with
    them it returns when no contract ends below [H] and the missed-proof
    identifiers are pairwise distinct and in neither the target bucket nor
    the mature outputs. *)
Theorem applyFileContractMaintenance_spec dbg order cs bn :
  map_range (fileContracts cs) order →
  let T := height_add (height bn) MaturityDelay in
  let es := expiredFileContracts (height bn) order in
  let M := es ≫= missedProofEntries in
  ((dbg = true →
      (∀ e, e ∈ order → height bn ≤ WindowEnd e.2) ∧
      NoDup M.*1 ∧
      ∀ id, id ∈ M.*1 → bucket cs T !! id = None ∧ siacoinOutputs cs !! id = None) →
   ∃ s', applyFileContractMaintenance dbg order (cs, bn) = Ok s') ∧
  ∀ cs' bn', applyFileContractMaintenance dbg order (cs, bn) = Ok (cs', bn') →
    logs_extended bn bn' [] (payoutDiff T <$> M) (missedContractDiff <$> es) ∧
    (∀ fcid fc, fileContracts cs !! fcid = Some fc → WindowEnd fc = height bn →
       fileContracts cs' !! fcid = None ∧
       filter (λ d, fcd_ID d = fcid) (missedContractDiff <$> es) =
         [{| fcd_Direction := DiffRevert; fcd_ID := fcid; fcd_FileContract := fc |}] ∧
       ∀ (i : nat) mpo, MissedProofOutputs fc !! i = Some mpo →
         is_Some (bucket cs' T !! StorageProofOutputID fcid ProofMissed (N.of_nat i)) ∧
         (NoDup M.*1 →
          bucket cs' T !! StorageProofOutputID fcid ProofMissed (N.of_nat i) = Some mpo) ∧
         {| dscod_Direction := DiffApply;
            dscod_ID := StorageProofOutputID fcid ProofMissed (N.of_nat i);
            dscod_SiacoinOutput := mpo;
            dscod_MaturityHeight := T |} ∈ payoutDiff T <$> M) ∧
    (∀ fcid fc, fileContracts cs !! fcid = Some fc → WindowEnd fc ≠ height bn →
       fileContracts cs' !! fcid = Some fc).
Proof.
  intros Hr T es M. split; [by apply applyFileContractMaintenance_intro|].
  intros cs' bn' (Hs & Hb & Hf & Hl & _)%applyFileContractMaintenance_Ok; [|done].
  fold T es M in Hb, Hf, Hl. split_and!; [done|..].
  - intros fcid fc Hfc Hw.
    assert (Hin : (fcid, fc) ∈ es).
    { by apply (elem_of_expiredFileContracts _ _ _ _ Hr). }
    split_and!.
    + rewrite Hf, lookup_delete_all, decide_True; [done|].
      by apply (list_elem_of_fmap_2 fst es (fcid, fc)).
    + apply filter_fcd_ID; [|done]. by eapply expiredFileContracts_NoDup.
    + intros i mpo Hi.
      assert (HM : (StorageProofOutputID fcid ProofMissed (N.of_nat i), mpo) ∈ M).
      { apply list_elem_of_bind. exists (fcid, fc). split; [|done].
        apply (list_elem_of_lookup_2 _ i). by rewrite missedProofEntries_lookup, Hi. }
      split_and!.
      * rewrite Hb, decide_True by done. apply lookup_insert_all_in.
        by apply (list_elem_of_fmap_2 fst M (_, mpo)).
      * intros Hnd. rewrite Hb, decide_True by done.
        by apply lookup_insert_all_NoDup.
      * by apply (list_elem_of_fmap_2 (payoutDiff T) M (_, mpo)).
  - intros fcid fc Hfc Hw. rewrite Hf, lookup_delete_all, decide_False; [done|].
    intros ([id' fc'] & -> & Hin)%list_elem_of_fmap.
    apply (elem_of_expiredFileContracts _ _ _ _ Hr) in Hin as [Hfc' Hw'].
    simpl in *. congruence.
Qed.

(** *** The recorded accesses

    Forgetting the record gives back the functions of the source, and the
    record itself is a function of the visit order. *)

Lemma applyMissedStorageProof_observed_eq dbg fcid s tr :
  applyMissedStorageProof_observed dbg fcid (s, tr) =
  s' ← applyMissedStorageProof dbg fcid s; Ok (s', tr ++ [MapDelete fcid]).
Proof.
  destruct s as [cs bn].
  unfold applyMissedStorageProof_observed, applyMissedStorageProof, delete_fileContract.
  destruct dbg; simpl.
  - destruct (panic_if _ errMissingFileContract) as [[]|e]; simpl; [|done].
    destruct (panic_if _ errStorageProofTiming) as [[]|e]; simpl; [|done].
    by destruct (for_range _ _ _ _) as [[cs1 bn1]|e].
  - by destruct (for_range _ _ _ _) as [[cs1 bn1]|e].
Qed.

Lemma missed_loop_observed dbg ids i s tr :
  for_range (λ _ id st, applyMissedStorageProof_observed dbg id st) i ids (s, tr) =
  s' ← for_range (λ _ id s, applyMissedStorageProof dbg id s) i ids s;
  Ok (s', tr ++ (MapDelete <$> ids)).
Proof.
  revert i s tr. induction ids as [|id ids IH]; intros i s tr.
  - simpl. by rewrite app_nil_r.
  - rewrite !for_range_cons, applyMissedStorageProof_observed_eq.
    destruct (applyMissedStorageProof dbg id s) as [s1|e]; simpl; [|done].
    rewrite IH. destruct (for_range _ _ ids s1) as [s2|e]; simpl; [|done].
    by rewrite <- app_assoc.
Qed.

Lemma scanFileContract_observed_eq dbg i e s tr acc :
  scanFileContract_observed dbg i e ((s, tr), acc) =
  st ← scanFileContract dbg i e (s, acc); Ok ((st.1, tr ++ [RangeNext e.1]), st.2).
Proof.
  destruct e as [id fc], s as [cs bn].
  unfold scanFileContract_observed, scanFileContract.
  destruct dbg; simpl; [|done]. by destruct (WindowEnd fc <? height bn).
Qed.

Lemma scan_observed_loop dbg l i s tr acc :
  for_range (scanFileContract_observed dbg) i l ((s, tr), acc) =
  st ← for_range (scanFileContract dbg) i l (s, acc);
  Ok ((st.1, tr ++ (RangeNext <$> l.*1)), st.2).
Proof.
  revert i s tr acc. induction l as [|e l IH]; intros i s tr acc.
  - simpl. by rewrite app_nil_r.
  - rewrite !for_range_cons, scanFileContract_observed_eq.
    destruct (scanFileContract dbg i e (s, acc)) as [[s1 acc1]|err]; simpl; [|done].
    rewrite IH. destruct (for_range _ _ l _) as [st|err]; simpl; [|done].
    by rewrite <- app_assoc.
Qed.

Lemma applyFileContractMaintenance_observed_eq dbg order s tr :
  applyFileContractMaintenance_observed dbg order (s, tr) =
  s' ← applyFileContractMaintenance dbg order s;
  Ok (s', tr ++ (RangeNext <$> order.*1) ++ [RangeEnd] ++
            (MapDelete <$> (expiredFileContracts (height s.2) order).*1)).
Proof.
  unfold applyFileContractMaintenance_observed, applyFileContractMaintenance.
  rewrite scan_observed_loop.
  destruct (for_range (scanFileContract dbg) 0 order (s, [])) as [[s1 acc]|e] eqn:Hscan;
    simpl; [|done].
  apply scan_loop in Hscan as [Hst _]. simpl in Hst. injection Hst as -> ->.
  rewrite missed_loop_observed.
  destruct (for_range _ _ _ s) as [s2|e]; simpl; [|done].
  by rewrite <- !app_assoc.
Qed.

(** C8. [applyFileContractMaintenance] first visits the contract set once
    (the visit order lists every contract exactly once).  While the visit
    is under way, after any number of contracts, the state is the one the
    function was given, the local slice holds exactly the identifiers of
    the visited contracts whose [WindowEnd] is the block height, and the
    accesses made to the contract set so far are the visits themselves: no
    [delete] is among them.  The collected identifiers are pairwise
    distinct and are exactly the contracts of the set that end at the
    block height.  Only after the visit does the function change the
    contract set, by calling [applyMissedStorageProof] once for each
    collected identifier, in the order of collection, starting from the
    state it was given.  Whenever the function returns, the accesses it
    made are: one visit per contract in the visit order, the end of the
    visit, then one [delete] per collected identifier in the order of
    collection; the contract set it leaves has lost exactly the collected
    identifiers, and the contract log has grown by one [DiffRevert] diff
    per collected contract.  Forgetting the record of the accesses gives
    the function itself, and without the debug checks it always returns. *)
Theorem applyFileContractMaintenance_collect_then_mutate dbg order cs bn tr :
  map_range (fileContracts cs) order →
  let es := expiredFileContracts (height bn) order in
  NoDup order.*1 ∧
  (∀ id fc, (id, fc) ∈ order ↔ fileContracts cs !! id = Some fc) ∧
  (∀ visited rest st, order = visited ++ rest →
     for_range (scanFileContract dbg) 0 visited ((cs, bn), []) = Ok st →
     st = ((cs, bn), (expiredFileContracts (height bn) visited).*1)) ∧
  (∀ visited rest st, order = visited ++ rest →
     for_range (scanFileContract_observed dbg) 0 visited (((cs, bn), tr), []) = Ok st →
     st = (((cs, bn), tr ++ (RangeNext <$> visited.*1)),
           (expiredFileContracts (height bn) visited).*1)) ∧
  NoDup es.*1 ∧
  (∀ id, id ∈ es.*1 ↔
         ∃ fc, fileContracts cs !! id = Some fc ∧ WindowEnd fc = height bn) ∧
  applyFileContractMaintenance dbg order (cs, bn) =
    (_ ← for_range (scanFileContract dbg) 0 order ((cs, bn), []);
     for_range (λ _ id s, applyMissedStorageProof dbg id s) 0 es.*1 (cs, bn)) ∧
  applyFileContractMaintenance dbg order (cs, bn) =
    (st ← applyFileContractMaintenance_observed dbg order ((cs, bn), tr); Ok st.1) ∧
  (dbg = false →
     ∃ st, applyFileContractMaintenance_observed dbg order ((cs, bn), tr) = Ok st) ∧
  (∀ cs' bn' tr',
     applyFileContractMaintenance_observed dbg order ((cs, bn), tr) = Ok ((cs', bn'), tr') →
     tr' = tr ++ (RangeNext <$> order.*1) ++ [RangeEnd] ++ (MapDelete <$> es.*1) ∧
     (∀ id, fileContracts cs' !! id =
            if decide (id ∈ es.*1) then None else fileContracts cs !! id) ∧
     fileContractDiffs bn' =
       fileContractDiffs bn ++
         ((λ e, {| fcd_Direction := DiffRevert; fcd_ID := e.1; fcd_FileContract := e.2 |})
            <$> es) ∧
     applyFileContractMaintenance dbg order (cs, bn) = Ok (cs', bn')).
Proof.
  intros Hr es. split_and!.
  - by eapply map_range_NoDup.
  - intros id fc. by apply map_range_elem_of.
  - intros visited rest st _ Hscan. by apply scan_loop in Hscan as [-> _].
  - intros visited rest st _ Hscan. rewrite scan_observed_loop in Hscan.
    apply bind_Ok in Hscan as (st0 & Hscan & Hst).
    apply scan_loop in Hscan as [-> _]. simpl in Hst. by injection Hst as <-.
  - by eapply expiredFileContracts_NoDup.
  - intros id. split.
    + intros ([id' fc] & -> & Hin)%list_elem_of_fmap.
      apply (elem_of_expiredFileContracts _ _ _ _ Hr) in Hin. by exists fc.
    + intros (fc & Hfc & Hw). apply (list_elem_of_fmap_2 fst es (id, fc)).
      by apply (elem_of_expiredFileContracts _ _ _ _ Hr).
  - apply applyFileContractMaintenance_scan.
  - rewrite applyFileContractMaintenance_observed_eq.
    by destruct (applyFileContractMaintenance dbg order (cs, bn)).
  - intros ->. rewrite applyFileContractMaintenance_observed_eq.
    destruct (applyFileContractMaintenance_nodebug order (cs, bn)) as [s' ->].
    simpl. by eexists.
  - intros cs' bn' tr' Hrun. rewrite applyFileContractMaintenance_observed_eq in Hrun.
    apply bind_Ok in Hrun as ([cs1 bn1] & Hrun & Hst). simpl in Hst.
    injection Hst as -> -> <-.
    pose proof (applyFileContractMaintenance_Ok _ _ _ _ _ _ Hr Hrun)
      as (_ & _ & Hfc & Hlog & _).
    split_and!; [done| |by apply Hlog|done].
    intros id. rewrite Hfc. apply lookup_delete_all.
Qed.

(** C10. With the debug checks off, [applyMissedStorageProof] called with
    an identifier that is not in the contract set does not panic: it
    returns with the consensus set unchanged (no delayed output, the same
    contract map), and the block node it returns differs from the one it
    was given in its contract log only, which has grown by exactly one
    diff, a [DiffRevert] diff for the identifier carrying the zero-value
    contract (window end 0, no missed proof outputs). *)
Theorem applyMissedStorageProof_missing_nodebug fcid cs bn :
  fileContracts cs !! fcid = None →
  ∃ bn', applyMissedStorageProof false fcid (cs, bn) = Ok (cs, bn') ∧
    fileContractDiffs bn' =
      fileContractDiffs bn ++
        [{| fcd_Direction := DiffRevert; fcd_ID := fcid;
            fcd_FileContract := {| WindowEnd := 0; MissedProofOutputs := [] |} |}] ∧
    delayedSiacoinOutputDiffs bn' = delayedSiacoinOutputDiffs bn ∧
    siacoinOutputDiffs bn' = siacoinOutputDiffs bn ∧
    block bn' = block bn ∧
    height bn' = height bn.
Proof.
  intros Hfc. unfold applyMissedStorageProof. rewrite Hfc. simpl.
  unfold set_fileContracts. rewrite delete_id by done.
  eexists. split; [by destruct cs|]. by destruct bn.
Qed.

(** ** Violated preconditions *)

Lemma applyMinerPayouts_Panic dbg s e :
  applyMinerPayouts dbg s = Panic e → e = errPayoutsAlreadyPaid.
Proof.
  destruct s as [cs bn]. rewrite applyMinerPayouts_delayedPayout.
  apply delayedPayout_loop_Panic.
Qed.

(** C9. With the debug checks on, every listed violation ends the
    operation in a panic, never in a normal return (a normal return is
    [Ok] and carries only the new state): a miner payout identifier or a
    missed-proof identifier that is already in the target bucket or among
    the mature outputs, a maturing identifier that is already a mature
    output, a bucket that is not empty when it is about to be deleted, a
    contract that is not in the contract set when its missed proof is
    handled, a contract whose window does not end at the block height when
    its missed proof is handled, a contract whose window ended below the
    block height when the contract set is scanned; and a panic of any of
    the three phases is a panic of [applyMaintenance]. *)
Theorem maintenance_violations_panic :
  (∀ cs bn e, e ∈ minerPayoutEntries (block bn) →
     is_Some (bucket cs (height_add (height bn) MaturityDelay) !! e.1) ∨
     is_Some (siacoinOutputs cs !! e.1) →
     applyMinerPayouts true (cs, bn) = Panic errPayoutsAlreadyPaid) ∧
  (∀ order cs bn id, MaturityDelay < height bn →
     map_range (bucket cs (height bn)) order →
     is_Some (bucket cs (height bn) !! id) → is_Some (siacoinOutputs cs !! id) →
     applyMaturedSiacoinOutputs true order (cs, bn) = Panic errOutputAlreadyMature) ∧
  (∀ cs bn, bucket cs (height bn) ≠ ∅ →
     deleteMaturedBucket true (cs, bn) = Panic (panicString "deleting non-empty map")) ∧
  (∀ fcid cs bn, fileContracts cs !! fcid = None →
     applyMissedStorageProof true fcid (cs, bn) = Panic errMissingFileContract) ∧
  (∀ fcid fc cs bn, fileContracts cs !! fcid = Some fc → WindowEnd fc ≠ height bn →
     applyMissedStorageProof true fcid (cs, bn) = Panic errStorageProofTiming) ∧
  (∀ fcid fc cs bn e, fileContracts cs !! fcid = Some fc → WindowEnd fc = height bn →
     e ∈ missedProofEntries (fcid, fc) →
     is_Some (bucket cs (height_add (height bn) MaturityDelay) !! e.1) ∨
     is_Some (siacoinOutputs cs !! e.1) →
     applyMissedStorageProof true fcid (cs, bn) = Panic errPayoutsAlreadyPaid) ∧
  (∀ order cs bn fcid fc, map_range (fileContracts cs) order →
     fileContracts cs !! fcid = Some fc → WindowEnd fc < height bn →
     applyFileContractMaintenance true order (cs, bn) =
     Panic (panicString "an expiring file contract was missed somehow")) ∧
  (∀ order cs bn fcid fc e, map_range (fileContracts cs) order →
     fileContracts cs !! fcid = Some fc → WindowEnd fc = height bn →
     e ∈ missedProofEntries (fcid, fc) →
     is_Some (bucket cs (height_add (height bn) MaturityDelay) !! e.1) ∨
     is_Some (siacoinOutputs cs !! e.1) →
     ∃ err, applyFileContractMaintenance true order (cs, bn) = Panic err) ∧
  (∀ dbg dorder forder s e, applyMinerPayouts dbg s = Panic e →
     applyMaintenance dbg dorder forder s = Panic e) ∧
  (∀ dbg dorder forder s s1 e, applyMinerPayouts dbg s = Ok s1 →
     applyMaturedSiacoinOutputs dbg dorder s1 = Panic e →
     applyMaintenance dbg dorder forder s = Panic e) ∧
  (∀ dbg dorder forder s s1 s2 e, applyMinerPayouts dbg s = Ok s1 →
     applyMaturedSiacoinOutputs dbg dorder s1 = Ok s2 →
     applyFileContractMaintenance dbg forder s2 = Panic e →
     applyMaintenance dbg dorder forder s = Panic e).
Proof.
  split_and!.
  - intros cs bn e He Hpresent.
    destruct (applyMinerPayouts true (cs, bn)) as [[cs' bn']|err] eqn:Hrun.
    + apply applyMinerPayouts_Ok in Hrun as (_ & _ & _ & _ & Hfr).
      destruct (Hfr eq_refl) as [_ Hfresh].
      destruct (Hfresh e.1) as [Hb Hs]; [by apply list_elem_of_fmap_2|].
      rewrite Hb, Hs in Hpresent. by destruct Hpresent as [[? ?]|[? ?]].
    + by apply applyMinerPayouts_Panic in Hrun as ->.
  - intros order cs bn id HH Hr [v Hv] Hmature.
    unfold applyMaturedSiacoinOutputs. simpl.
    apply N.ltb_lt in HH. rewrite HH. simpl.
    destruct (for_range (applyMaturedSiacoinOutput true) 0 order (cs, bn))
      as [[cs1 bn1]|err] eqn:Hloop.
    + apply matured_loop in Hloop as (_ & _ & _ & _ & Hfr).
      rewrite (Hfr eq_refl id) in Hmature; [by destruct Hmature|].
      apply (list_elem_of_fmap_2 fst order (id, v)).
      by apply (map_range_elem_of _ _ _ _ Hr).
    + by apply matured_loop_Panic in Hloop as ->.
  - intros cs bn Hne. unfold deleteMaturedBucket.
    apply map_size_non_empty_iff, Nat.eqb_neq in Hne. by rewrite Hne.
  - intros fcid cs bn Hfc. unfold applyMissedStorageProof. by rewrite Hfc.
  - intros fcid fc cs bn Hfc Hw. unfold applyMissedStorageProof. rewrite Hfc. simpl.
    apply N.eqb_neq in Hw. by rewrite Hw.
  - intros fcid fc cs bn e Hfc Hw He Hpresent.
    unfold applyMissedStorageProof. rewrite Hfc. simpl.
    apply N.eqb_eq in Hw. rewrite Hw. simpl.
    rewrite applyMissedProofOutput_delayedPayout.
    destruct (for_range _ 0 (MissedProofOutputs fc) (cs, bn)) as [s1|err] eqn:Hloop.
    + apply delayedPayout_loop_fresh in Hloop as [_ Hfresh].
      destruct (Hfresh e.1) as [Hb Hs]; [by apply list_elem_of_fmap_2|].
      rewrite Hb, Hs in Hpresent. by destruct Hpresent as [[? ?]|[? ?]].
    + by apply delayedPayout_loop_Panic in Hloop as ->.
  - intros order cs bn fcid fc Hr Hfc Hw. rewrite applyFileContractMaintenance_scan.
    destruct (for_range (scanFileContract true) 0 order (cs, bn, []))
      as [st|err] eqn:Hscan.
    + apply scan_loop in Hscan as [_ Hle].
      apply (map_range_elem_of _ _ _ _ Hr) in Hfc.
      specialize (Hle eq_refl _ Hfc). simpl in Hle. lia.
    + by apply scan_loop_Panic in Hscan as ->.
  - intros order cs bn fcid fc e Hr Hfc Hw He Hpresent.
    destruct (applyFileContractMaintenance true order (cs, bn))
      as [[cs' bn']|err] eqn:Hrun; [|by eexists].
    apply applyFileContractMaintenance_Ok in Hrun as (_ & _ & _ & _ & Hfr); [|done].
    destruct (Hfr eq_refl) as (_ & Hfresh & _).
    destruct (Hfresh e.1) as [Hb Hs].
    { apply list_elem_of_fmap_2, list_elem_of_bind. exists (fcid, fc).
      split; [done|]. by apply (elem_of_expiredFileContracts _ _ _ _ Hr). }
    rewrite Hb, Hs in Hpresent. by destruct Hpresent as [[? ?]|[? ?]].
  - intros dbg dorder forder s e H1. unfold applyMaintenance. by rewrite H1.
  - intros dbg dorder forder s s1 e H1 H2. unfold applyMaintenance.
    rewrite H1. simpl. by rewrite H2.
  - intros dbg dorder forder s s1 s2 e H1 H2 H3. unfold applyMaintenance.
    rewrite H1. simpl. rewrite H2. done.
Qed.

(** ** Rewinding a pass *)

Lemma revert_payouts_restores T items cs0 cs1 Y :
  (∀ h, bucket cs1 h =
        if decide (h = T) then insert_all items (bucket cs0 T) else bucket cs0 h) →
  (∀ h, bucket Y h = bucket cs1 h) →
  (∀ id, id ∈ items.*1 → bucket cs0 T !! id = None) →
  ∀ h, bucket (revertDelayedSiacoinOutputDiffs (payoutDiff T <$> items) Y) h =
       bucket cs0 h.
Proof.
  intros H1 HY Hfresh h. rewrite bucket_revert_payouts, !HY, !H1.
  destruct (decide (h = T)) as [->|Hne]; [|done].
  rewrite decide_True by done.
  apply delete_all_insert_all; [|done]. intros id. apply elem_of_reverse.
Qed.

Lemma revert_matured_restores H (above : bool) l cs1 cs2 Y :
  (above = true → map_range (bucket cs1 H) l) →
  (∀ h, bucket cs2 h = if decide (h = H ∧ above = true) then ∅ else bucket cs1 h) →
  (∀ h, bucket Y h = bucket cs2 h) →
  ∀ h, bucket (revertDelayedSiacoinOutputDiffs
                 (maturedDelayedDiff H <$> (if above then l else [])) Y) h =
       bucket cs1 h.
Proof.
  intros Hr H2 HY h. rewrite bucket_revert_matured, !HY, !H2.
  destruct above.
  - destruct (decide (h = H)) as [->|Hne].
    + rewrite decide_True by done. apply insert_all_map_to_list.
      rewrite reverse_Permutation. by apply Hr.
    + rewrite decide_False; [done|]. by intros [? _].
  - rewrite (decide_False (P := H = H ∧ false = true))
      by (intros Hc; by destruct Hc).
    rewrite (decide_False (P := h = H ∧ false = true))
      by (intros Hc; by destruct Hc).
    destruct (decide (h = H)) as [->|Hne]; done.
Qed.

(** *** The keys of the bucket index

    Which heights have a bucket, present in [cs.delayedSiacoinOutputs],
    through the commits, the three phases and the rewind. *)

Lemma present_commitDelayed d dir cs h :
  is_Some (delayedSiacoinOutputs (commitDelayedSiacoinOutputDiff d dir cs) !! h) ↔
  (h = dscod_MaturityHeight d ∧ dscod_Direction d = dir) ∨
  is_Some (delayedSiacoinOutputs cs !! h).
Proof.
  unfold commitDelayedSiacoinOutputDiff. destruct (decide (_ = dir)) as [Hd|Hd]; simpl.
  - rewrite lookup_insert_is_Some.
    destruct (decide (dscod_MaturityHeight d = h)); intuition (subst; auto; congruence).
  - rewrite lookup_alter_is_Some. intuition (subst; auto; congruence).
Qed.

Lemma present_applyDelayed_payouts T items cs h :
  is_Some (delayedSiacoinOutputs
             (applyDelayedSiacoinOutputDiffs (payoutDiff T <$> items) cs) !! h) ↔
  (h = T ∧ items ≠ []) ∨ is_Some (delayedSiacoinOutputs cs !! h).
Proof.
  revert cs. induction items as [|e items IH]; intros cs.
  - simpl. intuition (subst; auto; congruence).
  - rewrite fmap_cons, applyDelayed_cons, IH, present_commitDelayed. simpl.
    intuition (subst; auto; congruence).
Qed.

Lemma present_revert_payouts T items cs h :
  is_Some (delayedSiacoinOutputs
             (revertDelayedSiacoinOutputDiffs (payoutDiff T <$> items) cs) !! h) ↔
  is_Some (delayedSiacoinOutputs cs !! h).
Proof.
  induction items as [|e items IH]; [done|].
  rewrite fmap_cons, revertDelayedSiacoinOutputDiffs_cons, present_commitDelayed, IH.
  simpl. intuition (subst; auto; congruence).
Qed.

Lemma present_revert_matured H l cs h :
  is_Some (delayedSiacoinOutputs
             (revertDelayedSiacoinOutputDiffs (maturedDelayedDiff H <$> l) cs) !! h) ↔
  (h = H ∧ l ≠ []) ∨ is_Some (delayedSiacoinOutputs cs !! h).
Proof.
  induction l as [|e l IH].
  - simpl. intuition (subst; auto; congruence).
  - rewrite fmap_cons, revertDelayedSiacoinOutputDiffs_cons, present_commitDelayed, IH.
    simpl. intuition (subst; auto; congruence).
Qed.

Lemma delayed_revertSiacoinOutputDiffs ds cs :
  delayedSiacoinOutputs (revertSiacoinOutputDiffs ds cs) = delayedSiacoinOutputs cs.
Proof.
  induction ds as [|d ds IH]; [done|].
  by rewrite revertSiacoinOutputDiffs_cons, delayed_commitSiacoinOutput.
Qed.

Lemma delayed_revertFileContractDiffs ds cs :
  delayedSiacoinOutputs (revertFileContractDiffs ds cs) = delayedSiacoinOutputs cs.
Proof.
  induction ds as [|d ds IH]; [done|].
  rewrite revertFileContractDiffs_cons. unfold commitFileContractDiff.
  by case_decide.
Qed.

Lemma present_applyMinerPayouts dbg cs bn cs' bn' h :
  applyMinerPayouts dbg (cs, bn) = Ok (cs', bn') →
  is_Some (delayedSiacoinOutputs cs' !! h) ↔
  (h = height_add (height bn) MaturityDelay ∧ minerPayoutEntries (block bn) ≠ []) ∨
  is_Some (delayedSiacoinOutputs cs !! h).
Proof.
  rewrite applyMinerPayouts_delayedPayout. intros [-> _]%delayedPayout_loop.
  apply present_applyDelayed_payouts.
Qed.

Lemma present_matured_loop dbg l i cs bn cs' bn' h :
  for_range (applyMaturedSiacoinOutput dbg) i l (cs, bn) = Ok (cs', bn') →
  is_Some (delayedSiacoinOutputs cs' !! h) ↔ is_Some (delayedSiacoinOutputs cs !! h).
Proof.
  revert i cs bn. induction l as [|e l IH]; intros i cs bn.
  - by intros [= <- <-].
  - rewrite for_range_cons. intros (s1 & H1 & H2)%bind_Ok.
    apply applyMaturedSiacoinOutput_Ok in H1 as [-> _].
    rewrite (IH _ _ _ H2), present_commitDelayed, delayed_commitSiacoinOutput.
    simpl. intuition (subst; auto; congruence).
Qed.

Lemma present_applyMaturedSiacoinOutputs dbg l cs bn cs' bn' h :
  applyMaturedSiacoinOutputs dbg l (cs, bn) = Ok (cs', bn') →
  is_Some (delayedSiacoinOutputs cs' !! h) ↔
  ¬ (h = height bn ∧ MaturityDelay < height bn) ∧
  is_Some (delayedSiacoinOutputs cs !! h).
Proof.
  unfold applyMaturedSiacoinOutputs. simpl.
  destruct (N.ltb_spec MaturityDelay (height bn)) as [HH|HH]; simpl.
  - intros ([cs1 bn1] & H1 & H2)%bind_Ok.
    pose proof (present_matured_loop _ _ _ _ _ _ _ h H1) as Hp.
    apply matured_loop in H1 as (_ & _ & _ & Hl & _).
    apply deleteMaturedBucket_Ok in H2 as [= -> ->].
    assert (Hh : height bn1 = height bn) by (by destruct Hl as (_ & ? & _)).
    simpl. rewrite lookup_delete_is_Some, Hp, Hh. intuition (subst; auto; congruence).
  - intros [= <- <-]. split; [|by intros [_ ?]].
    intros Hp. split; [|done]. intros [_ Hlt]. by apply N.lt_nge in Hlt.
Qed.

Lemma present_missed_loop dbg es i cs bn cs' bn' h :
  NoDup es.*1 →
  (∀ e, e ∈ es → fileContracts cs !! e.1 = Some e.2) →
  for_range (λ _ id s, applyMissedStorageProof dbg id s) i es.*1 (cs, bn)
    = Ok (cs', bn') →
  is_Some (delayedSiacoinOutputs cs' !! h) ↔
  (h = height_add (height bn) MaturityDelay ∧ es ≫= missedProofEntries ≠ []) ∨
  is_Some (delayedSiacoinOutputs cs !! h).
Proof.
  revert i cs bn. induction es as [|e es IH]; intros i cs bn Hnd Hes.
  - intros [= <- <-]. simpl. intuition (subst; auto; congruence).
  - rewrite fmap_cons, for_range_cons. intros ([cs1 bn1] & H1 & H2)%bind_Ok.
    apply applyMissedStorageProof_Ok in H1 as (-> & Hl1 & _).
    rewrite (Hes e) in Hl1, H2 by left. simpl in Hl1, H2.
    replace (e.1, e.2) with e in * by by destruct e.
    rewrite fmap_cons in Hnd. apply NoDup_cons in Hnd as [Hne Hnd].
    assert (Hh1 : height bn1 = height bn) by (by destruct Hl1 as (_ & ? & _)).
    apply IH in H2; [|done|].
    2:{ intros e' He'. simpl. rewrite fileContracts_applyDelayed.
        rewrite lookup_delete_ne; [apply Hes; by right|].
        intros Heq. apply Hne. rewrite Heq. by apply list_elem_of_fmap_2. }
    rewrite H2, Hh1. simpl. rewrite present_applyDelayed_payouts.
    change ((e :: es) ≫= missedProofEntries)
      with (missedProofEntries e ++ (es ≫= missedProofEntries)).
    destruct (missedProofEntries e); simpl; intuition (subst; auto; congruence).
Qed.

Lemma present_applyFileContractMaintenance dbg order cs bn cs' bn' h :
  map_range (fileContracts cs) order →
  applyFileContractMaintenance dbg order (cs, bn) = Ok (cs', bn') →
  is_Some (delayedSiacoinOutputs cs' !! h) ↔
  (h = height_add (height bn) MaturityDelay ∧
   expiredFileContracts (height bn) order ≫= missedProofEntries ≠ []) ∨
  is_Some (delayedSiacoinOutputs cs !! h).
Proof.
  intros Hr. rewrite applyFileContractMaintenance_scan.
  intros (st & _ & Hloop)%bind_Ok. simpl in Hloop.
  apply (present_missed_loop _ _ _ _ _ _ _ h) in Hloop; [done| |].
  - by eapply expiredFileContracts_NoDup.
  - intros e He. by eapply elem_of_expiredFileContracts in He as [? _].
Qed.

(** A key of the index is settled by the contents of its bucket and by
    whether it is there. *)
Lemma delayed_lookup_eq cs1 cs2 h :
  bucket cs1 h = bucket cs2 h →
  (is_Some (delayedSiacoinOutputs cs1 !! h) ↔ is_Some (delayedSiacoinOutputs cs2 !! h)) →
  delayedSiacoinOutputs cs1 !! h = delayedSiacoinOutputs cs2 !! h.
Proof.
  unfold bucket. intros Hb Hp.
  destruct (delayedSiacoinOutputs cs1 !! h) as [b1|] eqn:H1,
           (delayedSiacoinOutputs cs2 !! h) as [b2|] eqn:H2; simpl in *.
  - by subst.
  - destruct Hp as [Hp _]. by destruct Hp.
  - destruct Hp as [_ Hp]. by destruct Hp.
  - done.
Qed.

Lemma present_bucket_nonempty cs h :
  bucket cs h ≠ ∅ → is_Some (delayedSiacoinOutputs cs !! h).
Proof.
  unfold bucket. destruct (delayedSiacoinOutputs cs !! h); [by eexists|done].
Qed.

Lemma ConsensusSet_eq cs1 cs2 :
  siacoinOutputs cs1 = siacoinOutputs cs2 →
  delayedSiacoinOutputs cs1 = delayedSiacoinOutputs cs2 →
  fileContracts cs1 = fileContracts cs2 →
  cs1 = cs2.
Proof. destruct cs1, cs2. simpl. by intros -> -> ->. Qed.

Lemma map_range_nonempty {V : Type} (m : gmap N V) l :
  map_range m l → l ≠ [] → m ≠ ∅.
Proof.
  unfold map_range. intros Hr Hl ->. rewrite map_to_list_empty in Hr.
  by apply Permutation_nil_r in Hr.
Qed.

(** The heights that have a bucket once a pass has been rewound: the
    block height if something matured, the maturity height of the block
    if a contract queued an output, and otherwise the heights that had
    one before the pass or got one from a miner payout, the block height
    excepted when the pass deleted its bucket. *)
Lemma present_rewound dorder forder cs bn cs' bn' sds fds h :
  maintenance_orders true dorder forder (cs, bn) →
  applyMaintenance true dorder forder (cs, bn) = Ok (cs', bn') →
  let H := height bn in
  let T := height_add H MaturityDelay in
  let P := minerPayoutEntries (block bn) in
  let L := if MaturityDelay <? H then dorder else [] in
  let M := expiredFileContracts H forder ≫= missedProofEntries in
  is_Some (delayedSiacoinOutputs
             (revertSiacoinOutputDiffs sds
                (revertDelayedSiacoinOutputDiffs
                   (((payoutDiff T <$> P) ++ (maturedDelayedDiff H <$> L)) ++
                    (payoutDiff T <$> M))
                   (revertFileContractDiffs fds cs'))) !! h) ↔
  (h = H ∧ L ≠ []) ∨ (h = T ∧ M ≠ []) ∨
  (¬ (h = H ∧ MaturityDelay < H) ∧
   ((h = T ∧ P ≠ []) ∨ is_Some (delayedSiacoinOutputs cs !! h))).
Proof.
  intros Hord Hrun H T P L M.
  destruct (applyMaintenance_phases _ _ _ _ _ _ _ Hord Hrun)
    as (cs1 & bn1 & cs2 & bn2 & H1 & H2 & H3 & Hrd & Hrf).
  pose proof (present_applyMinerPayouts _ _ _ _ _ h H1) as Hp1.
  pose proof (present_applyMaturedSiacoinOutputs _ _ _ _ _ _ h H2) as Hp2.
  pose proof (present_applyFileContractMaintenance _ _ _ _ _ _ h Hrf H3) as Hp3.
  apply applyMinerPayouts_Ok in H1 as (_ & _ & _ & Hl1 & _).
  apply applyMaturedSiacoinOutputs_summary in H2 as (_ & _ & _ & Hl2 & _).
  assert (Hh1 : height bn1 = height bn) by (by destruct Hl1 as (_ & ? & _)).
  assert (Hh2 : height bn2 = height bn).
  { destruct Hl2 as (_ & ? & _). congruence. }
  rewrite Hh1 in Hp2. rewrite Hh2 in Hp3.
  rewrite delayed_revertSiacoinOutputDiffs, !revertDelayedSiacoinOutputDiffs_app.
  rewrite present_revert_payouts, present_revert_matured, present_revert_payouts.
  rewrite delayed_revertFileContractDiffs, Hp3, Hp2, Hp1.
  fold H T P M. tauto.
Qed.

(** C1, as amended.  When a maintenance pass with the debug checks on
    returns, the pass without the checks returns the same state, and
    committing the diffs that the pass appended to the three logs in
    direction [DiffRevert], each log last to first, gives back exactly the
    mature outputs and the contracts that the pass started from, and
    exactly the contents of every delayed bucket.  The index of the
    buckets comes back key for key at every height other than the block
    height [H] (when it is above the maturity delay) and the maturity
    height [T] of the block, and at every height whose bucket was not
    empty; at the two other heights a bucket that was absent may come back
    empty and a bucket that was empty may come back absent, and nothing
    else can differ.  The whole consensus set is the one the pass started
    from if the bucket at [T] was there before the pass or the pass queued
    no output, and, for [H] above the maturity delay, the bucket at [H]
    was not there and empty; unless [T] is [H] and [H] is above the delay,
    these two conditions are also necessary. *)
Theorem applyMaintenance_revert dbg dorder forder cs bn cs' bn' :
  maintenance_orders true dorder forder (cs, bn) →
  applyMaintenance true dorder forder (cs, bn) = Ok (cs', bn') →
  let H := height bn in
  let T := height_add H MaturityDelay in
  let P := minerPayoutEntries (block bn) in
  let M := expiredFileContracts H forder ≫= missedProofEntries in
  applyMaintenance dbg dorder forder (cs, bn) = Ok (cs', bn') ∧
  ∃ sds dds fds,
    logs_extended bn bn' sds dds fds ∧
    let R := revertSiacoinOutputDiffs sds
               (revertDelayedSiacoinOutputDiffs dds
                  (revertFileContractDiffs fds cs')) in
    siacoinOutputs R = siacoinOutputs cs ∧
    (∀ h, bucket R h = bucket cs h) ∧
    fileContracts R = fileContracts cs ∧
    (∀ h, h ≠ T → ¬ (h = H ∧ MaturityDelay < H) →
       delayedSiacoinOutputs R !! h = delayedSiacoinOutputs cs !! h) ∧
    (∀ h, bucket cs h ≠ ∅ →
       delayedSiacoinOutputs R !! h = delayedSiacoinOutputs cs !! h) ∧
    (∀ h, delayedSiacoinOutputs R !! h = delayedSiacoinOutputs cs !! h ∨
          (delayedSiacoinOutputs R !! h = Some ∅ ∧
           delayedSiacoinOutputs cs !! h = None) ∨
          (delayedSiacoinOutputs R !! h = None ∧
           delayedSiacoinOutputs cs !! h = Some ∅)) ∧
    ((is_Some (delayedSiacoinOutputs cs !! T) ∨ (P = [] ∧ M = [])) →
     (MaturityDelay < H → delayedSiacoinOutputs cs !! H ≠ Some ∅) →
     R = cs) ∧
    (¬ (T = H ∧ MaturityDelay < H) → R = cs →
     (is_Some (delayedSiacoinOutputs cs !! T) ∨ (P = [] ∧ M = [])) ∧
     (MaturityDelay < H → delayedSiacoinOutputs cs !! H ≠ Some ∅)).
Proof.
  intros Hord Hrun H T P M. split; [by apply applyMaintenance_mono|].
  pose proof (λ sds fds h, present_rewound _ _ _ _ _ _ sds fds h Hord Hrun) as HpR.
  destruct (applyMaintenance_phases _ _ _ _ _ _ _ Hord Hrun)
    as (cs1 & bn1 & cs2 & bn2 & H1 & H2 & H3 & Hrd & Hrf).
  apply applyMinerPayouts_Ok in H1 as (Hs1 & Hb1 & Hf1 & Hl1 & Hfr1).
  apply applyMaturedSiacoinOutputs_summary in H2 as (Hs2 & Hb2 & Hf2 & Hl2 & Hfr2).
  apply applyFileContractMaintenance_Ok in H3 as (Hs3 & Hb3 & Hf3 & Hl3 & Hfr3);
    [|done].
  assert (Hh1 : height bn1 = height bn) by (by destruct Hl1 as (_ & ? & _)).
  assert (Hh2 : height bn2 = height bn).
  { destruct Hl2 as (_ & ? & _). congruence. }
  rewrite Hh1 in Hrd, Hs2, Hb2, Hl2, Hfr2. rewrite Hh2 in Hb3, Hf3, Hl3, Hfr3.
  destruct (Hfr1 eq_refl) as [_ Hfresh1]. specialize (Hfr2 eq_refl).
  destruct (Hfr3 eq_refl) as (_ & Hfresh3 & _).
  pose proof (logs_extended_trans _ _ _ _ _ _ _ _ _
                (logs_extended_trans _ _ _ _ _ _ _ _ _ Hl1 Hl2) Hl3) as Hl.
  eexists _, _, _. split; [exact Hl|]. clear Hl Hl1 Hl2 Hl3.
  intros R.
  assert (HsR : siacoinOutputs R = siacoinOutputs cs).
  { unfold R. rewrite app_nil_l, app_nil_r, siacoinOutputs_revert_matured.
    rewrite siacoinOutputs_revertDelayed, siacoinOutputs_revertFileContractDiffs.
    rewrite Hs3, Hs2, Hs1. apply delete_all_insert_all.
    + intros id. apply elem_of_reverse.
    + intros id Hid. rewrite <- Hs1. by apply Hfr2. }
  assert (HbR : ∀ h, bucket R h = bucket cs h).
  { intros h. unfold R. rewrite bucket_revertSiacoinOutputDiffs.
    rewrite !revertDelayedSiacoinOutputDiffs_app.
    apply (revert_payouts_restores _ _ cs cs1); [done| |].
    + apply (revert_matured_restores _ (MaturityDelay <? height bn) _ cs1 cs2).
      * intros _. done.
      * intros h'. rewrite Hb2. apply decide_ext. by rewrite N.ltb_lt.
      * apply (revert_payouts_restores _ _ cs2 cs'); [done| |].
        -- intros h'. apply bucket_revertFileContractDiffs.
        -- intros id Hid. by apply Hfresh3.
    + intros id Hid. by apply Hfresh1. }
  assert (HfR : fileContracts R = fileContracts cs).
  { unfold R.
    rewrite fileContracts_revertSiacoinOutputDiffs, fileContracts_revertDelayed.
    rewrite !app_nil_l, fileContracts_revert_missed, Hf3, Hf2, Hf1.
    rewrite Hf2, Hf1 in Hrf. apply insert_all_delete_all.
    + by eapply expiredFileContracts_NoDup.
    + intros e He. by apply (elem_of_expiredFileContracts _ _ _ _ Hrf) in He as [? _]. }
  assert (HpR' : ∀ h, is_Some (delayedSiacoinOutputs R !! h) ↔
            (h = H ∧ MaturityDelay < H ∧ bucket cs1 H ≠ ∅) ∨ (h = T ∧ M ≠ []) ∨
            (¬ (h = H ∧ MaturityDelay < H) ∧
             ((h = T ∧ P ≠ []) ∨ is_Some (delayedSiacoinOutputs cs !! h)))).
  { intros h. unfold R. rewrite HpR. fold H T P M.
    assert ((if MaturityDelay <? H then dorder else []) ≠ [] ↔
            MaturityDelay < H ∧ bucket cs1 H ≠ ∅) as ->; [|done].
    destruct (N.ltb_spec MaturityDelay H) as [HH|HH].
    - split.
      + intros Hne. split; [done|]. by eapply map_range_nonempty.
      + intros [_ Hne] ->. apply Hne. apply map_empty. intros id.
        apply eq_None_not_Some. intros [v Hv].
        apply (map_range_elem_of _ _ _ _ Hrd) in Hv. by apply elem_of_nil in Hv.
    - split; [done|]. intros [Hlt _]. by apply N.lt_nge in Hlt. }
  clear HpR.
  assert (Hne : ∀ h, bucket cs h ≠ ∅ →
            delayedSiacoinOutputs R !! h = delayedSiacoinOutputs cs !! h).
  { intros h Hb. apply delayed_lookup_eq; [done|].
    split; intros _; apply present_bucket_nonempty; [done|]. by rewrite HbR. }
  split_and!; try done.
  - intros h HT HH. apply delayed_lookup_eq; [done|]. rewrite HpR'. tauto.
  - intros h. specialize (HbR h). unfold bucket in HbR.
    destruct (delayedSiacoinOutputs R !! h) as [b1|],
             (delayedSiacoinOutputs cs !! h) as [b2|]; simpl in HbR; subst; auto.
  - intros Hc1 Hc2. apply ConsensusSet_eq; [done| |done].
    apply map_eq. intros h.
    destruct (decide (bucket cs h = ∅)) as [Hemp|Hnemp]; [|by apply Hne].
    apply delayed_lookup_eq; [done|]. rewrite HpR'.
    assert (Hcs : is_Some (delayedSiacoinOutputs cs !! h) →
              delayedSiacoinOutputs cs !! h = Some ∅).
    { unfold bucket in Hemp. intros [b Hb]. rewrite Hb in Hemp. simpl in Hemp.
      by rewrite Hb, Hemp. }
    assert (Hb1H : h = H → bucket cs1 H ≠ ∅ →
              ¬ is_Some (delayedSiacoinOutputs cs !! h) → False).
    { intros -> Hb1ne Hnp. apply Hb1ne. rewrite Hb1.
      destruct (decide (H = T)) as [HT|HT];
        [rewrite decide_True by exact HT|by rewrite decide_False by exact HT].
      destruct Hc1 as [Hc1|[HP HM]]; [by rewrite <- HT in Hc1|].
      fold P. rewrite HP. change (bucket cs T = ∅). by rewrite <- HT. }
    destruct (decide (h = H ∧ MaturityDelay < H)) as [[-> HH]|Hnot].
    + assert (¬ is_Some (delayedSiacoinOutputs cs !! H)) as Hnp.
      { intros Hp. by apply (Hc2 HH), Hcs. }
      split; [|done]. intros [(_ & _ & Hb1ne)|[[HT HM]|[Hc _]]].
      * by destruct (Hb1H eq_refl Hb1ne Hnp).
      * destruct Hc1 as [Hc1|[_ HM']]; [by rewrite <- HT in Hc1|done].
      * destruct Hc. by split.
    + destruct Hc1 as [Hc1|[HP HM]].
      * destruct (decide (h = T)) as [->|HT]; tauto.
      * tauto.
  - intros Hnormal HR. assert (Hidx : delayedSiacoinOutputs R = delayedSiacoinOutputs cs)
      by (by rewrite HR).
    split.
    + assert (HPM : P = [] ∧ M = [] ∨ P ≠ [] ∨ M ≠ []).
      { generalize P, M. intros [|p P'] [|m M']; [by left|right..];
          [by right|by left|by left]. }
      destruct HPM as [HPM|HPM]; [by right|].
      left. rewrite <- Hidx. apply HpR'. tauto.
    + intros HH Hemp.
      assert (is_Some (delayedSiacoinOutputs R !! H)) as Hp
        by (rewrite Hidx, Hemp; by eexists).
      apply HpR' in Hp as [(_ & _ & Hb1ne)|[[HT _]|[Hc _]]].
      * apply Hb1ne. rewrite Hb1.
        rewrite decide_False by (intros HT; apply Hnormal; by split).
        unfold bucket. by rewrite Hemp.
      * apply Hnormal. by split.
      * apply Hc. by split.
Qed.

(** ** Mature and delayed outputs stay apart *)

Lemma is_Some_insert_all {V : Type} (items : list (N * V)) m id :
  is_Some (insert_all items m !! id) → id ∈ items.*1 ∨ is_Some (m !! id).
Proof.
  intros Hsome. destruct (decide (id ∈ items.*1)) as [Hin|Hnin]; [by left|].
  right. by rewrite lookup_insert_all_notin in Hsome.
Qed.

Lemma queue_keeps_disjoint T items cs cs' :
  siacoinOutputs cs' = siacoinOutputs cs →
  (∀ h, bucket cs' h =
        if decide (h = T) then insert_all items (bucket cs T) else bucket cs h) →
  (∀ id, id ∈ items.*1 → siacoinOutputs cs !! id = None) →
  mature_delayed_disjoint cs → mature_delayed_disjoint cs'.
Proof.
  intros Hs Hb Hfresh Hdis id h Hmature. rewrite Hs in Hmature. rewrite Hb.
  case_decide as Hh; [|by apply Hdis].
  rewrite lookup_insert_all_notin; [by apply Hdis|].
  intros Hin. rewrite (Hfresh id Hin) in Hmature. by destruct Hmature.
Qed.

Lemma applyMinerPayouts_disjoint cs bn cs' bn' :
  mature_delayed_disjoint cs →
  applyMinerPayouts true (cs, bn) = Ok (cs', bn') →
  mature_delayed_disjoint cs'.
Proof.
  intros Hdis (Hs & Hb & _ & _ & Hfr)%applyMinerPayouts_Ok.
  destruct (Hfr eq_refl) as [_ Hfresh].
  eapply queue_keeps_disjoint; [done..| |done].
  intros id Hid. by apply Hfresh.
Qed.

Lemma applyMaturedSiacoinOutputs_disjoint dbg order cs bn cs' bn' :
  map_range (bucket cs (height bn)) order →
  mature_delayed_disjoint cs →
  bucket_exclusive cs (height bn) →
  applyMaturedSiacoinOutputs dbg order (cs, bn) = Ok (cs', bn') →
  mature_delayed_disjoint cs'.
Proof.
  intros Hr Hdis Hex (Hs & Hb & _)%applyMaturedSiacoinOutputs_summary.
  intros id h Hmature. rewrite Hb.
  destruct (decide (h = height bn ∧ MaturityDelay < height bn)) as [Hh|Hh];
    [apply lookup_empty|].
  rewrite Hs in Hmature. apply is_Some_insert_all in Hmature as [Hin|Hm];
    [|by apply Hdis].
  destruct (N.ltb_spec MaturityDelay (height bn)) as [HH|HH];
    [|by apply elem_of_nil in Hin].
  apply list_elem_of_fmap in Hin as ([id' v] & -> & Hin).
  apply (map_range_elem_of _ _ _ _ Hr) in Hin. simpl.
  apply Hex; [|by eexists]. intros ->. by apply Hh.
Qed.

Lemma applyFileContractMaintenance_disjoint order cs bn cs' bn' :
  map_range (fileContracts cs) order →
  mature_delayed_disjoint cs →
  applyFileContractMaintenance true order (cs, bn) = Ok (cs', bn') →
  mature_delayed_disjoint cs'.
Proof.
  intros Hr Hdis (Hs & Hb & _ & _ & Hfr)%applyFileContractMaintenance_Ok; [|done].
  destruct (Hfr eq_refl) as (_ & Hfresh & _).
  eapply queue_keeps_disjoint; [done..| |done].
  intros id Hid. by apply Hfresh.
Qed.

Lemma applyMinerPayouts_exclusive dbg cs bn cs' bn' :
  bucket_exclusive cs (height bn) → payouts_exclusive cs bn →
  applyMinerPayouts dbg (cs, bn) = Ok (cs', bn') →
  bucket_exclusive cs' (height bn).
Proof.
  intros Hex Hpay (_ & Hb & _)%applyMinerPayouts_Ok.
  assert (Hpay' : ∀ id h, id ∈ (minerPayoutEntries (block bn)).*1 →
            h ≠ height_add (height bn) MaturityDelay → bucket cs h !! id = None).
  { intros id h ([id' v] & -> & Hin)%list_elem_of_fmap Hh. by apply (Hpay _ _ Hin). }
  intros id h Hh Hsome. rewrite Hb in Hsome. rewrite Hb.
  destruct (decide (height bn = _)) as [HT|HT].
  - rewrite decide_False by congruence.
    apply is_Some_insert_all in Hsome as [Hin|Hsome].
    + apply Hpay'; [done|congruence].
    + rewrite <- HT in Hsome. by apply Hex.
  - assert (id ∉ (minerPayoutEntries (block bn)).*1) as Hnin.
    { intros Hin. rewrite (Hpay' id (height bn) Hin HT) in Hsome. by destruct Hsome. }
    case_decide; [|by apply Hex].
    rewrite lookup_insert_all_notin by done. apply Hex; [congruence|done].
Qed.

(** C2, as amended.  Starting from a consensus set in which no identifier
    is both a mature output and in a delayed bucket, the same holds of the
    consensus set that is returned: by [applyMinerPayouts] and by
    [applyFileContractMaintenance] run with the debug checks on; by
    [applyMaturedSiacoinOutputs], in either build, provided no identifier
    of the bucket at the block height is in another bucket; by
    [applyMaintenance] run with the debug checks on, provided no identifier
    of the bucket at the block height is in another bucket and no miner
    payout identifier of the block is in a bucket other than its own. *)
Theorem maintenance_keeps_mature_delayed_disjoint :
  (∀ cs bn cs' bn',
     mature_delayed_disjoint cs →
     applyMinerPayouts true (cs, bn) = Ok (cs', bn') →
     mature_delayed_disjoint cs') ∧
  (∀ dbg order cs bn cs' bn',
     map_range (bucket cs (height bn)) order →
     mature_delayed_disjoint cs →
     bucket_exclusive cs (height bn) →
     applyMaturedSiacoinOutputs dbg order (cs, bn) = Ok (cs', bn') →
     mature_delayed_disjoint cs') ∧
  (∀ order cs bn cs' bn',
     map_range (fileContracts cs) order →
     mature_delayed_disjoint cs →
     applyFileContractMaintenance true order (cs, bn) = Ok (cs', bn') →
     mature_delayed_disjoint cs') ∧
  (∀ dorder forder cs bn cs' bn',
     maintenance_orders true dorder forder (cs, bn) →
     mature_delayed_disjoint cs →
     bucket_exclusive cs (height bn) →
     payouts_exclusive cs bn →
     applyMaintenance true dorder forder (cs, bn) = Ok (cs', bn') →
     mature_delayed_disjoint cs').
Proof.
  split_and!.
  - apply applyMinerPayouts_disjoint.
  - apply applyMaturedSiacoinOutputs_disjoint.
  - apply applyFileContractMaintenance_disjoint.
  - intros dorder forder cs bn cs' bn' Hord Hdis Hex Hpay Hrun.
    destruct (applyMaintenance_phases _ _ _ _ _ _ _ Hord Hrun)
      as (cs1 & bn1 & cs2 & bn2 & H1 & H2 & H3 & Hrd & Hrf).
    assert (Hh1 : height bn1 = height bn).
    { apply applyMinerPayouts_Ok in H1 as (_ & _ & _ & Hl & _).
      by destruct Hl as (_ & ? & _). }
    rewrite Hh1 in Hrd.
    eapply applyFileContractMaintenance_disjoint; [done| |done].
    eapply applyMaturedSiacoinOutputs_disjoint; [| | |done].
    + by rewrite Hh1.
    + by eapply applyMinerPayouts_disjoint.
    + rewrite Hh1. by eapply applyMinerPayouts_exclusive.
Qed.

(** ** The logs of two passes *)

(** C3, as amended.  Two maintenance passes on the same block node and
    the same consensus set, each visiting its maps in some order, produce
    logs with the same entries, each entry as many times in one as in the
    other: the three logs of one pass are permutations of the three logs
    of the other.  (Only the order of the entries recorded by the two
    loops over maps can differ.) *)
Theorem applyMaintenance_logs_permutation dbg dorder1 forder1 dorder2 forder2
    cs bn cs1 bn1 cs2 bn2 :
  maintenance_orders dbg dorder1 forder1 (cs, bn) →
  maintenance_orders dbg dorder2 forder2 (cs, bn) →
  applyMaintenance dbg dorder1 forder1 (cs, bn) = Ok (cs1, bn1) →
  applyMaintenance dbg dorder2 forder2 (cs, bn) = Ok (cs2, bn2) →
  siacoinOutputDiffs bn1 ≡ₚ siacoinOutputDiffs bn2 ∧
  delayedSiacoinOutputDiffs bn1 ≡ₚ delayedSiacoinOutputDiffs bn2 ∧
  fileContractDiffs bn1 ≡ₚ fileContractDiffs bn2.
Proof.
  intros Hord1 Hord2 Hrun1 Hrun2.
  destruct (applyMaintenance_phases _ _ _ _ _ _ _ Hord1 Hrun1)
    as (csa & bna & csb & bnb & H1 & H2 & H3 & Hrd & Hrf).
  destruct (applyMaintenance_phases _ _ _ _ _ _ _ Hord2 Hrun2)
    as (csa' & bna' & csb' & bnb' & H1' & H2' & H3' & Hrd' & Hrf').
  rewrite H1 in H1'. injection H1' as <- <-.
  assert (Hd : dorder1 ≡ₚ dorder2) by (unfold map_range in *; by rewrite Hrd, Hrd').
  apply applyMinerPayouts_Ok in H1 as (_ & _ & Hf1 & Hl1 & _).
  apply applyMaturedSiacoinOutputs_summary in H2 as (_ & _ & Hf2 & Hl2 & _).
  apply applyMaturedSiacoinOutputs_summary in H2' as (_ & _ & Hf2' & Hl2' & _).
  assert (Hf : forder1 ≡ₚ forder2).
  { unfold map_range in *. by rewrite Hrf, Hrf', Hf2, Hf2'. }
  apply applyFileContractMaintenance_Ok in H3 as (_ & _ & _ & Hl3 & _); [|done].
  apply applyFileContractMaintenance_Ok in H3' as (_ & _ & _ & Hl3' & _); [|done].
  assert (Hhb : height bnb = height bna) by (by destruct Hl2 as (_ & ? & _)).
  assert (Hhb' : height bnb' = height bna) by (by destruct Hl2' as (_ & ? & _)).
  rewrite Hhb in Hl3. rewrite Hhb' in Hl3'.
  pose proof (logs_extended_trans _ _ _ _ _ _ _ _ _
                (logs_extended_trans _ _ _ _ _ _ _ _ _ Hl1 Hl2) Hl3)
    as (_ & _ & -> & -> & ->).
  pose proof (logs_extended_trans _ _ _ _ _ _ _ _ _
                (logs_extended_trans _ _ _ _ _ _ _ _ _ Hl1 Hl2') Hl3')
    as (_ & _ & -> & -> & ->).
  assert (Hes : expiredFileContracts (height bna) forder1
                ≡ₚ expiredFileContracts (height bna) forder2).
  { unfold expiredFileContracts. by rewrite Hf. }
  split_and!.
  - destruct (_ <? _); [|done]. by rewrite Hd.
  - rewrite Hes. destruct (_ <? _); [|done]. by rewrite Hd.
  - by rewrite Hes.
Qed.

(** ** Beyond the claims: builds, panics and repeated runs *)

Lemma insert_all_Permutation {V : Type} (l1 l2 : list (N * V)) m :
  NoDup l1.*1 → l1 ≡ₚ l2 → insert_all l1 m = insert_all l2 m.
Proof.
  intros Hnd Hp. assert (Hnd2 : NoDup l2.*1) by (by rewrite <- Hp).
  apply map_eq. intros id.
  destruct (decide (id ∈ l1.*1)) as [Hin|Hnin].
  - apply list_elem_of_fmap in Hin as ([id' v] & -> & Hin). simpl.
    rewrite (lookup_insert_all_NoDup l1 m id' v) by done.
    rewrite (lookup_insert_all_NoDup l2 m id' v); [done..|by rewrite <- Hp].
  - rewrite !lookup_insert_all_notin; [done|by rewrite <- Hp|done].
Qed.

Lemma insert_all_range {V : Type} (b m : gmap N V) l :
  map_range b l → insert_all l m = b ∪ m.
Proof.
  intros Hr. apply map_eq. intros id.
  destruct (b !! id) as [v|] eqn:Hb.
  - rewrite (lookup_union_Some_l _ _ _ _ Hb).
    apply lookup_insert_all_NoDup; [by eapply map_range_NoDup|].
    by apply (map_range_elem_of _ _ _ _ Hr).
  - rewrite lookup_union_r by done. apply lookup_insert_all_notin.
    intros ([id' v] & -> & Hin)%list_elem_of_fmap.
    apply (map_range_elem_of _ _ _ _ Hr) in Hin. simpl in Hb. congruence.
Qed.

Lemma map_range_empty {V : Type} (m : gmap N V) l :
  m = ∅ → map_range m l → l = [].
Proof.
  intros -> Hr. unfold map_range in Hr. rewrite map_to_list_empty in Hr.
  by apply Permutation_nil_r.
Qed.

Lemma applyMaturedSiacoinOutputs_absent dbg order cs bn :
  delayedSiacoinOutputs cs !! height bn = None →
  map_range (bucket cs (height bn)) order →
  applyMaturedSiacoinOutputs dbg order (cs, bn) = Ok (cs, bn).
Proof.
  intros Habs Hr.
  assert (Hb : bucket cs (height bn) = ∅) by (unfold bucket; by rewrite Habs).
  apply (map_range_empty _ _ Hb) in Hr as ->.
  unfold applyMaturedSiacoinOutputs. simpl. destruct (negb _); [done|]. simpl.
  unfold deleteMaturedBucket. rewrite Hb, map_size_empty. simpl.
  unfold set_delayedSiacoinOutputs. rewrite delete_id by done.
  destruct dbg; by destruct cs.
Qed.

Lemma expiredFileContracts_none H (m : gmap N FileContract) order :
  map_range m order →
  (∀ fcid fc, m !! fcid = Some fc → WindowEnd fc ≠ H) →
  expiredFileContracts H order = [].
Proof.
  intros Hr Hnone. destruct (expiredFileContracts H order) as [|e es] eqn:Hes; [done|].
  assert (He : e ∈ expiredFileContracts H order) by (rewrite Hes; left).
  apply (elem_of_expiredFileContracts _ _ _ _ Hr) in He as [Hfc Hw].
  by destruct (Hnone _ _ Hfc).
Qed.

Lemma applyFileContractMaintenance_quiet dbg order cs bn :
  map_range (fileContracts cs) order →
  (∀ fcid fc, fileContracts cs !! fcid = Some fc → WindowEnd fc ≠ height bn) →
  (dbg = true →
     ∀ fcid fc, fileContracts cs !! fcid = Some fc → height bn ≤ WindowEnd fc) →
  applyFileContractMaintenance dbg order (cs, bn) = Ok (cs, bn).
Proof.
  intros Hr Hnone Hle. rewrite applyFileContractMaintenance_scan.
  rewrite scan_loop_intro.
  - simpl. by rewrite (expiredFileContracts_none _ _ _ Hr Hnone).
  - intros Hd [fcid fc] He. apply (map_range_elem_of _ _ _ _ Hr) in He.
    by apply (Hle Hd fcid fc).
Qed.

Lemma applyMissedStorageProof_Panic dbg fcid fc cs bn e :
  fileContracts cs !! fcid = Some fc → WindowEnd fc = height bn →
  applyMissedStorageProof dbg fcid (cs, bn) = Panic e → e = errPayoutsAlreadyPaid.
Proof.
  intros Hfc Hw. unfold applyMissedStorageProof. rewrite Hfc. simpl.
  apply N.eqb_eq in Hw. rewrite Hw.
  destruct dbg; simpl; rewrite applyMissedProofOutput_delayedPayout;
    (destruct (for_range _ 0 (MissedProofOutputs fc) (cs, bn)) as [[cs1 bn1]|e1] eqn:Hl;
     simpl; [done|]; intros [= <-]; by eapply delayedPayout_loop_Panic).
Qed.

Lemma missed_loop_Panic dbg es i cs bn e :
  NoDup es.*1 →
  (∀ x, x ∈ es → fileContracts cs !! x.1 = Some x.2 ∧ WindowEnd x.2 = height bn) →
  for_range (λ _ id s, applyMissedStorageProof dbg id s) i es.*1 (cs, bn) = Panic e →
  e = errPayoutsAlreadyPaid.
Proof.
  revert i cs bn. induction es as [|x es IH]; intros i cs bn Hnd Hes; [done|].
  rewrite fmap_cons, for_range_cons.
  rewrite fmap_cons in Hnd. apply NoDup_cons in Hnd as [Hne Hnd].
  destruct (Hes x) as [Hx Hwx]; [by left|].
  destruct (applyMissedStorageProof dbg x.1 (cs, bn)) as [[cs1 bn1]|e1] eqn:H1; simpl.
  - apply applyMissedStorageProof_Ok in H1 as (-> & Hl1 & _).
    assert (Hh1 : height bn1 = height bn) by (by destruct Hl1 as (_ & ? & _)).
    apply IH; [done|]. intros y Hy. rewrite Hh1. simpl.
    rewrite fileContracts_applyDelayed.
    rewrite lookup_delete_ne; [apply Hes; by right|].
    intros Heq. apply Hne. rewrite Heq. by apply list_elem_of_fmap_2.
  - intros [= <-]. by eapply applyMissedStorageProof_Panic.
Qed.

(** X1. With the debug checks off no maintenance operation panics:
    whatever the state and whatever orders are offered for the map loops,
    each of the five functions returns. *)
Theorem maintenance_nodebug_returns :
  (∀ s, ∃ s', applyMinerPayouts false s = Ok s') ∧
  (∀ order s, ∃ s', applyMaturedSiacoinOutputs false order s = Ok s') ∧
  (∀ fcid s, ∃ s', applyMissedStorageProof false fcid s = Ok s') ∧
  (∀ order s, ∃ s', applyFileContractMaintenance false order s = Ok s') ∧
  (∀ dorder forder s, ∃ s', applyMaintenance false dorder forder s = Ok s').
Proof.
  split_and!.
  - intros [cs bn]. by apply applyMinerPayouts_intro.
  - apply applyMaturedSiacoinOutputs_nodebug.
  - apply applyMissedStorageProof_nodebug.
  - apply applyFileContractMaintenance_nodebug.
  - intros dorder forder [cs bn]. unfold applyMaintenance.
    destruct (applyMinerPayouts_intro false cs bn) as [s1 ->]; [done|]. simpl.
    destruct (applyMaturedSiacoinOutputs_nodebug dorder s1) as [s2 ->]. simpl.
    apply applyFileContractMaintenance_nodebug.
Qed.

(** X2. The debug checks only add panics: when one of the operations
    returns with the checks on, it returns the same state with the checks
    off. *)
Theorem debug_checks_only_restrict :
  (∀ s s', applyMinerPayouts true s = Ok s' → applyMinerPayouts false s = Ok s') ∧
  (∀ order s s',
     applyMaturedSiacoinOutputs true order s = Ok s' →
     applyMaturedSiacoinOutputs false order s = Ok s') ∧
  (∀ fcid s s',
     applyMissedStorageProof true fcid s = Ok s' →
     applyMissedStorageProof false fcid s = Ok s') ∧
  (∀ order s s',
     applyFileContractMaintenance true order s = Ok s' →
     applyFileContractMaintenance false order s = Ok s').
Proof.
  split_and!.
  - intros s s'. apply applyMinerPayouts_mono.
  - intros order s s'. apply applyMaturedSiacoinOutputs_mono.
  - intros fcid s s'. apply applyMissedStorageProof_mono.
  - intros order s s'. apply applyFileContractMaintenance_mono.
Qed.

(** X3. When [applyMaturedSiacoinOutputs] has visited the bucket at the
    block height and panics, the debug checks are on, the height is above
    the maturity delay, the panic is [errOutputAlreadyMature] and some
    identifier of the bucket is a mature output: the loop has emptied the
    bucket, so the check before the deletion of the bucket never fires. *)
Theorem applyMaturedSiacoinOutputs_panic_cause dbg order cs bn e :
  map_range (bucket cs (height bn)) order →
  applyMaturedSiacoinOutputs dbg order (cs, bn) = Panic e →
  dbg = true ∧ MaturityDelay < height bn ∧ e = errOutputAlreadyMature ∧
  ∃ id, is_Some (bucket cs (height bn) !! id) ∧ is_Some (siacoinOutputs cs !! id).
Proof.
  intros Hr Hrun.
  assert (Hd : dbg = true).
  { destruct dbg; [done|].
    destruct (applyMaturedSiacoinOutputs_nodebug order (cs, bn)) as [s' Hs].
    congruence. }
  subst dbg.
  assert (HH : MaturityDelay < height bn).
  { destruct (N.ltb_spec MaturityDelay (height bn)) as [HH|HH]; [done|].
    rewrite (applyMaturedSiacoinOutputs_early true order (cs, bn)) in Hrun; done. }
  split_and!; [done..| |].
  - unfold applyMaturedSiacoinOutputs in Hrun. simpl in Hrun.
    pose proof HH as HH'. apply N.ltb_lt in HH'. rewrite HH' in Hrun. simpl in Hrun.
    destruct (for_range (applyMaturedSiacoinOutput true) 0 order (cs, bn))
      as [[cs1 bn1]|e1] eqn:Hloop; simpl in Hrun.
    + exfalso. apply matured_loop in Hloop as (_ & Hb & _ & Hl & _).
      assert (Hh : height bn1 = height bn) by (by destruct Hl as (_ & ? & _)).
      unfold deleteMaturedBucket in Hrun.
      rewrite Hh, Hb, decide_True in Hrun by done.
      by rewrite (delete_all_map_to_list _ _ Hr), map_size_empty in Hrun.
    + injection Hrun as <-. by eapply matured_loop_Panic.
  - destruct (decide (Exists (λ x : N * SiacoinOutput,
                                is_Some (siacoinOutputs cs !! x.1)) order))
      as [Hex|Hnex].
    + apply Exists_exists in Hex as ([id v] & Hin & Hm).
      exists id. split; [|done].
      apply (map_range_elem_of _ _ _ _ Hr) in Hin. by eexists.
    + exfalso.
      destruct (applyMaturedSiacoinOutputs_intro true order cs bn Hr) as [s' Hs];
        [|congruence].
      intros _ _ id [v Hv]. apply eq_None_not_Some. intros Hm. apply Hnex.
      apply Exists_exists. exists (id, v). split; [|done].
      by apply (map_range_elem_of _ _ _ _ Hr).
Qed.

(** X4. When [applyFileContractMaintenance] has visited the contract set
    and panics, the debug checks are on and the panic is the one of the
    scan or [errPayoutsAlreadyPaid]: every identifier handed to
    [applyMissedStorageProof] is in the contract set with its window
    ending at the block height, so [errMissingFileContract] and
    [errStorageProofTiming] never come out of the function. *)
Theorem applyFileContractMaintenance_panic_value dbg order cs bn e :
  map_range (fileContracts cs) order →
  applyFileContractMaintenance dbg order (cs, bn) = Panic e →
  dbg = true ∧
  (e = panicString "an expiring file contract was missed somehow" ∨
   e = errPayoutsAlreadyPaid).
Proof.
  intros Hr Hrun. split.
  { destruct dbg; [done|].
    destruct (applyFileContractMaintenance_nodebug order (cs, bn)) as [s' Hs].
    congruence. }
  rewrite applyFileContractMaintenance_scan in Hrun.
  destruct (for_range (scanFileContract dbg) 0 order (cs, bn, []))
    as [st|e1] eqn:Hscan; simpl in Hrun.
  - right. eapply missed_loop_Panic; [| |exact Hrun].
    + by eapply expiredFileContracts_NoDup.
    + intros x Hx. by apply (elem_of_expiredFileContracts _ _ _ _ Hr) in Hx.
  - left. injection Hrun as <-. by eapply scan_loop_Panic.
Qed.

(** X5. A block's miner payouts cannot be applied twice unnoticed: after
    [applyMinerPayouts] has returned for a block with at least one payout,
    a second call with the debug checks on, for the same block on the
    resulting state, panics with [errPayoutsAlreadyPaid]. *)
Theorem applyMinerPayouts_twice dbg cs bn cs' bn' :
  MinerPayouts (block bn) ≠ [] →
  applyMinerPayouts dbg (cs, bn) = Ok (cs', bn') →
  applyMinerPayouts true (cs', bn') = Panic errPayoutsAlreadyPaid.
Proof.
  intros Hne (_ & Hb & _ & Hl & _)%applyMinerPayouts_Ok.
  destruct Hl as (Hblock & Hheight & _).
  destruct (minerPayoutEntries (block bn)) as [|e P] eqn:HP.
  { unfold minerPayoutEntries in HP. apply fmap_nil_inv in HP.
    destruct (MinerPayouts (block bn)); [done|discriminate]. }
  assert (Hin : is_Some (bucket cs' (height_add (height bn) MaturityDelay) !! e.1)).
  { rewrite Hb, decide_True by done. apply lookup_insert_all_in. left. }
  destruct (applyMinerPayouts true (cs', bn')) as [[cs2 bn2]|err] eqn:Hrun.
  - apply applyMinerPayouts_Ok in Hrun as (_ & _ & _ & _ & Hfr).
    destruct (Hfr eq_refl) as [_ Hfresh]. rewrite Hblock, Hheight, HP in Hfresh.
    destruct (Hfresh e.1) as [Hnone _]; [left|].
    rewrite Hnone in Hin. by destruct Hin.
  - by apply applyMinerPayouts_Panic in Hrun as ->.
Qed.

(** X6. A missed storage proof cannot be applied twice unnoticed: after
    [applyMissedStorageProof] has returned, the contract is not in the
    contract set, and a second call with the debug checks on, for the same
    identifier on the resulting state, panics with
    [errMissingFileContract]. *)
Theorem applyMissedStorageProof_twice dbg fcid cs bn cs' bn' :
  applyMissedStorageProof dbg fcid (cs, bn) = Ok (cs', bn') →
  fileContracts cs' !! fcid = None ∧
  applyMissedStorageProof true fcid (cs', bn') = Panic errMissingFileContract.
Proof.
  intros (-> & _)%applyMissedStorageProof_Ok.
  assert (Hgone : fileContracts
            (set_fileContracts (delete fcid)
               (applyDelayedSiacoinOutputDiffs
                  (payoutDiff (height_add (height bn) MaturityDelay) <$>
                   missedProofEntries
                     (fcid, default zeroFileContract (fileContracts cs !! fcid))) cs))
            !! fcid = None).
  { simpl. apply lookup_delete_eq. }
  split; [done|]. unfold applyMissedStorageProof. by rewrite Hgone.
Qed.

(** ** Beyond the claims: what a pass leaves behind *)

Lemma is_Some_insert_all_mono {V : Type} (items : list (N * V)) m id :
  is_Some (m !! id) → is_Some (insert_all items m !! id).
Proof.
  intros Hm. destruct (decide (id ∈ items.*1)) as [Hin|Hnin].
  - by apply lookup_insert_all_in.
  - by rewrite lookup_insert_all_notin.
Qed.

Lemma fileContracts_after_maintenance dbg order cs bn cs' bn' :
  map_range (fileContracts cs) order →
  applyFileContractMaintenance dbg order (cs, bn) = Ok (cs', bn') →
  (∀ fcid fc, fileContracts cs' !! fcid = Some fc ↔
              fileContracts cs !! fcid = Some fc ∧ WindowEnd fc ≠ height bn) ∧
  (dbg = true →
     ∀ fcid fc, fileContracts cs' !! fcid = Some fc → height bn < WindowEnd fc).
Proof.
  intros Hr (_ & _ & Hf & _ & Hfr)%applyFileContractMaintenance_Ok; [|done].
  assert (Hiff : ∀ fcid fc, fileContracts cs' !! fcid = Some fc ↔
            fileContracts cs !! fcid = Some fc ∧ WindowEnd fc ≠ height bn).
  { intros fcid fc. rewrite Hf, lookup_delete_all. split.
    - case_decide as Hin; [done|]. intros Hfc. split; [done|].
      intros Hw. apply Hin. apply (list_elem_of_fmap_2 fst _ (fcid, fc)).
      by apply (elem_of_expiredFileContracts _ _ _ _ Hr).
    - intros [Hfc Hw]. rewrite decide_False; [done|].
      intros ([id' fc'] & -> & Hin)%list_elem_of_fmap.
      apply (elem_of_expiredFileContracts _ _ _ _ Hr) in Hin as [Hfc' Hw'].
      simpl in *. congruence. }
  split; [done|]. intros Hd fcid fc [Hfc Hw]%Hiff.
  destruct (Hfr Hd) as (_ & _ & Hle).
  apply (map_range_elem_of _ _ _ _ Hr) in Hfc. specialize (Hle _ Hfc).
  simpl in Hle. lia.
Qed.

(** What a returning pass did, in terms of the state it started from. *)
Lemma applyMaintenance_summary dbg dorder forder cs bn cs' bn' :
  maintenance_orders dbg dorder forder (cs, bn) →
  applyMaintenance dbg dorder forder (cs, bn) = Ok (cs', bn') →
  let H := height bn in
  let T := height_add H MaturityDelay in
  let P := minerPayoutEntries (block bn) in
  let l := if MaturityDelay <? H then dorder else [] in
  let es := expiredFileContracts H forder in
  let M := es ≫= missedProofEntries in
  let b1 := λ h, if decide (h = T) then insert_all P (bucket cs T) else bucket cs h in
  let b2 := λ h, if decide (h = H ∧ MaturityDelay < H) then ∅ else b1 h in
  map_range (b1 H) dorder ∧
  map_range (fileContracts cs) forder ∧
  siacoinOutputs cs' = insert_all l (siacoinOutputs cs) ∧
  (∀ h, bucket cs' h = if decide (h = T) then insert_all M (b2 T) else b2 h) ∧
  fileContracts cs' = delete_all es.*1 (fileContracts cs) ∧
  logs_extended bn bn' (maturedOutputDiff <$> l)
    ((payoutDiff T <$> P) ++ (maturedDelayedDiff H <$> l) ++ (payoutDiff T <$> M))
    (missedContractDiff <$> es) ∧
  (dbg = true → NoDup M.*1).
Proof.
  intros Hord Hrun.
  destruct (applyMaintenance_phases _ _ _ _ _ _ _ Hord Hrun)
    as (cs1 & bn1 & cs2 & bn2 & H1 & H2 & H3 & Hrd & Hrf).
  apply applyMinerPayouts_Ok in H1 as (Hs1 & Hb1 & Hf1 & Hl1 & _).
  apply applyMaturedSiacoinOutputs_summary in H2 as (Hs2 & Hb2 & Hf2 & Hl2 & _).
  apply applyFileContractMaintenance_Ok in H3 as (Hs3 & Hb3 & Hf3 & Hl3 & Hfr3);
    [|done].
  assert (Hh1 : height bn1 = height bn) by (by destruct Hl1 as (_ & ? & _)).
  assert (Hh2 : height bn2 = height bn).
  { destruct Hl2 as (_ & ? & _). congruence. }
  rewrite Hh1 in Hrd, Hs2, Hb2, Hl2. rewrite Hh2 in Hb3, Hf3, Hl3, Hfr3.
  cbv zeta. split_and!.
  - by rewrite <- Hb1.
  - by rewrite <- Hf1, <- Hf2.
  - by rewrite Hs3, Hs2, Hs1.
  - intros h. rewrite Hb3, !Hb2, !Hb1. done.
  - by rewrite Hf3, Hf2, Hf1.
  - pose proof (logs_extended_trans _ _ _ _ _ _ _ _ _
                  (logs_extended_trans _ _ _ _ _ _ _ _ _ Hl1 Hl2) Hl3) as Hl.
    rewrite app_nil_l, app_nil_r, !app_nil_l, <- app_assoc in Hl. done.
  - intros Hd. by destruct (Hfr3 Hd) as (? & _).
Qed.


(** X7. The contract set after [applyFileContractMaintenance] has
    returned is the one before without the contracts whose window ends at
    the block height; no contract is added or altered.  When the debug
    checks are on, every contract left has its window ending above the
    block height. *)
Theorem applyFileContractMaintenance_contracts dbg order cs bn cs' bn' :
  map_range (fileContracts cs) order →
  applyFileContractMaintenance dbg order (cs, bn) = Ok (cs', bn') →
  (∀ fcid fc, fileContracts cs' !! fcid = Some fc ↔
              fileContracts cs !! fcid = Some fc ∧ WindowEnd fc ≠ height bn) ∧
  (dbg = true →
     ∀ fcid fc, fileContracts cs' !! fcid = Some fc → height bn < WindowEnd fc).
Proof. apply fileContracts_after_maintenance. Qed.

(** X8. With the debug checks on, the consensus set a maintenance pass
    returns does not depend on the orders in which the maps were visited:
    two returning passes on the same block node and consensus set end with
    the same mature outputs, the same contents of every delayed bucket and
    the same contracts. *)
Theorem applyMaintenance_contents_order_independent
    dorder1 forder1 dorder2 forder2 cs bn cs1 bn1 cs2 bn2 :
  maintenance_orders true dorder1 forder1 (cs, bn) →
  maintenance_orders true dorder2 forder2 (cs, bn) →
  applyMaintenance true dorder1 forder1 (cs, bn) = Ok (cs1, bn1) →
  applyMaintenance true dorder2 forder2 (cs, bn) = Ok (cs2, bn2) →
  same_contents cs1 cs2.
Proof.
  intros Hord1 Hord2 Hrun1 Hrun2.
  destruct (applyMaintenance_summary _ _ _ _ _ _ _ Hord1 Hrun1)
    as (Hrd1 & Hrf1 & Hs1 & Hb1 & Hf1 & _ & Hnd1).
  destruct (applyMaintenance_summary _ _ _ _ _ _ _ Hord2 Hrun2)
    as (Hrd2 & Hrf2 & Hs2 & Hb2 & Hf2 & _ & _).
  assert (Hd : dorder1 ≡ₚ dorder2) by (unfold map_range in *; by rewrite Hrd1, Hrd2).
  assert (Hf : forder1 ≡ₚ forder2) by (unfold map_range in *; by rewrite Hrf1, Hrf2).
  assert (Hes : expiredFileContracts (height bn) forder1
                ≡ₚ expiredFileContracts (height bn) forder2).
  { unfold expiredFileContracts. by rewrite Hf. }
  unfold same_contents. split_and!.
  - rewrite Hs1, Hs2. destruct (_ <? _); [|done].
    apply insert_all_Permutation; [by eapply map_range_NoDup|done].
  - intros h. rewrite Hb1, Hb2.
    destruct (decide (h = height_add (height bn) MaturityDelay)); [|done].
    apply insert_all_Permutation; [by apply Hnd1|by rewrite Hes].
  - rewrite Hf1, Hf2. apply map_eq. intros id. rewrite !lookup_delete_all.
    apply decide_ext. by rewrite Hes.
Qed.

(** X9. The three logs after a maintenance pass are the logs before it
    followed by: in the output log, one [DiffApply] diff per entry of the
    bucket at the block height (none at or below the maturity delay); in
    the delayed-output log, first the diffs of the miner payouts, then the
    [DiffRevert] diffs of the matured entries, then the diffs of the
    missed-proof outputs; in the contract log, one [DiffRevert] diff per
    contract whose window ends at the block height.  The matured entries
    are those of the bucket at the block height once the payouts are
    queued, the contracts are those of the contract set before the pass. *)
Theorem applyMaintenance_logs dbg dorder forder cs bn cs' bn' :
  maintenance_orders dbg dorder forder (cs, bn) →
  applyMaintenance dbg dorder forder (cs, bn) = Ok (cs', bn') →
  let H := height bn in
  let T := height_add H MaturityDelay in
  let P := minerPayoutEntries (block bn) in
  let l := if MaturityDelay <? H then dorder else [] in
  let es := expiredFileContracts H forder in
  map_range (if decide (H = T) then insert_all P (bucket cs H) else bucket cs H) dorder ∧
  map_range (fileContracts cs) forder ∧
  block bn' = block bn ∧ height bn' = height bn ∧
  siacoinOutputDiffs bn' = siacoinOutputDiffs bn ++ (maturedOutputDiff <$> l) ∧
  delayedSiacoinOutputDiffs bn' =
    delayedSiacoinOutputDiffs bn ++ (payoutDiff T <$> P) ++
    (maturedDelayedDiff H <$> l) ++ (payoutDiff T <$> (es ≫= missedProofEntries)) ∧
  fileContractDiffs bn' = fileContractDiffs bn ++ (missedContractDiff <$> es).
Proof.
  intros Hord Hrun.
  destruct (applyMaintenance_summary _ _ _ _ _ _ _ Hord Hrun)
    as (Hrd & Hrf & _ & _ & _ & Hl & _).
  destruct Hl as (? & ? & ? & ? & ?). cbv zeta. split_and!; try done.
  destruct (decide (height bn = height_add (height bn) MaturityDelay)) as [Heq|Hne].
  - by rewrite <- Heq in Hrd.
  - done.
Qed.

(** X10. When [H + MaturityDelay] is not [H], the payouts of the block
    do not mature in the pass that queues them: after [applyMaintenance]
    every miner payout identifier is a key of the bucket at
    [H + MaturityDelay], the entries that matured are those the bucket at
    [H] held before the pass, the mature outputs are the old ones together
    with those entries (none at or below the maturity delay), and above the
    maturity delay the bucket at [H] is empty. *)
Theorem applyMaintenance_payouts_stay_delayed dbg dorder forder cs bn cs' bn' :
  height_add (height bn) MaturityDelay ≠ height bn →
  maintenance_orders dbg dorder forder (cs, bn) →
  applyMaintenance dbg dorder forder (cs, bn) = Ok (cs', bn') →
  map_range (bucket cs (height bn)) dorder ∧
  siacoinOutputs cs' =
    (if MaturityDelay <? height bn then bucket cs (height bn) ∪ siacoinOutputs cs
     else siacoinOutputs cs) ∧
  (MaturityDelay < height bn → bucket cs' (height bn) = ∅) ∧
  (∀ e, e ∈ minerPayoutEntries (block bn) →
     is_Some (bucket cs' (height_add (height bn) MaturityDelay) !! e.1)).
Proof.
  intros HT Hord Hrun.
  destruct (applyMaintenance_summary _ _ _ _ _ _ _ Hord Hrun)
    as (Hrd & _ & Hs & Hb & _).
  rewrite decide_False in Hrd by done.
  split_and!; [done|..].
  - rewrite Hs. destruct (_ <? _); [|done]. by apply insert_all_range.
  - intros HH. rewrite Hb, decide_False by done. by rewrite decide_True.
  - intros e He. rewrite Hb, decide_True by done.
    apply is_Some_insert_all_mono.
    rewrite decide_False by (by intros [? _]). rewrite decide_True by done.
    apply lookup_insert_all_in. by apply list_elem_of_fmap_2.
Qed.

(** X11. When [H + MaturityDelay] is [H] (a maturity delay of zero) and
    [H] is above the maturity delay, the payouts of the block mature in
    the pass that queues them: after [applyMaintenance] every miner payout
    identifier is a mature output. *)
Theorem applyMaintenance_payouts_mature_at_once dbg dorder forder cs bn cs' bn' :
  height_add (height bn) MaturityDelay = height bn →
  MaturityDelay < height bn →
  maintenance_orders dbg dorder forder (cs, bn) →
  applyMaintenance dbg dorder forder (cs, bn) = Ok (cs', bn') →
  ∀ e, e ∈ minerPayoutEntries (block bn) → is_Some (siacoinOutputs cs' !! e.1).
Proof.
  intros HT HH Hord Hrun e He.
  destruct (applyMaintenance_summary _ _ _ _ _ _ _ Hord Hrun)
    as (Hrd & _ & Hs & _).
  rewrite decide_True in Hrd by done.
  rewrite Hs. apply N.ltb_lt in HH. rewrite HH.
  apply lookup_insert_all_in.
  assert (Hk : is_Some (insert_all (minerPayoutEntries (block bn))
                          (bucket cs (height_add (height bn) MaturityDelay)) !! e.1)).
  { apply lookup_insert_all_in. by apply list_elem_of_fmap_2. }
  destruct Hk as [v Hv]. apply (list_elem_of_fmap_2 fst dorder (e.1, v)).
  by apply (map_range_elem_of _ _ _ _ Hrd).
Qed.

(** X12. When the height index has no bucket at the block height,
    [applyMaturedSiacoinOutputs] returns the state it was given, in either
    build and at every height: the loop over the missing bucket has nothing
    to visit and the deletion of the missing key changes nothing. *)
Theorem applyMaturedSiacoinOutputs_no_bucket dbg order cs bn :
  delayedSiacoinOutputs cs !! height bn = None →
  map_range (bucket cs (height bn)) order →
  applyMaturedSiacoinOutputs dbg order (cs, bn) = Ok (cs, bn).
Proof. apply applyMaturedSiacoinOutputs_absent. Qed.

(** X13. [applyMaturedSiacoinOutputs] is idempotent: run again on the
    state it returned, in either build, it returns that state unchanged
    and records nothing. *)
Theorem applyMaturedSiacoinOutputs_idempotent dbg dbg' order order' cs bn cs' bn' :
  applyMaturedSiacoinOutputs dbg order (cs, bn) = Ok (cs', bn') →
  map_range (bucket cs' (height bn')) order' →
  applyMaturedSiacoinOutputs dbg' order' (cs', bn') = Ok (cs', bn').
Proof.
  intros Hrun Hr'.
  destruct (N.ltb_spec MaturityDelay (height bn)) as [HH|HH].
  - apply applyMaturedSiacoinOutputs_Ok in Hrun as (_ & Habs & _ & _ & Hl & _);
      [|done].
    assert (Hh : height bn' = height bn) by (by destruct Hl as (_ & ? & _)).
    apply applyMaturedSiacoinOutputs_absent; [|done]. by rewrite Hh.
  - rewrite (applyMaturedSiacoinOutputs_early dbg order (cs, bn)) in Hrun by done.
    injection Hrun as <- <-. by apply applyMaturedSiacoinOutputs_early.
Qed.

(** X14. When no contract of the contract set has its window ending at
    the block height (and, with the debug checks on, none below it),
    [applyFileContractMaintenance] returns the state it was given. *)
Theorem applyFileContractMaintenance_none_expiring dbg order cs bn :
  map_range (fileContracts cs) order →
  (∀ fcid fc, fileContracts cs !! fcid = Some fc → WindowEnd fc ≠ height bn) →
  (dbg = true →
     ∀ fcid fc, fileContracts cs !! fcid = Some fc → height bn ≤ WindowEnd fc) →
  applyFileContractMaintenance dbg order (cs, bn) = Ok (cs, bn).
Proof. apply applyFileContractMaintenance_quiet. Qed.

(** X15. [applyFileContractMaintenance] is idempotent: run again in the
    same build on the state it returned, it returns that state unchanged
    and records nothing. *)
Theorem applyFileContractMaintenance_idempotent dbg order order' cs bn cs' bn' :
  map_range (fileContracts cs) order →
  applyFileContractMaintenance dbg order (cs, bn) = Ok (cs', bn') →
  map_range (fileContracts cs') order' →
  applyFileContractMaintenance dbg order' (cs', bn') = Ok (cs', bn').
Proof.
  intros Hr Hrun Hr'.
  destruct (fileContracts_after_maintenance _ _ _ _ _ _ Hr Hrun) as [Hiff Hle].
  apply applyFileContractMaintenance_Ok in Hrun as (_ & _ & _ & Hl & _); [|done].
  assert (Hh : height bn' = height bn) by (by destruct Hl as (_ & ? & _)).
  apply applyFileContractMaintenance_quiet; [done|..]; rewrite Hh.
  - intros fcid fc Hfc. by apply Hiff in Hfc as [_ ?].
  - intros Hd fcid fc Hfc. apply N.lt_le_incl. by apply (Hle Hd fcid fc).
Qed.

(** X16. A block without miner payouts, on a ledger with no bucket at the
    block height and no contract whose window ends at the block height
    (with the debug checks on, none below it), leaves everything as it is:
    [applyMaintenance] returns the state it was given. *)
Theorem applyMaintenance_nothing_to_do dbg dorder forder cs bn :
  MinerPayouts (block bn) = [] →
  delayedSiacoinOutputs cs !! height bn = None →
  map_range (bucket cs (height bn)) dorder →
  map_range (fileContracts cs) forder →
  (∀ fcid fc, fileContracts cs !! fcid = Some fc → WindowEnd fc ≠ height bn) →
  (dbg = true →
     ∀ fcid fc, fileContracts cs !! fcid = Some fc → height bn ≤ WindowEnd fc) →
  applyMaintenance dbg dorder forder (cs, bn) = Ok (cs, bn).
Proof.
  intros Hpay Habs Hrd Hrf Hnone Hle. unfold applyMaintenance.
  unfold applyMinerPayouts. simpl. rewrite Hpay. simpl.
  rewrite applyMaturedSiacoinOutputs_absent by done. simpl.
  by apply applyFileContractMaintenance_quiet.
Qed.

(** X17. For a contract that is in the contract set,
    [applyMissedStorageProof], once returned, has removed that contract and
    no other, has appended one [DiffRevert] diff carrying it to the contract
    log and one [DiffApply] diff per missed-proof output to the
    delayed-output log, has put those outputs into the bucket at
    [H + MaturityDelay] and has left the mature outputs, the other buckets
    and the output log as they were.  With the debug checks on the window
    of the contract ends at the block height; with the checks off the
    function returns whatever the window is. *)
Theorem applyMissedStorageProof_spec dbg fcid fc cs bn :
  fileContracts cs !! fcid = Some fc →
  let T := height_add (height bn) MaturityDelay in
  let E := missedProofEntries (fcid, fc) in
  (dbg = false → ∃ s', applyMissedStorageProof dbg fcid (cs, bn) = Ok s') ∧
  ∀ cs' bn', applyMissedStorageProof dbg fcid (cs, bn) = Ok (cs', bn') →
    fileContracts cs' = delete fcid (fileContracts cs) ∧
    siacoinOutputs cs' = siacoinOutputs cs ∧
    bucket cs' T = insert_all E (bucket cs T) ∧
    (∀ h, h ≠ T → bucket cs' h = bucket cs h) ∧
    logs_extended bn bn' [] (payoutDiff T <$> E) [missedContractDiff (fcid, fc)] ∧
    (dbg = true → WindowEnd fc = height bn).
Proof.
  intros Hfc T E. split.
  { intros ->. apply applyMissedStorageProof_nodebug. }
  intros cs' bn' (-> & Hl & Hd)%applyMissedStorageProof_Ok.
  rewrite Hfc in Hl, Hd |- *. simpl in Hl, Hd |- *. fold T E in Hl, Hd |- *.
  split_and!.
  - by rewrite fileContracts_applyDelayed.
  - apply siacoinOutputs_applyDelayed.
  - rewrite bucket_set_fileContracts, bucket_applyDelayed_payouts.
    by rewrite decide_True.
  - intros h Hh. rewrite bucket_set_fileContracts, bucket_applyDelayed_payouts.
    by rewrite decide_False.
  - done.
  - intros Hdbg. by destruct (Hd Hdbg) as (_ & ? & _).
Qed.

End Maintenance.

(** ** The scenarios, run *)

Lemma applyMinerPayouts_spec_witness :
  ∃ cs' bn',
    applyMinerPayouts sampleMaturityDelay sampleMinerPayoutID true
      (emptyLedger, freshNode rewardBlock 5) = Ok (cs', bn') ∧
    delayedSiacoinOutputDiffs bn' =
      [{| dscod_Direction := DiffApply; dscod_ID := 100;
          dscod_SiacoinOutput := outA; dscod_MaturityHeight := 15 |}] ∧
    bucket cs' 15 !! 100 = Some outA ∧
    siacoinOutputs cs' = ∅.
Proof.
  destruct (applyMinerPayouts_spec sampleMaturityDelay sampleMinerPayoutID true
              emptyLedger (freshNode rewardBlock 5)) as [Hret Hspec].
  destruct Hret as [[cs' bn'] Hrun].
  { intros _. split.
    - vm_compute. apply NoDup_singleton.
    - intros id Hid. vm_compute in Hid. apply list_elem_of_singleton in Hid as ->.
      by vm_compute. }
  exists cs', bn'. split; [done|].
  destruct (Hspec cs' bn' Hrun) as (Hl & _ & Hpos & _ & _ & Hs & _ & _).
  destruct (Hpos 0%nat outA eq_refl) as (_ & _ & Hb).
  split_and!.
  - by destruct Hl as (_ & _ & _ & ? & _).
  - apply Hb. intros j Hj. simpl in Hj. lia.
  - done.
Defined.

Lemma applyMaturedSiacoinOutputs_noop_witness :
  3 ≤ sampleMaturityDelay ∧
  applyMaturedSiacoinOutputs sampleMaturityDelay true []
    (emptyLedger, freshNode emptyBlock 3)
  = Ok (emptyLedger, freshNode emptyBlock 3).
Proof.
  split; [by vm_compute|].
  apply applyMaturedSiacoinOutputs_noop. by vm_compute.
Defined.

Lemma applyMaturedSiacoinOutputs_spec_witness :
  sampleMaturityDelay < 15 ∧
  map_range (bucket ledgerA 15) [(100, outA)] ∧
  ∃ cs' bn',
    applyMaturedSiacoinOutputs sampleMaturityDelay true [(100, outA)]
      (ledgerA, freshNode emptyBlock 15) = Ok (cs', bn') ∧
    delayedSiacoinOutputs cs' !! 15 = None ∧
    siacoinOutputs cs' !! 100 = Some outA.
Proof.
  assert (Hh : sampleMaturityDelay < 15) by (by vm_compute).
  assert (Hr : map_range (bucket ledgerA 15) [(100, outA)]).
  { unfold map_range. vm_compute. reflexivity. }
  split_and!; [done..|].
  destruct (applyMaturedSiacoinOutputs_spec sampleMaturityDelay true [(100, outA)]
              ledgerA (freshNode emptyBlock 15) Hh Hr) as [Hret Hspec].
  destruct Hret as [[cs' bn'] Hrun].
  { intros _ id Hid. by vm_compute. }
  exists cs', bn'. split; [done|].
  destruct (Hspec cs' bn' Hrun) as (Hd & Hm & _). split; [done|].
  apply Hm. by vm_compute.
Defined.

Lemma applyFileContractMaintenance_spec_witness :
  map_range (fileContracts ledgerB) [(7, contractC)] ∧
  ∃ cs' bn',
    applyFileContractMaintenance sampleMaturityDelay sampleStorageProofOutputID true
      [(7, contractC)] (ledgerB, freshNode emptyBlock 20) = Ok (cs', bn') ∧
    fileContracts cs' !! 7 = None ∧
    is_Some (bucket cs' 30 !! 8000).
Proof.
  assert (Hr : map_range (fileContracts ledgerB) [(7, contractC)]).
  { unfold map_range. vm_compute. reflexivity. }
  split; [done|].
  destruct (applyFileContractMaintenance_spec sampleMaturityDelay
              sampleStorageProofOutputID true [(7, contractC)]
              ledgerB (freshNode emptyBlock 20) Hr) as [Hret Hspec].
  destruct Hret as [[cs' bn'] Hrun].
  { intros _. split_and!.
    - intros e He. apply list_elem_of_singleton in He as ->. by vm_compute.
    - vm_compute. apply NoDup_singleton.
    - intros id Hid. vm_compute in Hid. apply list_elem_of_singleton in Hid as ->.
      by vm_compute. }
  exists cs', bn'. split; [done|].
  destruct (Hspec cs' bn' Hrun) as (_ & Hexp & _).
  destruct (Hexp 7 contractC eq_refl eq_refl) as (Hgone & _ & Hout).
  split; [done|]. by destruct (Hout 0%nat outB eq_refl) as (? & _ & _).
Defined.

Lemma applyFileContractMaintenance_collect_then_mutate_witness :
  let order := [(9, contractE); (7, contractC); (8, contractD)] in
  map_range (fileContracts ledgerContracts) order ∧
  ∃ cs' bn' tr',
    applyFileContractMaintenance_observed sampleMaturityDelay sampleStorageProofOutputID
      true order ((ledgerContracts, freshNode emptyBlock 20), []) = Ok ((cs', bn'), tr') ∧
    tr' = [RangeNext 9; RangeNext 7; RangeNext 8; RangeEnd; MapDelete 7; MapDelete 8] ∧
    fileContracts cs' !! 7 = None ∧
    fileContracts cs' !! 8 = None ∧
    fileContracts cs' !! 9 = Some contractE ∧
    fileContractDiffs bn' =
      [{| fcd_Direction := DiffRevert; fcd_ID := 7; fcd_FileContract := contractC |};
       {| fcd_Direction := DiffRevert; fcd_ID := 8; fcd_FileContract := contractD |}] ∧
    applyFileContractMaintenance sampleMaturityDelay sampleStorageProofOutputID
      true order (ledgerContracts, freshNode emptyBlock 20) = Ok (cs', bn').
Proof.
  intros order.
  assert (Hr : map_range (fileContracts ledgerContracts) order).
  { unfold map_range, order. vm_compute map_to_list.
    apply (Permutation_cons_app [_] [_]). apply Permutation_swap. }
  split; [done|].
  destruct (applyFileContractMaintenance_observed sampleMaturityDelay
              sampleStorageProofOutputID true order
              ((ledgerContracts, freshNode emptyBlock 20), []))
    as [[[cs' bn'] tr']|e] eqn:Hrun; [|vm_compute in Hrun; discriminate].
  destruct (applyFileContractMaintenance_collect_then_mutate sampleMaturityDelay
              sampleStorageProofOutputID true order
              ledgerContracts (freshNode emptyBlock 20) [] Hr)
    as (_ & _ & _ & _ & _ & _ & _ & _ & _ & Hret).
  destruct (Hret cs' bn' tr' Hrun) as (Htr & Hfc & Hlog & Hplain).
  exists cs', bn', tr'. split_and!.
  - reflexivity.
  - exact Htr.
  - by rewrite Hfc.
  - by rewrite Hfc.
  - by rewrite Hfc.
  - exact Hlog.
  - exact Hplain.
Defined.

Lemma maintenance_violations_panic_witness :
  fileContracts emptyLedger !! 7 = None ∧
  applyMissedStorageProof sampleMaturityDelay sampleStorageProofOutputID true 7
    (emptyLedger, freshNode emptyBlock 20) = Panic errMissingFileContract ∧
  applyMinerPayouts sampleMaturityDelay sampleMinerPayoutID true
    (ledgerA, freshNode rewardBlock 5) = Panic errPayoutsAlreadyPaid.
Proof.
  destruct (maintenance_violations_panic sampleMaturityDelay sampleMinerPayoutID
              sampleStorageProofOutputID) as (Hpay & _ & _ & Hmiss & _).
  split_and!.
  - by vm_compute.
  - apply Hmiss. by vm_compute.
  - apply (Hpay ledgerA (freshNode rewardBlock 5) (100, outA)).
    + vm_compute. apply list_elem_of_singleton. reflexivity.
    + left. vm_compute. by eexists.
Defined.

Lemma applyMissedStorageProof_missing_nodebug_witness :
  fileContracts ledgerA !! 7 = None ∧
  ∃ bn', applyMissedStorageProof sampleMaturityDelay sampleStorageProofOutputID false 7
           (ledgerA, freshNode emptyBlock 20) = Ok (ledgerA, bn') ∧
    fileContractDiffs bn' =
      [{| fcd_Direction := DiffRevert; fcd_ID := 7;
          fcd_FileContract := {| WindowEnd := 0; MissedProofOutputs := [] |} |}] ∧
    delayedSiacoinOutputDiffs bn' = [].
Proof.
  split; [by vm_compute|].
  destruct (applyMissedStorageProof_missing_nodebug sampleMaturityDelay
              sampleStorageProofOutputID 7 ledgerA (freshNode emptyBlock 20))
    as (bn' & Hrun & Hf & Hd & _); [by vm_compute|].
  exists bn'. split_and!; [exact Hrun | exact Hf | exact Hd].
Defined.

(** ** The sample ledger at height 20 *)

Lemma ledger20_orders dbg dorder :
  dorder ≡ₚ [(5, outA); (6, outB)] →
  maintenance_orders sampleMaturityDelay sampleMinerPayoutID dbg
    dorder [(7, contractC)] (ledger20, freshNode rewardBlock 20).
Proof.
  intros Hd s1 H1.
  assert (s1 = (applyDelayedSiacoinOutputDiffs
                  [payoutDiff 30 (100, outA)] ledger20,
                extend_delayedSiacoinOutputDiffs
                  [payoutDiff 30 (100, outA)] (freshNode rewardBlock 20))) as ->.
  { destruct dbg; vm_compute in H1; by injection H1 as <-. }
  split.
  - unfold map_range. rewrite Hd. vm_compute. apply perm_swap.
  - intros [cs2 bn2] H2.
    apply applyMaturedSiacoinOutputs_summary in H2 as (_ & _ & Hf & _).
    unfold map_range. simpl. rewrite Hf. vm_compute. reflexivity.
Qed.

Lemma ledger20_disjoint : mature_delayed_disjoint ledger20.
Proof.
  intros id h [v Hv]. simpl in Hv. apply lookup_singleton_Some in Hv as [<- _].
  unfold bucket. simpl. destruct (decide (h = 20)) as [->|Hne].
  - by vm_compute.
  - by rewrite lookup_singleton_ne.
Qed.

Lemma ledger20_exclusive : bucket_exclusive ledger20 20.
Proof.
  intros id h Hh _. unfold bucket. simpl. by rewrite lookup_singleton_ne.
Qed.

Lemma ledger20_payouts_exclusive :
  payouts_exclusive sampleMaturityDelay sampleMinerPayoutID
    ledger20 (freshNode rewardBlock 20).
Proof.
  intros e h He _. vm_compute in He. apply list_elem_of_singleton in He as ->.
  unfold bucket. simpl. destruct (decide (h = 20)) as [->|Hne].
  - by vm_compute.
  - by rewrite lookup_singleton_ne.
Qed.

Lemma ledger20Queued_orders :
  maintenance_orders sampleMaturityDelay sampleMinerPayoutID true
    [(5, outA); (6, outB)] [(7, contractC)] (ledger20Queued, freshNode rewardBlock 20).
Proof.
  intros s1 H1. vm_compute in H1. injection H1 as <-. split.
  - unfold map_range. vm_compute. apply perm_swap.
  - intros [cs2 bn2] H2.
    apply applyMaturedSiacoinOutputs_summary in H2 as (_ & _ & Hf & _).
    unfold map_range. simpl. rewrite Hf. vm_compute. reflexivity.
Qed.

Lemma applyMaintenance_revert_witness :
  maintenance_orders sampleMaturityDelay sampleMinerPayoutID true
    [(5, outA); (6, outB)] [(7, contractC)] (ledger20Queued, freshNode rewardBlock 20) ∧
  ∃ cs' bn' sds dds fds,
    applyMaintenance sampleMaturityDelay sampleMinerPayoutID
      sampleStorageProofOutputID true [(5, outA); (6, outB)] [(7, contractC)]
      (ledger20Queued, freshNode rewardBlock 20) = Ok (cs', bn') ∧
    applyMaintenance sampleMaturityDelay sampleMinerPayoutID
      sampleStorageProofOutputID false [(5, outA); (6, outB)] [(7, contractC)]
      (ledger20Queued, freshNode rewardBlock 20) = Ok (cs', bn') ∧
    logs_extended (freshNode rewardBlock 20) bn' sds dds fds ∧
    revertSiacoinOutputDiffs sds
      (revertDelayedSiacoinOutputDiffs dds (revertFileContractDiffs fds cs'))
    = ledger20Queued.
Proof.
  pose proof ledger20Queued_orders as Hord.
  split; [done|].
  destruct (applyMaintenance sampleMaturityDelay sampleMinerPayoutID
              sampleStorageProofOutputID true [(5, outA); (6, outB)] [(7, contractC)]
              (ledger20Queued, freshNode rewardBlock 20)) as [[cs' bn']|e] eqn:Hrun;
    [|vm_compute in Hrun; discriminate].
  destruct (applyMaintenance_revert sampleMaturityDelay sampleMinerPayoutID
              sampleStorageProofOutputID false _ _ _ _ _ _ Hord Hrun)
    as (Hnd & sds & dds & fds & Hl & _ & _ & _ & _ & _ & _ & Hexact & _).
  exists cs', bn', sds, dds, fds. split_and!; [done|done|done|].
  apply Hexact.
  - left. vm_compute. by eexists.
  - intros _. vm_compute. discriminate.
Defined.

Lemma maintenance_keeps_mature_delayed_disjoint_witness :
  mature_delayed_disjoint ledger20 ∧
  bucket_exclusive ledger20 20 ∧
  payouts_exclusive sampleMaturityDelay sampleMinerPayoutID
    ledger20 (freshNode rewardBlock 20) ∧
  ∃ cs' bn',
    applyMaintenance sampleMaturityDelay sampleMinerPayoutID
      sampleStorageProofOutputID true [(5, outA); (6, outB)] [(7, contractC)]
      (ledger20, freshNode rewardBlock 20) = Ok (cs', bn') ∧
    mature_delayed_disjoint cs'.
Proof.
  pose proof (ledger20_orders true [(5, outA); (6, outB)] (reflexivity _)) as Hord.
  split_and!;
    [apply ledger20_disjoint|apply ledger20_exclusive|apply ledger20_payouts_exclusive|].
  destruct (applyMaintenance sampleMaturityDelay sampleMinerPayoutID
              sampleStorageProofOutputID true [(5, outA); (6, outB)] [(7, contractC)]
              (ledger20, freshNode rewardBlock 20)) as [[cs' bn']|e] eqn:Hrun;
    [|vm_compute in Hrun; discriminate].
  exists cs', bn'. split; [done|].
  destruct (maintenance_keeps_mature_delayed_disjoint sampleMaturityDelay
              sampleMinerPayoutID sampleStorageProofOutputID) as (_ & _ & _ & Hpass).
  exact (Hpass _ _ _ _ _ _ Hord ledger20_disjoint ledger20_exclusive
           ledger20_payouts_exclusive Hrun).
Defined.

Lemma applyMaintenance_logs_permutation_witness :
  ∃ cs1 bn1 cs2 bn2,
    applyMaintenance sampleMaturityDelay sampleMinerPayoutID
      sampleStorageProofOutputID true [(5, outA); (6, outB)] [(7, contractC)]
      (ledger20, freshNode rewardBlock 20) = Ok (cs1, bn1) ∧
    applyMaintenance sampleMaturityDelay sampleMinerPayoutID
      sampleStorageProofOutputID true [(6, outB); (5, outA)] [(7, contractC)]
      (ledger20, freshNode rewardBlock 20) = Ok (cs2, bn2) ∧
    siacoinOutputDiffs bn1 ≡ₚ siacoinOutputDiffs bn2 ∧
    delayedSiacoinOutputDiffs bn1 ≡ₚ delayedSiacoinOutputDiffs bn2 ∧
    fileContractDiffs bn1 ≡ₚ fileContractDiffs bn2.
Proof.
  pose proof (ledger20_orders true [(5, outA); (6, outB)] (reflexivity _)) as Hord1.
  pose proof (ledger20_orders true [(6, outB); (5, outA)] (perm_swap _ _ _)) as Hord2.
  destruct (applyMaintenance sampleMaturityDelay sampleMinerPayoutID
              sampleStorageProofOutputID true [(5, outA); (6, outB)] [(7, contractC)]
              (ledger20, freshNode rewardBlock 20)) as [[cs1 bn1]|e] eqn:Hrun1;
    [|vm_compute in Hrun1; discriminate].
  destruct (applyMaintenance sampleMaturityDelay sampleMinerPayoutID
              sampleStorageProofOutputID true [(6, outB); (5, outA)] [(7, contractC)]
              (ledger20, freshNode rewardBlock 20)) as [[cs2 bn2]|e] eqn:Hrun2;
    [|vm_compute in Hrun2; discriminate].
  exists cs1, bn1, cs2, bn2. split_and!; [done..| | |];
    by destruct (applyMaintenance_logs_permutation sampleMaturityDelay
                   sampleMinerPayoutID sampleStorageProofOutputID true
                   _ _ _ _ _ _ _ _ _ _ Hord1 Hord2 Hrun1 Hrun2) as (? & ? & ?).
Defined.

(** ** Where the claims as written fail *)

(** C1 as written fails in three ways.  Without the debug checks, the
    maintenance of the block of scenario A run on the ledger that already
    holds its reward returns, and replaying its diffs backwards removes
    the reward that was there before the pass.  With the debug checks on,
    the pass at height 15 on the ledger whose bucket at 15 is there and
    empty deletes that bucket and records no diff, so the rewound ledger
    has no bucket at 15; and the pass of the block of scenario A on the
    empty ledger creates the bucket at 15 for the reward, and the rewound
    ledger keeps that bucket, empty, where there was none. *)
Lemma applyMaintenance_revert_counterexample :
  (maintenance_orders sampleMaturityDelay sampleMinerPayoutID false [] []
     (ledgerA, freshNode rewardBlock 5) ∧
   ∃ cs' bn',
     applyMaintenance sampleMaturityDelay sampleMinerPayoutID
       sampleStorageProofOutputID false [] [] (ledgerA, freshNode rewardBlock 5)
       = Ok (cs', bn') ∧
     ¬ same_contents
         (revertSiacoinOutputDiffs (siacoinOutputDiffs bn')
            (revertDelayedSiacoinOutputDiffs (delayedSiacoinOutputDiffs bn')
               (revertFileContractDiffs (fileContractDiffs bn') cs')))
         ledgerA) ∧
  (maintenance_orders sampleMaturityDelay sampleMinerPayoutID true [] []
     (ledgerHollow, freshNode emptyBlock 15) ∧
   ∃ cs' bn',
     applyMaintenance sampleMaturityDelay sampleMinerPayoutID
       sampleStorageProofOutputID true [] [] (ledgerHollow, freshNode emptyBlock 15)
       = Ok (cs', bn') ∧
     delayedSiacoinOutputs ledgerHollow !! 15 = Some ∅ ∧
     delayedSiacoinOutputs
       (revertSiacoinOutputDiffs (siacoinOutputDiffs bn')
          (revertDelayedSiacoinOutputDiffs (delayedSiacoinOutputDiffs bn')
             (revertFileContractDiffs (fileContractDiffs bn') cs'))) !! 15 = None) ∧
  (maintenance_orders sampleMaturityDelay sampleMinerPayoutID true [] []
     (emptyLedger, freshNode rewardBlock 5) ∧
   ∃ cs' bn',
     applyMaintenance sampleMaturityDelay sampleMinerPayoutID
       sampleStorageProofOutputID true [] [] (emptyLedger, freshNode rewardBlock 5)
       = Ok (cs', bn') ∧
     delayedSiacoinOutputs emptyLedger !! 15 = None ∧
     delayedSiacoinOutputs
       (revertSiacoinOutputDiffs (siacoinOutputDiffs bn')
          (revertDelayedSiacoinOutputDiffs (delayedSiacoinOutputDiffs bn')
             (revertFileContractDiffs (fileContractDiffs bn') cs'))) !! 15 = Some ∅).
Proof.
  assert (Hord : ∀ dbg cs b h,
            (∀ s1, applyMinerPayouts sampleMaturityDelay sampleMinerPayoutID dbg
                     (cs, freshNode b h) = Ok s1 →
                   bucket s1.1 h = ∅ ∧ fileContracts s1.1 = ∅) →
            maintenance_orders sampleMaturityDelay sampleMinerPayoutID dbg [] []
              (cs, freshNode b h)).
  { intros dbg cs b h Hs1 [cs1 bn1] H1. destruct (Hs1 _ H1) as [Hb Hf].
    assert (Hh : height bn1 = h).
    { apply applyMinerPayouts_Ok in H1 as (_ & _ & _ & Hl & _).
      by destruct Hl as (_ & ? & _). }
    simpl in *. split.
    - unfold map_range. by rewrite Hh, Hb, map_to_list_empty.
    - intros [cs2 bn2] H2.
      apply applyMaturedSiacoinOutputs_summary in H2 as (_ & _ & Hf2 & _).
      unfold map_range. simpl. by rewrite Hf2, Hf, map_to_list_empty. }
  split_and!.
  - apply Hord. intros s1 H1. vm_compute in H1. by injection H1 as <-.
  - eexists _, _. split; [vm_compute; reflexivity|].
    intros (_ & Hb & _). specialize (Hb 15).
    apply (f_equal (λ b : gmap N SiacoinOutput, b !! 100)) in Hb.
    vm_compute in Hb. discriminate.
  - apply Hord. intros s1 H1. vm_compute in H1. by injection H1 as <-.
  - eexists _, _. split; [vm_compute; reflexivity|]. by vm_compute.
  - apply Hord. intros s1 H1. vm_compute in H1. by injection H1 as <-.
  - eexists _, _. split; [vm_compute; reflexivity|]. by vm_compute.
Qed.

(** C2 as written fails even with the debug checks on: in [ledgerTwice]
    no identifier is both mature and delayed, and after the maturation at
    height 15 the identifier 100 is a mature output and still in the
    bucket at 25. *)
Lemma maintenance_keeps_mature_delayed_disjoint_counterexample :
  mature_delayed_disjoint ledgerTwice ∧
  map_range (bucket ledgerTwice 15) [(100, outA)] ∧
  ∃ cs' bn',
    applyMaturedSiacoinOutputs sampleMaturityDelay true [(100, outA)]
      (ledgerTwice, freshNode emptyBlock 15) = Ok (cs', bn') ∧
    ¬ mature_delayed_disjoint cs'.
Proof.
  split_and!.
  - intros id h [v Hv]. simpl in Hv. by rewrite lookup_empty in Hv.
  - unfold map_range. vm_compute. reflexivity.
  - eexists _, _. split; [vm_compute; reflexivity|].
    intros Hdis. specialize (Hdis 100 25).
    assert (Hnone : bucket ledgerTwice 25 !! 100 = None).
    { apply Hdis. vm_compute. by eexists. }
    vm_compute in Hnone. discriminate.
Qed.

(** C3 as written fails: two passes on the same block node and ledger that
    visit the bucket at height 20 in different orders record their diffs
    in different orders. *)
Lemma applyMaintenance_logs_order_counterexample :
  maintenance_orders sampleMaturityDelay sampleMinerPayoutID true
    [(5, outA); (6, outB)] [(7, contractC)] (ledger20, freshNode rewardBlock 20) ∧
  maintenance_orders sampleMaturityDelay sampleMinerPayoutID true
    [(6, outB); (5, outA)] [(7, contractC)] (ledger20, freshNode rewardBlock 20) ∧
  ∃ cs1 bn1 cs2 bn2,
    applyMaintenance sampleMaturityDelay sampleMinerPayoutID
      sampleStorageProofOutputID true [(5, outA); (6, outB)] [(7, contractC)]
      (ledger20, freshNode rewardBlock 20) = Ok (cs1, bn1) ∧
    applyMaintenance sampleMaturityDelay sampleMinerPayoutID
      sampleStorageProofOutputID true [(6, outB); (5, outA)] [(7, contractC)]
      (ledger20, freshNode rewardBlock 20) = Ok (cs2, bn2) ∧
    siacoinOutputDiffs bn1 ≠ siacoinOutputDiffs bn2 ∧
    delayedSiacoinOutputDiffs bn1 ≠ delayedSiacoinOutputDiffs bn2.
Proof.
  split_and!.
  - by apply ledger20_orders.
  - apply ledger20_orders, perm_swap.
  - eexists _, _, _, _. split_and!; [vm_compute; reflexivity..| |];
      vm_compute; discriminate.
Qed.

(** ** The further properties, run on the sample ledgers *)

Lemma debug_checks_only_restrict_witness :
  ∃ s',
    applyMinerPayouts sampleMaturityDelay sampleMinerPayoutID true
      (emptyLedger, freshNode rewardBlock 5) = Ok s' ∧
    applyMinerPayouts sampleMaturityDelay sampleMinerPayoutID false
      (emptyLedger, freshNode rewardBlock 5) = Ok s'.
Proof.
  destruct (applyMinerPayouts sampleMaturityDelay sampleMinerPayoutID true
              (emptyLedger, freshNode rewardBlock 5)) as [s'|e] eqn:Hrun;
    [|vm_compute in Hrun; discriminate].
  exists s'. split; [done|].
  destruct (debug_checks_only_restrict sampleMaturityDelay sampleMinerPayoutID
              sampleStorageProofOutputID) as (Hpay & _).
  by apply Hpay.
Defined.

Lemma applyMaturedSiacoinOutputs_panic_cause_witness :
  map_range (bucket (set_siacoinOutputs <[100 := outA]> ledgerA) 15) [(100, outA)] ∧
  applyMaturedSiacoinOutputs sampleMaturityDelay true [(100, outA)]
    (set_siacoinOutputs <[100 := outA]> ledgerA, freshNode emptyBlock 15)
  = Panic errOutputAlreadyMature.
Proof.
  assert (Hr : map_range (bucket (set_siacoinOutputs <[100 := outA]> ledgerA) 15)
                 [(100, outA)]).
  { unfold map_range. vm_compute. reflexivity. }
  split; [done|].
  destruct (applyMaturedSiacoinOutputs sampleMaturityDelay true [(100, outA)]
              (set_siacoinOutputs <[100 := outA]> ledgerA, freshNode emptyBlock 15))
    as [s'|e] eqn:Hrun; [vm_compute in Hrun; discriminate|].
  by destruct (applyMaturedSiacoinOutputs_panic_cause sampleMaturityDelay true
                 [(100, outA)] (set_siacoinOutputs <[100 := outA]> ledgerA)
                 (freshNode emptyBlock 15) e Hr Hrun) as (_ & _ & -> & _).
Defined.

Lemma applyFileContractMaintenance_panic_value_witness :
  map_range (fileContracts ledgerB) [(7, contractC)] ∧
  ∃ e,
    applyFileContractMaintenance sampleMaturityDelay sampleStorageProofOutputID true
      [(7, contractC)] (ledgerB, freshNode emptyBlock 25) = Panic e ∧
    (e = panicString "an expiring file contract was missed somehow" ∨
     e = errPayoutsAlreadyPaid).
Proof.
  assert (Hr : map_range (fileContracts ledgerB) [(7, contractC)]).
  { unfold map_range. vm_compute. reflexivity. }
  split; [done|].
  destruct (applyFileContractMaintenance sampleMaturityDelay
              sampleStorageProofOutputID true [(7, contractC)]
              (ledgerB, freshNode emptyBlock 25)) as [s'|e] eqn:Hrun;
    [vm_compute in Hrun; discriminate|].
  exists e. split; [done|].
  by destruct (applyFileContractMaintenance_panic_value sampleMaturityDelay
                 sampleStorageProofOutputID true _ ledgerB (freshNode emptyBlock 25)
                 e Hr Hrun) as [_ ?].
Defined.

Lemma applyMinerPayouts_twice_witness :
  MinerPayouts rewardBlock ≠ [] ∧
  ∃ cs' bn',
    applyMinerPayouts sampleMaturityDelay sampleMinerPayoutID true
      (emptyLedger, freshNode rewardBlock 5) = Ok (cs', bn') ∧
    applyMinerPayouts sampleMaturityDelay sampleMinerPayoutID true (cs', bn')
      = Panic errPayoutsAlreadyPaid.
Proof.
  assert (Hne : MinerPayouts rewardBlock ≠ []) by (by vm_compute).
  split; [done|].
  destruct (applyMinerPayouts sampleMaturityDelay sampleMinerPayoutID true
              (emptyLedger, freshNode rewardBlock 5)) as [[cs' bn']|e] eqn:Hrun;
    [|vm_compute in Hrun; discriminate].
  exists cs', bn'. split; [done|].
  exact (applyMinerPayouts_twice sampleMaturityDelay sampleMinerPayoutID true
           emptyLedger (freshNode rewardBlock 5) cs' bn' Hne Hrun).
Defined.

Lemma applyMissedStorageProof_twice_witness :
  ∃ cs' bn',
    applyMissedStorageProof sampleMaturityDelay sampleStorageProofOutputID true 7
      (ledgerB, freshNode emptyBlock 20) = Ok (cs', bn') ∧
    applyMissedStorageProof sampleMaturityDelay sampleStorageProofOutputID true 7
      (cs', bn') = Panic errMissingFileContract.
Proof.
  destruct (applyMissedStorageProof sampleMaturityDelay sampleStorageProofOutputID
              true 7 (ledgerB, freshNode emptyBlock 20)) as [[cs' bn']|e] eqn:Hrun;
    [|vm_compute in Hrun; discriminate].
  exists cs', bn'. split; [done|].
  by destruct (applyMissedStorageProof_twice sampleMaturityDelay
                 sampleStorageProofOutputID true 7 _ _ _ _ Hrun) as [_ ?].
Defined.

Lemma applyFileContractMaintenance_contracts_witness :
  map_range (fileContracts ledgerB) [(7, contractC)] ∧
  ∃ cs' bn',
    applyFileContractMaintenance sampleMaturityDelay sampleStorageProofOutputID true
      [(7, contractC)] (ledgerB, freshNode emptyBlock 20) = Ok (cs', bn') ∧
    ∀ fcid fc, fileContracts cs' !! fcid = Some fc → 20 < WindowEnd fc.
Proof.
  assert (Hr : map_range (fileContracts ledgerB) [(7, contractC)]).
  { unfold map_range. vm_compute. reflexivity. }
  split; [done|].
  destruct (applyFileContractMaintenance sampleMaturityDelay
              sampleStorageProofOutputID true [(7, contractC)]
              (ledgerB, freshNode emptyBlock 20)) as [[cs' bn']|e] eqn:Hrun;
    [|vm_compute in Hrun; discriminate].
  exists cs', bn'. split; [done|].
  destruct (applyFileContractMaintenance_contracts sampleMaturityDelay
              sampleStorageProofOutputID true _ ledgerB (freshNode emptyBlock 20)
              _ _ Hr Hrun) as [_ Hle].
  by apply Hle.
Defined.

Lemma applyMaintenance_contents_order_independent_witness :
  ∃ cs1 bn1 cs2 bn2,
    applyMaintenance sampleMaturityDelay sampleMinerPayoutID
      sampleStorageProofOutputID true [(5, outA); (6, outB)] [(7, contractC)]
      (ledger20, freshNode rewardBlock 20) = Ok (cs1, bn1) ∧
    applyMaintenance sampleMaturityDelay sampleMinerPayoutID
      sampleStorageProofOutputID true [(6, outB); (5, outA)] [(7, contractC)]
      (ledger20, freshNode rewardBlock 20) = Ok (cs2, bn2) ∧
    same_contents cs1 cs2.
Proof.
  pose proof (ledger20_orders true [(5, outA); (6, outB)] (reflexivity _)) as Hord1.
  pose proof (ledger20_orders true [(6, outB); (5, outA)] (perm_swap _ _ _)) as Hord2.
  destruct (applyMaintenance sampleMaturityDelay sampleMinerPayoutID
              sampleStorageProofOutputID true [(5, outA); (6, outB)] [(7, contractC)]
              (ledger20, freshNode rewardBlock 20)) as [[cs1 bn1]|e] eqn:Hrun1;
    [|vm_compute in Hrun1; discriminate].
  destruct (applyMaintenance sampleMaturityDelay sampleMinerPayoutID
              sampleStorageProofOutputID true [(6, outB); (5, outA)] [(7, contractC)]
              (ledger20, freshNode rewardBlock 20)) as [[cs2 bn2]|e] eqn:Hrun2;
    [|vm_compute in Hrun2; discriminate].
  exists cs1, bn1, cs2, bn2. split_and!; [done..|].
  exact (applyMaintenance_contents_order_independent sampleMaturityDelay
           sampleMinerPayoutID sampleStorageProofOutputID
           _ _ _ _ _ _ _ _ _ _ Hord1 Hord2 Hrun1 Hrun2).
Defined.

Lemma applyMaintenance_logs_witness :
  ∃ cs' bn',
    applyMaintenance sampleMaturityDelay sampleMinerPayoutID
      sampleStorageProofOutputID true [(5, outA); (6, outB)] [(7, contractC)]
      (ledger20, freshNode rewardBlock 20) = Ok (cs', bn') ∧
    delayedSiacoinOutputDiffs bn' =
      [payoutDiff 30 (100, outA);
       maturedDelayedDiff 20 (5, outA); maturedDelayedDiff 20 (6, outB);
       payoutDiff 30 (8000, outB)] ∧
    siacoinOutputDiffs bn' = [maturedOutputDiff (5, outA); maturedOutputDiff (6, outB)] ∧
    fileContractDiffs bn' = [missedContractDiff (7, contractC)].
Proof.
  pose proof (ledger20_orders true [(5, outA); (6, outB)] (reflexivity _)) as Hord.
  destruct (applyMaintenance sampleMaturityDelay sampleMinerPayoutID
              sampleStorageProofOutputID true [(5, outA); (6, outB)] [(7, contractC)]
              (ledger20, freshNode rewardBlock 20)) as [[cs' bn']|e] eqn:Hrun;
    [|vm_compute in Hrun; discriminate].
  exists cs', bn'. split; [done|].
  destruct (applyMaintenance_logs sampleMaturityDelay sampleMinerPayoutID
              sampleStorageProofOutputID true _ _ _ _ _ _ Hord Hrun)
    as (_ & _ & _ & _ & Hs & Hd & Hf).
  by rewrite Hs, Hd, Hf.
Defined.

Lemma applyMaintenance_payouts_stay_delayed_witness :
  height_add 20 sampleMaturityDelay ≠ 20 ∧
  ∃ cs' bn',
    applyMaintenance sampleMaturityDelay sampleMinerPayoutID
      sampleStorageProofOutputID true [(5, outA); (6, outB)] [(7, contractC)]
      (ledger20, freshNode rewardBlock 20) = Ok (cs', bn') ∧
    is_Some (bucket cs' 30 !! 100) ∧ bucket cs' 20 = ∅.
Proof.
  assert (HT : height_add 20 sampleMaturityDelay ≠ 20) by (by vm_compute).
  split; [done|].
  pose proof (ledger20_orders true [(5, outA); (6, outB)] (reflexivity _)) as Hord.
  destruct (applyMaintenance sampleMaturityDelay sampleMinerPayoutID
              sampleStorageProofOutputID true [(5, outA); (6, outB)] [(7, contractC)]
              (ledger20, freshNode rewardBlock 20)) as [[cs' bn']|e] eqn:Hrun;
    [|vm_compute in Hrun; discriminate].
  exists cs', bn'. split; [done|].
  destruct (applyMaintenance_payouts_stay_delayed sampleMaturityDelay
              sampleMinerPayoutID sampleStorageProofOutputID true
              _ _ ledger20 (freshNode rewardBlock 20) _ _ HT Hord Hrun)
    as (_ & _ & Hempty & Hpay).
  split.
  - apply (Hpay (100, outA)). vm_compute. apply list_elem_of_singleton. reflexivity.
  - apply Hempty. by vm_compute.
Defined.

Lemma applyMaintenance_payouts_mature_at_once_witness :
  height_add 5 0 = 5 ∧ 0 < 5 ∧
  ∃ cs' bn',
    applyMaintenance 0 sampleMinerPayoutID sampleStorageProofOutputID true
      [(100, outA)] [] (emptyLedger, freshNode rewardBlock 5) = Ok (cs', bn') ∧
    is_Some (siacoinOutputs cs' !! 100).
Proof.
  assert (HT : height_add 5 0 = 5) by (by vm_compute).
  assert (HH : 0 < 5) by (by vm_compute).
  split_and!; [done..|].
  assert (Hord : maintenance_orders 0 sampleMinerPayoutID true [(100, outA)] []
                   (emptyLedger, freshNode rewardBlock 5)).
  { intros s1 H1. vm_compute in H1. injection H1 as <-. split.
    - unfold map_range. vm_compute. reflexivity.
    - intros s2 H2. vm_compute in H2. injection H2 as <-.
      unfold map_range. vm_compute. reflexivity. }
  destruct (applyMaintenance 0 sampleMinerPayoutID sampleStorageProofOutputID true
              [(100, outA)] [] (emptyLedger, freshNode rewardBlock 5))
    as [[cs' bn']|e] eqn:Hrun; [|vm_compute in Hrun; discriminate].
  exists cs', bn'. split; [done|].
  apply (applyMaintenance_payouts_mature_at_once 0 sampleMinerPayoutID
           sampleStorageProofOutputID true _ _ emptyLedger (freshNode rewardBlock 5)
           _ _ HT HH Hord Hrun (100, outA)).
  vm_compute. apply list_elem_of_singleton. reflexivity.
Defined.

Lemma applyMaturedSiacoinOutputs_no_bucket_witness :
  delayedSiacoinOutputs emptyLedger !! 15 = None ∧
  map_range (bucket emptyLedger 15) [] ∧
  applyMaturedSiacoinOutputs sampleMaturityDelay true []
    (emptyLedger, freshNode emptyBlock 15) = Ok (emptyLedger, freshNode emptyBlock 15).
Proof.
  assert (Habs : delayedSiacoinOutputs emptyLedger !! 15 = None) by (by vm_compute).
  assert (Hr : map_range (bucket emptyLedger 15) []).
  { unfold map_range. vm_compute. reflexivity. }
  split_and!; [done..|].
  exact (applyMaturedSiacoinOutputs_no_bucket sampleMaturityDelay true []
           emptyLedger (freshNode emptyBlock 15) Habs Hr).
Defined.

Lemma applyMaturedSiacoinOutputs_idempotent_witness :
  ∃ cs' bn',
    applyMaturedSiacoinOutputs sampleMaturityDelay true [(100, outA)]
      (ledgerA, freshNode emptyBlock 15) = Ok (cs', bn') ∧
    map_range (bucket cs' (height bn')) [] ∧
    applyMaturedSiacoinOutputs sampleMaturityDelay true [] (cs', bn') = Ok (cs', bn').
Proof.
  destruct (applyMaturedSiacoinOutputs sampleMaturityDelay true [(100, outA)]
              (ledgerA, freshNode emptyBlock 15)) as [[cs' bn']|e] eqn:Hrun;
    [|vm_compute in Hrun; discriminate].
  exists cs', bn'.
  assert (Hr : map_range (bucket cs' (height bn')) []).
  { pose proof Hrun as Hrun'. vm_compute in Hrun'. injection Hrun' as <- <-.
    unfold map_range. vm_compute. reflexivity. }
  split_and!; [done..|].
  exact (applyMaturedSiacoinOutputs_idempotent sampleMaturityDelay true true
           _ _ _ _ _ _ Hrun Hr).
Defined.

Lemma applyFileContractMaintenance_none_expiring_witness :
  map_range (fileContracts ledgerB) [(7, contractC)] ∧
  applyFileContractMaintenance sampleMaturityDelay sampleStorageProofOutputID true
    [(7, contractC)] (ledgerB, freshNode emptyBlock 15)
  = Ok (ledgerB, freshNode emptyBlock 15).
Proof.
  assert (Hr : map_range (fileContracts ledgerB) [(7, contractC)]).
  { unfold map_range. vm_compute. reflexivity. }
  split; [done|].
  apply applyFileContractMaintenance_none_expiring; [done|..].
  - intros fcid fc Hfc. simpl in Hfc. apply lookup_singleton_Some in Hfc as [_ <-].
    by vm_compute.
  - intros _ fcid fc Hfc. simpl in Hfc. apply lookup_singleton_Some in Hfc as [_ <-].
    by vm_compute.
Defined.

Lemma applyFileContractMaintenance_idempotent_witness :
  map_range (fileContracts ledgerB) [(7, contractC)] ∧
  ∃ cs' bn',
    applyFileContractMaintenance sampleMaturityDelay sampleStorageProofOutputID true
      [(7, contractC)] (ledgerB, freshNode emptyBlock 20) = Ok (cs', bn') ∧
    map_range (fileContracts cs') [] ∧
    applyFileContractMaintenance sampleMaturityDelay sampleStorageProofOutputID true
      [] (cs', bn') = Ok (cs', bn').
Proof.
  assert (Hr : map_range (fileContracts ledgerB) [(7, contractC)]).
  { unfold map_range. vm_compute. reflexivity. }
  split; [done|].
  destruct (applyFileContractMaintenance sampleMaturityDelay
              sampleStorageProofOutputID true [(7, contractC)]
              (ledgerB, freshNode emptyBlock 20)) as [[cs' bn']|e] eqn:Hrun;
    [|vm_compute in Hrun; discriminate].
  exists cs', bn'.
  assert (Hr' : map_range (fileContracts cs') []).
  { pose proof Hrun as Hrun'. vm_compute in Hrun'. injection Hrun' as <- <-.
    unfold map_range. vm_compute. reflexivity. }
  split_and!; [done..|].
  exact (applyFileContractMaintenance_idempotent sampleMaturityDelay
           sampleStorageProofOutputID true _ _ ledgerB (freshNode emptyBlock 20)
           _ _ Hr Hrun Hr').
Defined.

Lemma applyMaintenance_nothing_to_do_witness :
  MinerPayouts emptyBlock = [] ∧
  delayedSiacoinOutputs ledgerB !! 15 = None ∧
  map_range (bucket ledgerB 15) [] ∧
  map_range (fileContracts ledgerB) [(7, contractC)] ∧
  applyMaintenance sampleMaturityDelay sampleMinerPayoutID sampleStorageProofOutputID
    true [] [(7, contractC)] (ledgerB, freshNode emptyBlock 15)
  = Ok (ledgerB, freshNode emptyBlock 15).
Proof.
  assert (Habs : delayedSiacoinOutputs ledgerB !! 15 = None) by (by vm_compute).
  assert (Hrd : map_range (bucket ledgerB 15) []).
  { unfold map_range. vm_compute. reflexivity. }
  assert (Hrf : map_range (fileContracts ledgerB) [(7, contractC)]).
  { unfold map_range. vm_compute. reflexivity. }
  split_and!; [done..|].
  apply applyMaintenance_nothing_to_do; [done..| |].
  - intros fcid fc Hfc. simpl in Hfc. apply lookup_singleton_Some in Hfc as [_ <-].
    by vm_compute.
  - intros _ fcid fc Hfc. simpl in Hfc. apply lookup_singleton_Some in Hfc as [_ <-].
    by vm_compute.
Defined.

Lemma applyMissedStorageProof_spec_witness :
  fileContracts ledgerB !! 7 = Some contractC ∧
  ∃ cs' bn',
    applyMissedStorageProof sampleMaturityDelay sampleStorageProofOutputID true 7
      (ledgerB, freshNode emptyBlock 20) = Ok (cs', bn') ∧
    fileContracts cs' = ∅ ∧
    fileContractDiffs bn' = [missedContractDiff (7, contractC)].
Proof.
  assert (Hfc : fileContracts ledgerB !! 7 = Some contractC) by (by vm_compute).
  split; [done|].
  destruct (applyMissedStorageProof sampleMaturityDelay sampleStorageProofOutputID
              true 7 (ledgerB, freshNode emptyBlock 20)) as [[cs' bn']|e] eqn:Hrun;
    [|vm_compute in Hrun; discriminate].
  exists cs', bn'. split; [done|].
  destruct (applyMissedStorageProof_spec sampleMaturityDelay
              sampleStorageProofOutputID true 7 contractC ledgerB
              (freshNode emptyBlock 20) Hfc) as [_ Hspec].
  destruct (Hspec cs' bn' Hrun) as (Hf & _ & _ & _ & Hl & _).
  split.
  - rewrite Hf. by vm_compute.
  - by destruct Hl as (_ & _ & _ & _ & ?).
Defined.
